(** * iotUx: the client-side delivery and synchronisation layer

    A shallow embedding of

    - [src/utils/command-queue.ts]      (module [CommandQueue]),
    - [src/services/api.ts]             (modules [TokenCache], [Coordinator]),
    - [src/utils/performance-utils.ts]  (both revisions, module [Hash]),
    - the screens that call them: [src/screens/DashboardScreen.tsx]
      (module [Dashboard]) and the device detail screen (module
      [DeviceDetail]),

    together with the properties the design document states about them
    and further properties that the code itself shows.

    The JavaScript runtime is single threaded: a piece of code runs without
    interruption up to its next [await].  Each module below therefore
    models the program as a state machine whose transitions are exactly the
    synchronous segments of the source, and whose events are what the
    runtime can deliver between two segments (a call from the UI, a timer
    that fires, a promise that settles). *)

From Stdlib Require Import ZArith Ascii String Lia.
From Stdlib Require OrderedTypeEx.
From Stdlib Require Import Sorted Permutation.
From stdpp Require Import gmap strings list.

Local Open Scope Z_scope.

(** ** Rendering of integral numbers

    [String(n)] and template literals print an integral JavaScript number
    in decimal.  Only integral numbers occur in the modelled code paths
    ([Date.now()], retry counters, the literals of the examples). *)

Definition digitChar (d : Z) : ascii :=
  ascii_of_nat (48 + Z.to_nat d).

Fixpoint showPos (fuel : nat) (n : Z) (acc : string) : string :=
  match fuel with
  | O => acc
  | S f =>
      let acc' := String (digitChar (n mod 10)) acc in
      if n / 10 =? 0 then acc' else showPos f (n / 10) acc'
  end.

Definition showZ (n : Z) : string :=
  if n <? 0
  then String "-"%char (showPos (S (Z.to_nat (Z.log2 (- n)))) (- n) EmptyString)
  else showPos (S (Z.to_nat (Z.log2 n))) n EmptyString.

(** ** The durable command queue ([src/utils/command-queue.ts]) *)

Module CommandQueue.

Inductive Status := pending | sending | failed | success.

#[global] Instance Status_eq_dec : EqDecision Status.
Proof. solve_decision. Defined.

Record QueuedCommand := mkCommand {
  id : string;
  deviceId : string;
  command : string;
  value : option string;
  timestamp : Z;
  retryCount : Z;
  status : Status
}.

Definition MAX_RETRIES : Z := 3.

(** [QueuedCommand] values are JavaScript objects: [processQueue] filters
    the queue into [pendingCommands] and then mutates the very objects
    the queue holds.  Objects live in [heap]; the queue and the loop hold
    references. *)
Definition ref := nat.

(** Where a [processQueue] invocation is suspended. *)
Inductive DrainPc :=
| AwaitSaveSending (cmd : ref) (rest : list ref)  (* line 77 *)
| AwaitSend (cmd : ref) (rest : list ref)         (* line 79 *)
| AwaitSaveSettled (rest : list ref).             (* lines 85 and 90 *)

Record State := mkState {
  heap : list QueuedCommand;
  queue : list ref;                       (* CommandQueue.queue *)
  processing : bool;                      (* CommandQueue.processing *)
  saveTimeout : option nat;               (* CommandQueue.saveTimeout *)
  timers : list nat;                      (* timers set and neither fired nor cleared *)
  nextTimer : nat;
  saving : nat;                           (* timer callbacks awaiting setItem *)
  storage : option (list QueuedCommand);  (* AsyncStorage entry QUEUE_KEY *)
  passes : list DrainPc;                  (* suspended processQueue invocations *)
  sendLog : list ref;                     (* calls of deviceAPI.sendCommand *)
  loading : list (option (list QueuedCommand))
                                          (* getItem of init, read and not yet
                                             handed to its continuation *)
}.

Definition initial : State :=
  mkState [] [] false None [] 0 0 None [] [] [].

Definition set_heap h st :=
  mkState h (queue st) (processing st) (saveTimeout st) (timers st)
    (nextTimer st) (saving st) (storage st) (passes st) (sendLog st)
    (loading st).
Definition set_queue q st :=
  mkState (heap st) q (processing st) (saveTimeout st) (timers st)
    (nextTimer st) (saving st) (storage st) (passes st) (sendLog st)
    (loading st).
Definition set_processing b st :=
  mkState (heap st) (queue st) b (saveTimeout st) (timers st)
    (nextTimer st) (saving st) (storage st) (passes st) (sendLog st)
    (loading st).
Definition set_saveTimeout t st :=
  mkState (heap st) (queue st) (processing st) t (timers st)
    (nextTimer st) (saving st) (storage st) (passes st) (sendLog st)
    (loading st).
Definition set_timers ts st :=
  mkState (heap st) (queue st) (processing st) (saveTimeout st) ts
    (nextTimer st) (saving st) (storage st) (passes st) (sendLog st)
    (loading st).
Definition set_nextTimer n st :=
  mkState (heap st) (queue st) (processing st) (saveTimeout st) (timers st)
    n (saving st) (storage st) (passes st) (sendLog st)
    (loading st).
Definition set_saving n st :=
  mkState (heap st) (queue st) (processing st) (saveTimeout st) (timers st)
    (nextTimer st) n (storage st) (passes st) (sendLog st)
    (loading st).
Definition set_storage s st :=
  mkState (heap st) (queue st) (processing st) (saveTimeout st) (timers st)
    (nextTimer st) (saving st) s (passes st) (sendLog st) (loading st).
Definition set_passes ps st :=
  mkState (heap st) (queue st) (processing st) (saveTimeout st) (timers st)
    (nextTimer st) (saving st) (storage st) ps (sendLog st) (loading st).
Definition set_sendLog l st :=
  mkState (heap st) (queue st) (processing st) (saveTimeout st) (timers st)
    (nextTimer st) (saving st) (storage st) (passes st) l (loading st).
Definition set_loading l st :=
  mkState (heap st) (queue st) (processing st) (saveTimeout st) (timers st)
    (nextTimer st) (saving st) (storage st) (passes st) (sendLog st) l.

(** *** Object access *)

Definition with_status (s : Status) (c : QueuedCommand) : QueuedCommand :=
  mkCommand (id c) (deviceId c) (command c) (value c) (timestamp c)
    (retryCount c) s.

Definition with_retryCount (n : Z) (c : QueuedCommand) : QueuedCommand :=
  mkCommand (id c) (deviceId c) (command c) (value c) (timestamp c)
    n (status c).

Definition deref (st : State) (r : ref) : option QueuedCommand :=
  heap st !! r.

Definition update (r : ref) (f : QueuedCommand -> QueuedCommand)
    (st : State) : State :=
  match heap st !! r with
  | Some c => set_heap (<[r := f c]> (heap st)) st
  | None => st
  end.

(** [cmd.status === 'pending' || cmd.status === 'failed'] *)
Definition isPending (c : QueuedCommand) : bool :=
  match status c with
  | pending | failed => true
  | _ => false
  end.

Definition refPending (st : State) (r : ref) : bool :=
  match deref st r with
  | Some c => isPending c
  | None => false
  end.

(** [JSON.stringify(this.queue)], kept as the list of records the text
    denotes; [JSON.parse] gives back fresh objects with the same fields. *)
Definition snapshot (st : State) : list QueuedCommand :=
  omap (deref st) (queue st).

(** [getQueuedCommands] returns a copy of the array. *)
Definition getQueuedCommands (st : State) : list QueuedCommand :=
  snapshot st.

Definition getPendingCount (st : State) : nat :=
  length (List.filter (refPending st) (queue st)).

(** *** Persistence *)

Definition clearTimeout (t : nat) (st : State) : State :=
  set_timers (List.filter (fun u => negb (Nat.eqb u t)) (timers st)) st.

(** [saveQueue]: cancel the timer in [saveTimeout], start a new one. *)
Definition saveQueue (st : State) : State :=
  let st1 := match saveTimeout st with
             | Some t => clearTimeout t st
             | None => st
             end in
  let t := nextTimer st1 in
  set_saveTimeout (Some t)
    (set_timers (timers st1 ++ [t]) (set_nextTimer (S t) st1)).

(** [AsyncStorage.setItem(QUEUE_KEY, JSON.stringify(this.queue))]: the
    text is computed when the call is made; a failing store leaves the
    entry as it was (the rejection is caught and logged). *)
Definition setItem (writeOk : bool) (st : State) : State :=
  if writeOk then set_storage (Some (snapshot st)) st else st.

(** The timer callback of [saveQueue], up to its [await]. *)
Definition timerFires (t : nat) (writeOk : bool) (st : State) : State :=
  if bool_decide (t ∈ timers st) then
    let st1 := setItem writeOk (clearTimeout t st) in
    if writeOk then set_saving (S (saving st1)) st1 else st1
  else st.

(** ... and after it: [this.saveTimeout = null]. *)
Definition saveDone (st : State) : State :=
  match saving st with
  | O => st
  | S n => set_saveTimeout None (set_saving n st)
  end.

Definition saveQueueImmediate (writeOk : bool) (st : State) : State :=
  let st1 := match saveTimeout st with
             | Some t => set_saveTimeout None (clearTimeout t st)
             | None => st
             end in
  setItem writeOk st1.

Definition clearQueue (writeOk : bool) (st : State) : State :=
  let st1 := set_queue [] st in
  let st2 := match saveTimeout st1 with
             | Some t => set_saveTimeout None (clearTimeout t st1)
             | None => st1
             end in
  saveQueueImmediate writeOk st2.

(** [init] awaits [AsyncStorage.getItem(QUEUE_KEY)] (line 26): other
    segments can run between the read and the lines that follow it.
    [initRead] is the read: it fixes what [getItem] resolves to. *)
Definition initRead (st : State) : State :=
  set_loading (loading st ++ [storage st]) st.

(** Lines 27-30, for the read [i]:
    [if (stored) this.queue = JSON.parse(stored)].  The text of an array
    is never the empty string, so a stored queue is truthy.  When
    [getItem] rejects, the [catch] logs and nothing is assigned. *)
Definition initAssign (i : nat) (readOk : bool) (st : State) : State :=
  match loading st !! i with
  | None => st
  | Some stored =>
      let st1 := set_loading (delete i (loading st)) st in
      if readOk then
        match stored with
        | Some l =>
            set_queue (seq (length (heap st1)) (length l))
              (set_heap (heap st1 ++ l) st1)
        | None => st1
        end
      else st1
  end.

(** [init] when nothing else runs between its read and its assignment,
    as when the process has just started. *)
Definition init (readOk : bool) (st : State) : State :=
  initAssign (length (loading st)) readOk (initRead st).

(** The process dies and is started again: only the store survives. *)
Definition restart (st : State) : State :=
  mkState [] [] false None [] 0 0 (storage st) [] [] [].

(** *** Enqueue *)

(** [addCommand] up to its first [await]; the call of [processQueue]
    that follows is the event [EvProcessQueue].  [Date.now()] is read
    twice: [now] goes into the id, [now'] is the [timestamp]. *)
Definition addCommand (now now' : Z) (rnd : string)
    (deviceId command : string) (value : option string)
    (st : State) : string * State :=
  let queuedCommand :=
    mkCommand (showZ now ++ "-" ++ rnd)%string deviceId command value
      now' 0 pending in
  let r := length (heap st) in
  let st1 := set_queue (queue st ++ [r])
               (set_heap (heap st ++ [queuedCommand]) st) in
  (id queuedCommand, saveQueue st1).

(** *** Drain *)

(** [this.queue = this.queue.filter(c => c.id !== cmd.id)] *)
Definition removeById (cmd : ref) (st : State) : State :=
  set_queue
    (filter (fun r => (id <$> deref st r) ≠ (id <$> deref st cmd))
       (queue st))
    st.

Definition overLimit (st : State) (cmd : ref) : bool :=
  match deref st cmd with
  | Some c => MAX_RETRIES <=? retryCount c
  | None => false
  end.

(** Lines 75-77: [cmd.status = 'sending'; cmd.retryCount++; saveQueue()]. *)
Definition markSending (cmd : ref) (st : State) : State :=
  saveQueue
    (update cmd (fun c => with_retryCount (retryCount c + 1) c)
       (update cmd (with_status sending) st)).

(** The [for] loop from its head until the pass suspends or ends.  The
    result carries the continuation, [None] when the pass has ended
    (lines 94-97). *)
Fixpoint drainLoop (cmds : list ref) (st : State)
    : option DrainPc * State :=
  match cmds with
  | [] => (None, saveQueue (set_processing false st))
  | cmd :: rest =>
      if overLimit st cmd
      then drainLoop rest (removeById cmd st)
      else (Some (AwaitSaveSending cmd rest), markSending cmd st)
  end.

(** A new invocation suspends (or has already ended). *)
Definition spawn (k : option DrainPc * State) : State :=
  match k with
  | (Some pc, st) => set_passes (passes st ++ [pc]) st
  | (None, st) => st
  end.

(** Invocation [i] suspends again (or ends). *)
Definition install (i : nat) (k : option DrainPc * State) : State :=
  match k with
  | (Some pc, st) => set_passes (<[i := pc]> (passes st)) st
  | (None, st) => set_passes (delete i (passes st)) st
  end.

(** [processQueue] from its entry to its first suspension. *)
Definition processQueue (st : State) : State :=
  if processing st || bool_decide (queue st = []) then st
  else
    let st1 := set_processing true st in
    let pendingCommands := List.filter (refPending st1) (queue st1) in
    spawn (drainLoop pendingCommands st1).

(** Invocation [i] gets control back from an awaited [saveQueue]. *)
Definition resume (i : nat) (st : State) : State :=
  match passes st !! i with
  | Some (AwaitSaveSending cmd rest) =>
      set_passes (<[i := AwaitSend cmd rest]> (passes st))
        (set_sendLog (sendLog st ++ [cmd]) st)
  | Some (AwaitSaveSettled rest) => install i (drainLoop rest st)
  | _ => st
  end.

(** [deviceAPI.sendCommand] settles for invocation [i]. *)
Definition sendResult (i : nat) (ok : bool) (st : State) : State :=
  match passes st !! i with
  | Some (AwaitSend cmd rest) =>
      let st1 := if ok then removeById cmd st
                 else update cmd (with_status failed) st in
      set_passes (<[i := AwaitSaveSettled rest]> (passes st1))
        (saveQueue st1)
  | _ => st
  end.

(** *** The transition system *)

Inductive Event :=
| EvInit
| EvInitDone (i : nat) (readOk : bool)
| EvAddCommand (now now' : Z) (rnd deviceId command : string)
    (value : option string)
| EvProcessQueue
| EvResume (i : nat)
| EvSendResult (i : nat) (ok : bool)
| EvClearQueue (writeOk : bool)
| EvTimer (t : nat) (writeOk : bool)
| EvSaveDone
| EvRestart.

Definition step (st : State) (e : Event) : State :=
  match e with
  | EvInit => initRead st
  | EvInitDone i ok => initAssign i ok st
  | EvAddCommand now now' rnd d c v =>
      snd (addCommand now now' rnd d c v st)
  | EvProcessQueue => processQueue st
  | EvResume i => resume i st
  | EvSendResult i ok => sendResult i ok st
  | EvClearQueue ok => clearQueue ok st
  | EvTimer t ok => timerFires t ok st
  | EvSaveDone => saveDone st
  | EvRestart => restart st
  end.

Definition run (st : State) (es : list Event) : State :=
  fold_left step es st.

Inductive reachable : State -> Prop :=
| reach_initial : reachable initial
| reach_step st e : reachable st -> reachable (step st e).

(** *** A pass run to its end

    [drainAll transport cmds st] is the loop of [processQueue] when
    nothing else runs while it is suspended; [transport cmd] tells
    whether [deviceAPI.sendCommand] succeeds for [cmd].  Lemma
    [processQueueAll_run] below shows that it is a run of [step]. *)

(** Lines 75-91 for one command: mark, save, send, settle, save. *)
Definition deliver (transport : ref -> bool) (cmd : ref)
    (st : State) : State :=
  let st1 := markSending cmd st in
  let st2 := set_sendLog (sendLog st1 ++ [cmd]) st1 in
  saveQueue (if transport cmd then removeById cmd st2
             else update cmd (with_status failed) st2).

Fixpoint drainAll (transport : ref -> bool) (cmds : list ref)
    (st : State) : State :=
  match cmds with
  | [] => saveQueue (set_processing false st)
  | cmd :: rest =>
      if overLimit st cmd
      then drainAll transport rest (removeById cmd st)
      else drainAll transport rest (deliver transport cmd st)
  end.

Definition processQueueAll (transport : ref -> bool) (st : State) : State :=
  if processing st || bool_decide (queue st = []) then st
  else
    let st1 := set_processing true st in
    drainAll transport (List.filter (refPending st1) (queue st1)) st1.

(** [n] passes in a row, pass [k] against [transport k]. *)
Fixpoint drainPasses (transport : nat -> ref -> bool) (n : nat)
    (st : State) : State :=
  match n with
  | O => st
  | S k => processQueueAll (transport k) (drainPasses transport k st)
  end.

(** How often [sendCommand] was called for the object [r]. *)
Definition attempts (st : State) (r : ref) : nat :=
  count_occ Nat.eq_dec (sendLog st) r.

(** *** Frame facts: which fields an operation leaves alone *)

Ltac unfold_ops :=
  unfold saveQueueImmediate, clearQueue, saveQueue, setItem, timerFires,
    saveDone, clearTimeout, removeById, markSending, update, init, restart,
    set_heap, set_queue, set_processing, set_saveTimeout, set_timers,
    set_nextTimer, set_saving, set_storage, set_passes, set_sendLog,
    set_loading in *.

Lemma saveQueue_fields st :
  heap (saveQueue st) = heap st /\ queue (saveQueue st) = queue st /\
  processing (saveQueue st) = processing st /\
  storage (saveQueue st) = storage st /\
  passes (saveQueue st) = passes st /\ sendLog (saveQueue st) = sendLog st.
Proof. unfold_ops. destruct (saveTimeout st); simpl; auto 10. Qed.

Lemma saveQueue_loading st : loading (saveQueue st) = loading st.
Proof. unfold_ops. destruct (saveTimeout st); reflexivity. Qed.

Lemma update_loading r f st : loading (update r f st) = loading st.
Proof. unfold update. destruct (heap st !! r); reflexivity. Qed.

Lemma clearQueue_loading ok st : loading (clearQueue ok st) = loading st.
Proof.
  unfold clearQueue, saveQueueImmediate, setItem.
  destruct st as [h q p [t|] ts n sv sto ps lg ld], ok; reflexivity.
Qed.

(** *** [init] run without interruption *)

Lemma delete_last {A} (l : list A) x : delete (length l) (l ++ [x]) = l.
Proof.
  induction l as [|a l IH]; [reflexivity|]. cbn. f_equal. exact IH.
Qed.

Lemma init_uninterrupted ok st :
  init ok st
  = if ok then
      match storage st with
      | Some l =>
          set_queue (seq (length (heap st)) (length l))
            (set_heap (heap st ++ l) st)
      | None => st
      end
    else st.
Proof.
  unfold init, initAssign, initRead. cbn.
  rewrite lookup_app_r by lia. rewrite Nat.sub_diag. cbn.
  unfold set_loading. cbn. rewrite delete_last.
  destruct st as [h q p t ts n sv sto ps lg ld], ok; cbn; [|reflexivity].
  destruct sto; reflexivity.
Qed.

Lemma update_fields r f st :
  queue (update r f st) = queue st /\
  processing (update r f st) = processing st /\
  storage (update r f st) = storage st /\
  passes (update r f st) = passes st /\
  sendLog (update r f st) = sendLog st /\
  length (heap (update r f st)) = length (heap st).
Proof.
  unfold update. destruct (heap st !! r) eqn:E; simpl; auto 10.
  rewrite length_insert. auto 10.
Qed.

Lemma update_deref_eq r f st c :
  deref st r = Some c -> deref (update r f st) r = Some (f c).
Proof.
  unfold deref, update. intros E. rewrite E. simpl.
  apply list_lookup_insert_eq. eapply lookup_lt_Some; eauto.
Qed.

Lemma update_deref_ne r r' f st :
  r <> r' -> deref (update r f st) r' = deref st r'.
Proof.
  unfold deref, update. intros N. destruct (heap st !! r); simpl; auto.
  apply list_lookup_insert_ne. auto.
Qed.

Lemma update_deref_None r f st :
  deref st r = None -> update r f st = st.
Proof. unfold deref, update. intros ->. reflexivity. Qed.

Lemma markSending_fields cmd st :
  queue (markSending cmd st) = queue st /\
  processing (markSending cmd st) = processing st /\
  storage (markSending cmd st) = storage st /\
  passes (markSending cmd st) = passes st /\
  sendLog (markSending cmd st) = sendLog st /\
  length (heap (markSending cmd st)) = length (heap st).
Proof.
  unfold markSending.
  destruct (saveQueue_fields
    (update cmd (fun c => with_retryCount (retryCount c + 1) c)
       (update cmd (with_status sending) st)))
    as (Hh & Hq & Hp & Hs & Hps & Hl).
  rewrite Hh, Hq, Hp, Hs, Hps, Hl.
  destruct (update_fields cmd (fun c => with_retryCount (retryCount c + 1) c)
    (update cmd (with_status sending) st)) as (-> & -> & -> & -> & -> & ->).
  destruct (update_fields cmd (with_status sending) st)
    as (-> & -> & -> & -> & -> & ->).
  auto 10.
Qed.

Lemma markSending_deref_eq cmd st c :
  deref st cmd = Some c ->
  deref (markSending cmd st) cmd
  = Some (with_retryCount (retryCount c + 1) (with_status sending c)).
Proof.
  intros E. unfold markSending, deref.
  destruct (saveQueue_fields
    (update cmd (fun c => with_retryCount (retryCount c + 1) c)
       (update cmd (with_status sending) st))) as (-> & _).
  apply (update_deref_eq cmd (with_status sending)) in E.
  apply (update_deref_eq cmd
           (fun c => with_retryCount (retryCount c + 1) c)) in E.
  exact E.
Qed.

Lemma markSending_deref_ne cmd r st :
  cmd <> r -> deref (markSending cmd st) r = deref st r.
Proof.
  intros N. unfold markSending, deref.
  destruct (saveQueue_fields
    (update cmd (fun c => with_retryCount (retryCount c + 1) c)
       (update cmd (with_status sending) st))) as (-> & _).
  fold (deref (update cmd (fun c => with_retryCount (retryCount c + 1) c)
                 (update cmd (with_status sending) st)) r).
  rewrite !update_deref_ne by auto. reflexivity.
Qed.

Lemma clearQueue_fields ok st :
  heap (clearQueue ok st) = heap st /\
  queue (clearQueue ok st) = [] /\
  processing (clearQueue ok st) = processing st /\
  saveTimeout (clearQueue ok st) = None /\
  storage (clearQueue ok st) = (if ok then Some [] else storage st) /\
  passes (clearQueue ok st) = passes st /\
  sendLog (clearQueue ok st) = sendLog st /\
  timers (clearQueue ok st)
  = match saveTimeout st with
    | Some t => List.filter (fun u => negb (Nat.eqb u t)) (timers st)
    | None => timers st
    end.
Proof.
  unfold clearQueue, saveQueueImmediate, setItem.
  destruct st as [h q p [t|] ts n sv sto ps lg], ok; simpl; auto 10.
Qed.

Lemma overLimit_false st cmd c :
  overLimit st cmd = false -> deref st cmd = Some c ->
  retryCount c < MAX_RETRIES.
Proof. unfold overLimit. intros H E. rewrite E in H. lia. Qed.

Lemma overLimit_true st cmd :
  overLimit st cmd = true ->
  exists c, deref st cmd = Some c /\ MAX_RETRIES <= retryCount c.
Proof.
  unfold overLimit. destruct (deref st cmd) as [c|]; [|discriminate].
  intros H. exists c. split; [reflexivity | lia].
Qed.

(** *** Properties of every command object, in memory and in the store

    A property [P] of records that holds of a new command and that the
    three assignments of [processQueue] preserve holds of every command
    the program ever holds. *)

Section Everywhere.

Variable P : QueuedCommand -> Prop.
Hypothesis P_new : forall i d c v t, P (mkCommand i d c v t 0 pending).
Hypothesis P_sending : forall c, P c -> P (with_status sending c).
Hypothesis P_failed : forall c, P c -> P (with_status failed c).
Hypothesis P_retry : forall c,
  P c -> retryCount c < MAX_RETRIES ->
  P (with_retryCount (retryCount c + 1) c).

Definition everywhere (st : State) : Prop :=
  Forall P (heap st) /\
  (forall l, storage st = Some l -> Forall P l) /\
  (forall l, Some l ∈ loading st -> Forall P l).

Lemma everywhere_frame st st' :
  heap st' = heap st -> storage st' = storage st ->
  loading st' = loading st ->
  everywhere st -> everywhere st'.
Proof. unfold everywhere. intros -> -> ->. auto. Qed.

Lemma everywhere_snapshot st :
  Forall P (heap st) -> Forall P (snapshot st).
Proof.
  intros H. apply Forall_forall. intros c Hc.
  apply list_elem_of_omap in Hc. destruct Hc as (r & _ & Hr).
  rewrite Forall_forall in H. apply H.
  eapply list_elem_of_lookup_2. exact Hr.
Qed.

Lemma everywhere_update r f st :
  (forall c, deref st r = Some c -> P c -> P (f c)) ->
  everywhere st -> everywhere (update r f st).
Proof.
  intros Hf (Hh & Hs & Hl). unfold update, deref in *.
  destruct (heap st !! r) as [c|] eqn:E; [|repeat split; auto].
  split; simpl; [|split; [exact Hs | exact Hl]].
  apply Forall_insert; [exact Hh|].
  apply Hf; [reflexivity|].
  rewrite Forall_forall in Hh. apply Hh.
  eapply list_elem_of_lookup_2. exact E.
Qed.

Lemma everywhere_saveQueue st : everywhere st -> everywhere (saveQueue st).
Proof.
  destruct (saveQueue_fields st) as (Hh & _ & _ & Hs & _).
  apply everywhere_frame; [assumption | assumption | apply saveQueue_loading].
Qed.

Lemma everywhere_setItem ok st : everywhere st -> everywhere (setItem ok st).
Proof.
  intros (Hh & Hs & Hl). unfold setItem.
  destruct ok; [|repeat split; assumption].
  split; [exact Hh|]. split; [|exact Hl]. simpl. intros l [= <-].
  apply everywhere_snapshot, Hh.
Qed.

Lemma everywhere_markSending cmd st :
  overLimit st cmd = false ->
  everywhere st -> everywhere (markSending cmd st).
Proof.
  intros Hlim H. unfold markSending.
  apply everywhere_saveQueue.
  destruct (deref st cmd) as [c|] eqn:E.
  - apply everywhere_update.
    + intros c' Hc' Pc'.
      rewrite (update_deref_eq _ _ _ _ E) in Hc'. injection Hc' as <-.
      apply P_retry; [exact Pc'|]. simpl.
      eapply overLimit_false; eauto.
    + apply everywhere_update; [|exact H]. intros; apply P_sending; auto.
  - rewrite (update_deref_None cmd (with_status sending) st E).
    rewrite (update_deref_None _ _ st E). exact H.
Qed.

Lemma everywhere_drainLoop cmds : forall st,
  everywhere st -> everywhere (snd (drainLoop cmds st)).
Proof.
  induction cmds as [|cmd rest IH]; intros st H; simpl.
  - apply everywhere_saveQueue. exact H.
  - destruct (overLimit st cmd) eqn:Hlim.
    + apply IH. exact H.
    + simpl. apply everywhere_markSending; assumption.
Qed.

Lemma everywhere_spawn k :
  everywhere (snd k) -> everywhere (spawn k).
Proof. destruct k as [[pc|] st]; simpl; auto. Qed.

Lemma everywhere_install i k :
  everywhere (snd k) -> everywhere (install i k).
Proof. destruct k as [[pc|] st]; simpl; auto. Qed.

Lemma everywhere_step st e : everywhere st -> everywhere (step st e).
Proof.
  intros H. destruct e; simpl.
  - (* init, the read *)
    destruct H as (Hh & Hs & Hl). split; [exact Hh|]. split; [exact Hs|].
    simpl. intros l Hin. apply elem_of_app in Hin.
    destruct Hin as [Hin|Hin]; [apply Hl, Hin|].
    apply list_elem_of_singleton in Hin. apply Hs. symmetry. exact Hin.
  - (* init, the assignment *)
    unfold initAssign. destruct (loading st !! i) as [stored|] eqn:E;
      [|exact H].
    destruct H as (Hh & Hs & Hl).
    assert (forall l, Some l ∈ delete i (loading st) -> Forall P l) as Hl'.
    { intros l Hin. apply Hl.
      eapply elem_of_sublist; [exact Hin | apply sublist_delete]. }
    destruct readOk; [|repeat split; assumption].
    destruct stored as [l|]; [|repeat split; assumption].
    split; [|split; assumption]. simpl.
    apply Forall_app. split; [exact Hh|].
    apply Hl. eapply list_elem_of_lookup_2, E.
  - (* addCommand *)
    apply everywhere_saveQueue. destruct H as (Hh & Hs & Hl).
    split; [|split; assumption]. simpl.
    apply Forall_app. split; [exact Hh|].
    constructor; [apply P_new|constructor].
  - (* processQueue *)
    unfold processQueue.
    destruct (processing st || bool_decide (queue st = [])); [exact H|].
    apply everywhere_spawn, everywhere_drainLoop. exact H.
  - (* resume *)
    unfold resume. destruct (passes st !! i) as [[cmd rest|cmd rest|rest]|];
      try exact H.
    apply everywhere_install, everywhere_drainLoop. exact H.
  - (* sendResult *)
    unfold sendResult.
    destruct (passes st !! i) as [[cmd rest|cmd rest|rest]|]; try exact H.
    eapply everywhere_frame; [reflexivity | reflexivity | reflexivity |].
    apply everywhere_saveQueue. destruct ok; [exact H|].
    apply everywhere_update; [|exact H]. intros; apply P_failed; auto.
  - (* clearQueue *)
    destruct (clearQueue_fields writeOk st)
      as (Hh & _ & _ & _ & Hs & _).
    destruct H as (H1 & H2 & H3). split; [rewrite Hh; exact H1|].
    split; [|rewrite clearQueue_loading; exact H3].
    rewrite Hs. destruct writeOk; [|exact H2].
    intros l [= <-]. constructor.
  - (* timer *)
    unfold timerFires. destruct (bool_decide (t ∈ timers st)); [|exact H].
    assert (everywhere (setItem writeOk (clearTimeout t st))) as H'
      by (apply everywhere_setItem; exact H).
    destruct writeOk; exact H'.
  - (* saveDone *)
    unfold saveDone. destruct (saving st); exact H.
  - (* restart *)
    destruct H as (Hh & Hs & Hl). split; [constructor|].
    split; [exact Hs|]. simpl. intros l Hin.
    apply elem_of_nil in Hin. contradiction.
Qed.

Lemma everywhere_reachable st : reachable st -> everywhere st.
Proof.
  induction 1 as [|st e _ IH].
  - split; [constructor|]. split; [discriminate|].
    intros l Hin. apply elem_of_nil in Hin. contradiction.
  - apply everywhere_step, IH.
Qed.

Lemma everywhere_queued st c :
  reachable st -> c ∈ getQueuedCommands st -> P c.
Proof.
  intros Hr Hc. apply everywhere_reachable in Hr. destruct Hr as [Hh _].
  apply everywhere_snapshot in Hh. rewrite Forall_forall in Hh.
  apply Hh, Hc.
Qed.

End Everywhere.

(** *** The re-entrancy flag *)

Arguments saveQueue : simpl never.
Arguments markSending : simpl never.
Arguments removeById : simpl never.
Arguments update : simpl never.
Arguments clearQueue : simpl never.

(** The flag is up exactly while one invocation is suspended. *)
Definition exclusive (st : State) : Prop :=
  match passes st with
  | [] => processing st = false
  | [_] => processing st = true
  | _ => False
  end.

Lemma removeById_fields cmd st :
  heap (removeById cmd st) = heap st /\
  processing (removeById cmd st) = processing st /\
  storage (removeById cmd st) = storage st /\
  passes (removeById cmd st) = passes st /\
  sendLog (removeById cmd st) = sendLog st.
Proof. unfold removeById. simpl. auto. Qed.

Lemma removeById_queue cmd st :
  queue (removeById cmd st)
  = filter (fun r => (id <$> deref st r) <> (id <$> deref st cmd)) (queue st).
Proof. reflexivity. Qed.

Lemma drainLoop_control cmds : forall st,
  passes (snd (drainLoop cmds st)) = passes st /\
  processing (snd (drainLoop cmds st))
  = match fst (drainLoop cmds st) with
    | Some _ => processing st
    | None => false
    end.
Proof.
  induction cmds as [|cmd rest IH]; intros st; cbn.
  - destruct (saveQueue_fields (set_processing false st))
      as (_ & _ & -> & _ & -> & _). auto.
  - destruct (overLimit st cmd).
    + destruct (IH (removeById cmd st)) as [-> ->]. auto.
    + cbn. destruct (markSending_fields cmd st) as (_ & -> & _ & -> & _).
      auto.
Qed.

Lemma exclusive_step st e : exclusive st -> exclusive (step st e).
Proof.
  unfold exclusive. intros H. destruct e; cbn.
  - exact H.
  - unfold initAssign.
    destruct (loading st !! i) as [[l|]|], readOk; exact H.
  - destruct (saveQueue_fields
      (set_queue (queue st ++ [length (heap st)])
         (set_heap (heap st ++
            [mkCommand (showZ now ++ "-" ++ rnd) deviceId0 command0 value0
               now' 0 pending]) st))) as (_ & _ & -> & _ & -> & _).
    exact H.
  - unfold processQueue.
    destruct (processing st) eqn:Hp; cbn; [rewrite Hp; exact H|].
    destruct (bool_decide (queue st = [])); [rewrite Hp; exact H|].
    destruct (passes st) as [|pc [|pc' ps]] eqn:Hps;
      [|congruence|contradiction].
    destruct (drainLoop_control
      (List.filter (refPending (set_processing true st))
         (queue (set_processing true st))) (set_processing true st))
      as [Hpass Hproc].
    destruct (drainLoop _ _) as [[pc|] st']; cbn in *.
    + rewrite Hpass, Hps. cbn. exact Hproc.
    + rewrite Hpass, Hps. exact Hproc.
  - unfold resume.
    destruct (passes st) as [|pc [|pc' ps]] eqn:Hps; [| |contradiction].
    + rewrite lookup_nil. cbn. rewrite Hps. exact H.
    + destruct i as [|i]; cbn; [|destruct i; cbn; rewrite Hps; exact H].
      destruct pc as [cmd rest|cmd rest|rest]; cbn.
      * exact H.
      * rewrite Hps. exact H.
      * destruct (drainLoop_control rest st) as [Hpass Hproc].
        destruct (drainLoop rest st) as [[pc|] st']; cbn in *.
        -- rewrite Hpass, Hps. cbn. congruence.
        -- rewrite Hpass, Hps. cbn. exact Hproc.
  - unfold sendResult.
    destruct (passes st) as [|pc [|pc' ps]] eqn:Hps; [| |contradiction].
    + rewrite lookup_nil. cbn. rewrite Hps. exact H.
    + destruct i as [|i]; cbn; [|destruct i; cbn; rewrite Hps; exact H].
      destruct pc as [cmd rest|cmd rest|rest]; cbn;
        try (rewrite Hps; exact H).
      destruct ok.
      * destruct (saveQueue_fields (removeById cmd st))
          as (_ & _ & -> & _ & _).
        destruct (removeById_fields cmd st) as (_ & -> & _ & -> & _).
        rewrite Hps. cbn. exact H.
      * destruct (saveQueue_fields (update cmd (with_status failed) st))
          as (_ & _ & -> & _ & _).
        destruct (update_fields cmd (with_status failed) st)
          as (_ & -> & _ & -> & _). rewrite Hps. cbn. exact H.
  - destruct (clearQueue_fields writeOk st)
      as (_ & _ & -> & _ & _ & -> & _). exact H.
  - unfold timerFires. destruct (bool_decide (t ∈ timers st)); [|exact H].
    unfold setItem. destruct writeOk; cbn; exact H.
  - unfold saveDone. destruct (saving st); cbn; exact H.
  - reflexivity.
Qed.

Lemma exclusive_reachable st : reachable st -> exclusive st.
Proof.
  induction 1 as [|st e _ IH]; [reflexivity | apply exclusive_step, IH].
Qed.

Lemma reachable_run st es : reachable st -> reachable (run st es).
Proof.
  revert st. induction es as [|e es IH]; intros st H; simpl; [exact H|].
  apply IH. constructor. exact H.
Qed.

(** *** The queue only shrinks during a pass *)

Lemma drainLoop_queue cmds : forall st r,
  r ∈ queue (snd (drainLoop cmds st)) -> r ∈ queue st.
Proof.
  induction cmds as [|cmd rest IH]; intros st r; cbn.
  - destruct (saveQueue_fields (set_processing false st)) as (_ & -> & _).
    auto.
  - destruct (overLimit st cmd).
    + intros H. apply IH in H. rewrite removeById_queue in H.
      apply list_elem_of_filter in H. tauto.
    + cbn. destruct (markSending_fields cmd st) as (-> & _). auto.
Qed.

Lemma removeById_self cmd st :
  is_Some (deref st cmd) -> cmd ∉ queue (removeById cmd st).
Proof.
  intros _ H. rewrite removeById_queue in H.
  apply list_elem_of_filter in H. destruct H as [H _]. apply H. reflexivity.
Qed.

Lemma overLimit_heap st st' r :
  heap st' = heap st -> overLimit st' r = overLimit st r.
Proof. unfold overLimit, deref. intros ->. reflexivity. Qed.

(** A pass only ever suspends on a command below the retry ceiling. *)
Lemma drainLoop_suspends cmds : forall st pc,
  fst (drainLoop cmds st) = Some pc ->
  exists cmd rest, pc = AwaitSaveSending cmd rest /\ overLimit st cmd = false.
Proof.
  induction cmds as [|cmd rest IH]; intros st pc; cbn; [discriminate|].
  destruct (overLimit st cmd) eqn:Hlim.
  - intros H. apply IH in H. destruct H as (c' & rest' & -> & H).
    exists c', rest'. split; [reflexivity|].
    rewrite <- H. symmetry. apply overLimit_heap.
    apply removeById_fields.
  - cbn. intros [= <-]. eauto.
Qed.

(** ... and leaves the commands at the ceiling as they are. *)
Lemma drainLoop_overLimit cmds : forall st r,
  overLimit st r = true -> deref (snd (drainLoop cmds st)) r = deref st r.
Proof.
  induction cmds as [|cmd rest IH]; intros st r Hr; cbn.
  - unfold deref.
    destruct (saveQueue_fields (set_processing false st)) as (-> & _).
    reflexivity.
  - destruct (overLimit st cmd) eqn:Hlim.
    + rewrite IH.
      * unfold deref. destruct (removeById_fields cmd st) as (-> & _).
        reflexivity.
      * rewrite <- Hr. apply overLimit_heap, removeById_fields.
    + cbn. apply markSending_deref_ne. congruence.
Qed.

(** One equation per operation and field, for [autorewrite with cq]. *)

Lemma saveQueue_heap st : heap (saveQueue st) = heap st.
Proof. apply (saveQueue_fields st). Qed.

Lemma saveQueue_queue st : queue (saveQueue st) = queue st.
Proof. apply (saveQueue_fields st). Qed.

Lemma saveQueue_processing st : processing (saveQueue st) = processing st.
Proof. apply (saveQueue_fields st). Qed.

Lemma saveQueue_storage st : storage (saveQueue st) = storage st.
Proof. apply (saveQueue_fields st). Qed.

Lemma saveQueue_passes st : passes (saveQueue st) = passes st.
Proof. apply (saveQueue_fields st). Qed.

Lemma saveQueue_sendLog st : sendLog (saveQueue st) = sendLog st.
Proof. apply (saveQueue_fields st). Qed.

Lemma update_queue r f st : queue (update r f st) = queue st.
Proof. apply (update_fields r f st). Qed.

Lemma update_processing r f st : processing (update r f st) = processing st.
Proof. apply (update_fields r f st). Qed.

Lemma update_storage r f st : storage (update r f st) = storage st.
Proof. apply (update_fields r f st). Qed.

Lemma update_passes r f st : passes (update r f st) = passes st.
Proof. apply (update_fields r f st). Qed.

Lemma update_sendLog r f st : sendLog (update r f st) = sendLog st.
Proof. apply (update_fields r f st). Qed.

Lemma removeById_heap cmd st : heap (removeById cmd st) = heap st.
Proof. apply (removeById_fields cmd st). Qed.

Lemma removeById_processing cmd st : processing (removeById cmd st) = processing st.
Proof. apply (removeById_fields cmd st). Qed.

Lemma removeById_storage cmd st : storage (removeById cmd st) = storage st.
Proof. apply (removeById_fields cmd st). Qed.

Lemma removeById_passes cmd st : passes (removeById cmd st) = passes st.
Proof. apply (removeById_fields cmd st). Qed.

Lemma removeById_sendLog cmd st : sendLog (removeById cmd st) = sendLog st.
Proof. apply (removeById_fields cmd st). Qed.

Lemma markSending_queue cmd st : queue (markSending cmd st) = queue st.
Proof. apply (markSending_fields cmd st). Qed.

Lemma markSending_processing cmd st : processing (markSending cmd st) = processing st.
Proof. apply (markSending_fields cmd st). Qed.

Lemma markSending_storage cmd st : storage (markSending cmd st) = storage st.
Proof. apply (markSending_fields cmd st). Qed.

Lemma markSending_passes cmd st : passes (markSending cmd st) = passes st.
Proof. apply (markSending_fields cmd st). Qed.

Lemma markSending_sendLog cmd st : sendLog (markSending cmd st) = sendLog st.
Proof. apply (markSending_fields cmd st). Qed.

Create Rewrite HintDb cq.
Hint Rewrite saveQueue_heap saveQueue_queue saveQueue_processing saveQueue_storage saveQueue_passes saveQueue_sendLog update_queue update_processing update_storage update_passes update_sendLog removeById_heap removeById_processing removeById_storage removeById_passes removeById_sendLog markSending_queue markSending_processing markSending_storage markSending_passes markSending_sendLog : cq.

(** *** A complete pass is a run of the transition system *)

Lemma set_passes_saveQueue ps st :
  saveQueue (set_passes ps st) = set_passes ps (saveQueue st).
Proof.
  unfold saveQueue, clearTimeout. destruct st as [h q p [t|] ts n sv sto l lg];
    reflexivity.
Qed.

Lemma set_passes_update ps r f st :
  update r f (set_passes ps st) = set_passes ps (update r f st).
Proof.
  unfold update. cbn. destruct (heap st !! r); reflexivity.
Qed.

Lemma set_passes_removeById ps cmd st :
  removeById cmd (set_passes ps st) = set_passes ps (removeById cmd st).
Proof. reflexivity. Qed.

Lemma set_passes_markSending ps cmd st :
  markSending cmd (set_passes ps st) = set_passes ps (markSending cmd st).
Proof.
  unfold markSending.
  rewrite !set_passes_update, set_passes_saveQueue. reflexivity.
Qed.

Lemma set_passes_drainLoop ps cmds : forall st,
  drainLoop cmds (set_passes ps st)
  = (fst (drainLoop cmds st), set_passes ps (snd (drainLoop cmds st))).
Proof.
  induction cmds as [|cmd rest IH]; intros st; cbn.
  - f_equal. apply (set_passes_saveQueue ps (set_processing false st)).
  - change (overLimit (set_passes ps st) cmd) with (overLimit st cmd).
    destruct (overLimit st cmd).
    + rewrite set_passes_removeById. apply IH.
    + cbn. rewrite set_passes_markSending. reflexivity.
Qed.

Lemma set_passes_id st : set_passes (passes st) st = st.
Proof. destruct st; reflexivity. Qed.

Lemma deliver_passes transport cmd st :
  passes (deliver transport cmd st) = passes st.
Proof.
  unfold deliver. destruct (transport cmd);
    autorewrite with cq; cbn; autorewrite with cq; reflexivity.
Qed.

Lemma drainAll_passes transport cmds : forall st,
  passes (drainAll transport cmds st) = passes st.
Proof.
  induction cmds as [|cmd rest IH]; intros st; cbn.
  - autorewrite with cq. reflexivity.
  - destruct (overLimit st cmd); rewrite IH.
    + autorewrite with cq. reflexivity.
    + apply deliver_passes.
Qed.

Lemma drainLoop_run transport cmds : forall st,
  passes st = [] ->
  exists es, run (spawn (drainLoop cmds st)) es = drainAll transport cmds st.
Proof.
  induction cmds as [|cmd rest IH]; intros st Hps; cbn.
  - exists []. reflexivity.
  - destruct (overLimit st cmd).
    + apply IH. autorewrite with cq. exact Hps.
    + cbn.
      pose proof (markSending_passes cmd st) as Hm.
      set (m := markSending cmd st) in *.
      set (st2 := set_sendLog (sendLog m ++ [cmd]) m).
      set (st3 := if transport cmd then removeById cmd st2
                  else update cmd (with_status failed) st2).
      change (deliver transport cmd st) with (saveQueue st3).
      assert (passes (saveQueue st3) = []) as Hps3.
      { subst st3. destruct (transport cmd); autorewrite with cq; cbn;
          congruence. }
      destruct (IH (saveQueue st3) Hps3) as [es Hes].
      exists (EvResume 0%nat :: EvSendResult 0%nat (transport cmd)
                :: EvResume 0%nat :: es).
      rewrite <- Hes. clear Hes.
      change (run ?s (?a :: ?b :: ?c :: es))
        with (run (step (step (step s a) b) c) es).
      f_equal.
      rewrite Hm, Hps. cbn.
      match goal with
      | |- resume 0 ?X = _ =>
          assert (X = set_passes [AwaitSaveSettled rest] (saveQueue st3))
            as ->
      end.
      { subst st3 st2. clearbody m. clear.
        unfold saveQueue, removeById, update, clearTimeout.
        destruct m as [h q p t ts n sv sto ps lg]; cbn.
        destruct (transport cmd); cbn;
          [|destruct (h !! cmd)]; destruct t; reflexivity. }
      cbn. unfold resume. cbn.
      rewrite set_passes_drainLoop.
      destruct (drainLoop_control rest (saveQueue st3)) as [Hc _].
      destruct (drainLoop rest (saveQueue st3)) as [[pc|] st']; cbn in *.
      * rewrite Hc, Hps3. reflexivity.
      * rewrite <- (set_passes_id st') at 2. rewrite Hc, Hps3. reflexivity.
Qed.

Lemma processQueueAll_run transport st :
  passes st = [] ->
  exists es, run st es = processQueueAll transport st.
Proof.
  intros Hps. unfold processQueueAll.
  destruct (processing st || bool_decide (queue st = [])) eqn:E.
  - exists []. reflexivity.
  - destruct (drainLoop_run transport
      (List.filter (refPending (set_processing true st))
         (queue (set_processing true st))) (set_processing true st) Hps)
      as [es Hes].
    exists (EvProcessQueue :: es). cbn. unfold processQueue.
    rewrite E. exact Hes.
Qed.

(** *** What one complete pass does to one command *)

Lemma saveQueue_deref st r : deref (saveQueue st) r = deref st r.
Proof. unfold deref. rewrite saveQueue_heap. reflexivity. Qed.

Lemma removeById_deref cmd st r : deref (removeById cmd st) r = deref st r.
Proof. reflexivity. Qed.

Lemma saveQueue_attempts st r : attempts (saveQueue st) r = attempts st r.
Proof. unfold attempts. rewrite saveQueue_sendLog. reflexivity. Qed.

Lemma update_attempts x f st r : attempts (update x f st) r = attempts st r.
Proof. unfold attempts. rewrite update_sendLog. reflexivity. Qed.

Lemma markSending_attempts x st r :
  attempts (markSending x st) r = attempts st r.
Proof. unfold attempts. rewrite markSending_sendLog. reflexivity. Qed.

Lemma logged_attempts st x r :
  attempts (set_sendLog (sendLog st ++ [x]) st) r
  = (attempts st r + (if decide (x = r) then 1 else 0))%nat.
Proof.
  unfold attempts. cbn. rewrite count_occ_app. cbn.
  destruct (Nat.eq_dec x r), (decide (x = r)); try contradiction; reflexivity.
Qed.

Hint Rewrite saveQueue_deref removeById_deref saveQueue_attempts
  update_attempts markSending_attempts : cq.

Arguments deliver : simpl never.

Definition delivered (ok : bool) (c : QueuedCommand) : QueuedCommand :=
  with_status (if ok then sending else failed)
    (with_retryCount (retryCount c + 1) c).

Lemma deliver_processing transport cmd st :
  processing (deliver transport cmd st) = processing st.
Proof.
  unfold deliver. destruct (transport cmd);
    autorewrite with cq; cbn; autorewrite with cq; reflexivity.
Qed.

Lemma deliver_storage transport cmd st :
  storage (deliver transport cmd st) = storage st.
Proof.
  unfold deliver. destruct (transport cmd);
    autorewrite with cq; cbn; autorewrite with cq; reflexivity.
Qed.

Lemma deliver_attempts transport cmd st r :
  attempts (deliver transport cmd st) r
  = (attempts st r + (if decide (cmd = r) then 1 else 0))%nat.
Proof.
  unfold deliver. rewrite saveQueue_attempts.
  destruct (transport cmd); [change (attempts (removeById ?c ?s) r)
                               with (attempts s r)
                            | rewrite update_attempts];
    rewrite logged_attempts, markSending_attempts; reflexivity.
Qed.

Lemma deliver_deref_ne transport cmd st r :
  cmd <> r -> deref (deliver transport cmd st) r = deref st r.
Proof.
  intros Hne. unfold deliver. rewrite saveQueue_deref.
  destruct (transport cmd);
    [rewrite removeById_deref | rewrite update_deref_ne by exact Hne];
    change (deref (set_sendLog ?l ?s) r) with (deref s r);
    apply markSending_deref_ne, Hne.
Qed.

Lemma deliver_deref_eq transport cmd st c :
  deref st cmd = Some c ->
  deref (deliver transport cmd st) cmd = Some (delivered (transport cmd) c).
Proof.
  intros Hc. apply markSending_deref_eq in Hc.
  unfold deliver. rewrite saveQueue_deref.
  destruct (transport cmd).
  - rewrite removeById_deref. exact Hc.
  - apply (update_deref_eq cmd (with_status failed)
             (set_sendLog (sendLog (markSending cmd st) ++ [cmd])
                (markSending cmd st))) in Hc.
    exact Hc.
Qed.

Lemma deliver_queue_failed transport cmd st :
  transport cmd = false -> queue (deliver transport cmd st) = queue st.
Proof.
  intros E. unfold deliver. rewrite E.
  autorewrite with cq. cbn. autorewrite with cq. reflexivity.
Qed.

Lemma deliver_queue_sent transport cmd st :
  transport cmd = true ->
  queue (deliver transport cmd st)
  = filter (fun r => (id <$> deref (markSending cmd st) r)
                     <> (id <$> deref (markSending cmd st) cmd)) (queue st).
Proof.
  intros E. unfold deliver. rewrite E.
  autorewrite with cq. rewrite removeById_queue. cbn.
  autorewrite with cq. reflexivity.
Qed.

Lemma deliver_queue transport cmd st x :
  x ∈ queue (deliver transport cmd st) -> x ∈ queue st.
Proof.
  destruct (transport cmd) eqn:E.
  - rewrite deliver_queue_sent by exact E.
    intros H. apply list_elem_of_filter in H. tauto.
  - rewrite deliver_queue_failed by exact E. auto.
Qed.

Lemma deliver_removes transport cmd st :
  transport cmd = true -> cmd ∉ queue (deliver transport cmd st).
Proof.
  intros E. rewrite deliver_queue_sent by exact E.
  intros H. apply list_elem_of_filter in H. destruct H as [H _].
  apply H. reflexivity.
Qed.

Lemma drainAll_queue transport cmds : forall st x,
  x ∈ queue (drainAll transport cmds st) -> x ∈ queue st.
Proof.
  induction cmds as [|cmd rest IH]; intros st x; cbn.
  - autorewrite with cq. auto.
  - destruct (overLimit st cmd); intros H; apply IH in H.
    + rewrite removeById_queue in H. apply list_elem_of_filter in H. tauto.
    + eapply deliver_queue, H.
Qed.

Lemma drainAll_processing transport cmds : forall st,
  processing (drainAll transport cmds st) = false.
Proof.
  induction cmds as [|cmd rest IH]; intros st; cbn.
  - autorewrite with cq. reflexivity.
  - destruct (overLimit st cmd); apply IH.
Qed.

(** Commands that are not in the snapshot are not touched. *)
Lemma drainAll_frame transport cmds : forall st r,
  r ∉ cmds ->
  deref (drainAll transport cmds st) r = deref st r /\
  attempts (drainAll transport cmds st) r = attempts st r.
Proof.
  induction cmds as [|cmd rest IH]; intros st r Hr; cbn.
  - autorewrite with cq. auto.
  - apply not_elem_of_cons in Hr. destruct Hr as [Hne Hr].
    destruct (overLimit st cmd).
    + destruct (IH (removeById cmd st) r Hr) as [-> ->]. auto.
    + destruct (IH (deliver transport cmd st) r Hr) as [-> ->].
      rewrite deliver_deref_ne, deliver_attempts by congruence.
      destruct (decide (cmd = r)); [congruence|]. split; [reflexivity|lia].
Qed.

(** The turn of a command in the snapshot. *)
Lemma drainAll_turn transport cmds : forall st r c,
  NoDup cmds -> r ∈ cmds -> deref st r = Some c ->
  let st' := drainAll transport cmds st in
  if MAX_RETRIES <=? retryCount c
  then (r ∉ queue st') /\ deref st' r = Some c /\
       attempts st' r = attempts st r
  else deref st' r = Some (delivered (transport r) c) /\
       attempts st' r = S (attempts st r) /\
       (transport r = true -> r ∉ queue st').
Proof.
  induction cmds as [|cmd rest IH]; intros st r c Hnd Hr Hc;
    [inversion Hr|].
  apply NoDup_cons in Hnd. destruct Hnd as [Hcmd Hnd].
  cbn. destruct (decide (r = cmd)) as [->|Hne].
  - (* the turn of [r] itself *)
    assert (overLimit st cmd = (MAX_RETRIES <=? retryCount c)) as ->
      by (unfold overLimit; rewrite Hc; reflexivity).
    destruct (MAX_RETRIES <=? retryCount c).
    + destruct (drainAll_frame transport rest (removeById cmd st) cmd Hcmd)
        as [-> ->].
      split; [|split; [exact Hc | reflexivity]].
      intros H. apply drainAll_queue in H. revert H.
      apply removeById_self. rewrite Hc. eauto.
    + destruct (drainAll_frame transport rest (deliver transport cmd st)
                  cmd Hcmd) as [-> ->].
      rewrite (deliver_deref_eq _ _ _ _ Hc), deliver_attempts.
      destruct (decide (cmd = cmd)); [|congruence].
      split; [reflexivity|]. split; [lia|].
      intros E H. apply drainAll_queue in H. revert H.
      apply deliver_removes, E.
  - (* another command is processed first *)
    apply elem_of_cons in Hr. destruct Hr as [Hr|Hr]; [congruence|].
    destruct (overLimit st cmd).
    + exact (IH (removeById cmd st) r c Hnd Hr Hc).
    + specialize (IH (deliver transport cmd st) r c Hnd Hr).
      rewrite deliver_deref_ne in IH by congruence.
      specialize (IH Hc). cbn in IH. rewrite deliver_attempts in IH.
      destruct (decide (cmd = r)); [congruence|].
      rewrite Nat.add_0_r in IH. exact IH.
Qed.

(** *** The queue holds distinct, allocated objects *)

Definition wf (st : State) : Prop :=
  NoDup (queue st) /\ Forall (fun r => (r < length (heap st))%nat) (queue st).

Lemma wf_frame st st' :
  queue st' = queue st -> length (heap st') = length (heap st) ->
  wf st -> wf st'.
Proof. unfold wf. intros -> ->. auto. Qed.

Lemma wf_removeById cmd st : wf st -> wf (removeById cmd st).
Proof.
  intros [Hnd Hb]. split.
  - rewrite removeById_queue. apply NoDup_filter, Hnd.
  - rewrite removeById_queue, removeById_heap.
    rewrite Forall_forall in *. intros r Hr.
    apply list_elem_of_filter in Hr. apply Hb, Hr.
Qed.

Lemma saveQueue_wf st : wf st -> wf (saveQueue st).
Proof. apply wf_frame; autorewrite with cq; reflexivity. Qed.

Lemma update_wf r f st : wf st -> wf (update r f st).
Proof.
  apply wf_frame; [apply update_queue | apply update_fields].
Qed.

Lemma markSending_wf cmd st : wf st -> wf (markSending cmd st).
Proof.
  apply wf_frame; [apply markSending_queue | apply markSending_fields].
Qed.

Lemma drainLoop_wf cmds : forall st, wf st -> wf (snd (drainLoop cmds st)).
Proof.
  induction cmds as [|cmd rest IH]; intros st H; cbn.
  - apply saveQueue_wf. exact H.
  - destruct (overLimit st cmd); cbn.
    + apply IH, wf_removeById, H.
    + apply markSending_wf, H.
Qed.

Lemma wf_step st e : wf st -> wf (step st e).
Proof.
  intros H. destruct e; cbn.
  - exact H.
  - unfold initAssign.
    destruct (loading st !! i) as [[l|]|], readOk; try exact H.
    split; cbn.
    + apply NoDup_seq.
    + apply Forall_forall. intros r Hr. apply list_elem_of_In, in_seq in Hr.
      rewrite length_app. lia.
  - apply saveQueue_wf. destruct H as [Hnd Hb]. split; cbn.
    + apply NoDup_app. split; [exact Hnd|]. split; [|apply NoDup_singleton].
      intros r Hr Hr'. apply list_elem_of_singleton in Hr'. subst r.
      rewrite Forall_forall in Hb. apply Hb in Hr. lia.
    + rewrite length_app. cbn. apply Forall_app. split.
      * eapply Forall_impl; [exact Hb|]. cbn. intros; lia.
      * constructor; [lia|constructor].
  - unfold processQueue.
    destruct (processing st || bool_decide (queue st = [])); [exact H|].
    pose proof (drainLoop_wf
      (List.filter (refPending (set_processing true st))
         (queue (set_processing true st))) (set_processing true st) H) as H'.
    destruct (drainLoop _ _) as [[pc|] st']; exact H'.
  - unfold resume.
    destruct (passes st !! i) as [[cmd rest|cmd rest|rest]|]; try exact H.
    pose proof (drainLoop_wf rest st H) as H'.
    destruct (drainLoop rest st) as [[pc|] st']; exact H'.
  - unfold sendResult.
    destruct (passes st !! i) as [[cmd rest|cmd rest|rest]|]; try exact H.
    eapply wf_frame; [reflexivity | reflexivity |].
    apply saveQueue_wf. destruct ok; [apply wf_removeById | apply update_wf];
      exact H.
  - destruct (clearQueue_fields writeOk st) as (Hh & Hq & _).
    split; rewrite Hq; constructor.
  - unfold timerFires. destruct (bool_decide (t ∈ timers st)); [|exact H].
    unfold setItem. destruct writeOk; exact H.
  - unfold saveDone. destruct (saving st); exact H.
  - split; constructor.
Qed.

Lemma wf_reachable st : reachable st -> wf st.
Proof.
  induction 1 as [|st e _ IH]; [split; constructor | apply wf_step, IH].
Qed.

Lemma reachable_quiet st :
  reachable st -> processing st = false -> passes st = [].
Proof.
  intros Hr Hp. apply exclusive_reachable in Hr. unfold exclusive in Hr.
  destruct (passes st) as [|pc [|pc' ps]];
    [reflexivity | congruence | contradiction].
Qed.

Lemma processQueueAll_reachable transport st :
  reachable st -> processing st = false ->
  reachable (processQueueAll transport st).
Proof.
  intros Hr Hp.
  destruct (processQueueAll_run transport st (reachable_quiet st Hr Hp))
    as [es <-].
  apply reachable_run, Hr.
Qed.

Lemma processQueueAll_processing transport st :
  processing st = false -> processing (processQueueAll transport st) = false.
Proof.
  intros Hp. unfold processQueueAll. rewrite Hp. cbn.
  destruct (bool_decide (queue st = [])); [exact Hp|].
  apply drainAll_processing.
Qed.

Lemma processQueueAll_queue transport st x :
  x ∈ queue (processQueueAll transport st) -> x ∈ queue st.
Proof.
  unfold processQueueAll.
  destruct (processing st || bool_decide (queue st = [])); [auto|].
  intros H. apply drainAll_queue in H. exact H.
Qed.

Lemma drainPasses_reachable transport n st :
  reachable st -> processing st = false ->
  reachable (drainPasses transport n st) /\
  processing (drainPasses transport n st) = false.
Proof.
  intros Hr Hp. induction n as [|n [IHr IHp]]; cbn; [auto|].
  split; [apply processQueueAll_reachable | apply processQueueAll_processing];
    assumption.
Qed.

(** *** One pass, then several *)

Lemma pass_turn transport st r c :
  wf st -> processing st = false ->
  r ∈ queue st -> deref st r = Some c -> isPending c = true ->
  let st' := processQueueAll transport st in
  if MAX_RETRIES <=? retryCount c
  then (r ∉ queue st') /\ deref st' r = Some c /\
       attempts st' r = attempts st r
  else deref st' r = Some (delivered (transport r) c) /\
       attempts st' r = S (attempts st r) /\
       (transport r = true -> r ∉ queue st').
Proof.
  intros [Hnd _] Hp Hr Hc Hpend. unfold processQueueAll. rewrite Hp. cbn.
  rewrite bool_decide_eq_false_2
    by (intros E; rewrite E in Hr; inversion Hr).
  apply (drainAll_turn transport _ (set_processing true st) r c).
  - apply NoDup_ListNoDup, List.NoDup_filter, NoDup_ListNoDup, Hnd.
  - apply list_elem_of_In, filter_In. split; [apply list_elem_of_In, Hr|].
    unfold refPending. change (deref (set_processing true st) r)
      with (deref st r). rewrite Hc. exact Hpend.
  - exact Hc.
Qed.

Lemma pass_absent transport st r :
  r ∉ queue st ->
  let st' := processQueueAll transport st in
  (r ∉ queue st') /\ deref st' r = deref st r /\
  attempts st' r = attempts st r.
Proof.
  intros Hr. cbn. split.
  - intros H. apply Hr. eapply processQueueAll_queue, H.
  - unfold processQueueAll.
    destruct (processing st || bool_decide (queue st = [])); [auto|].
    apply (drainAll_frame transport _ (set_processing true st) r).
    intros H. apply list_elem_of_In, filter_In in H. destruct H as [H _].
    apply Hr, list_elem_of_In, H.
Qed.

(** Where the command [r], first seen with record [c] and [a] attempts,
    stands after [k] passes: out of the queue, or retried [k] times. *)
Definition progress (r : ref) (c : QueuedCommand) (a k : nat)
    (st : State) : Prop :=
  ((r ∉ queue st) /\
   Z.of_nat (attempts st r) <= Z.of_nat a + (MAX_RETRIES - retryCount c)) \/
  (r ∈ queue st /\
   exists c', deref st r = Some c' /\ isPending c' = true /\
              (k = 0%nat \/ status c' = failed) /\
              retryCount c' = retryCount c + Z.of_nat k /\
              attempts st r = (a + k)%nat).

Lemma retryCount_reachable st r c :
  reachable st -> r ∈ queue st -> deref st r = Some c ->
  0 <= retryCount c <= MAX_RETRIES.
Proof.
  intros Hr Hq Hc.
  apply (everywhere_queued (fun c => 0 <= retryCount c <= MAX_RETRIES))
    with st; try assumption; unfold MAX_RETRIES; simpl; intros; try lia.
  apply list_elem_of_omap. exists r. auto.
Qed.

Lemma progress_pass transport r c a k st :
  reachable st -> processing st = false -> 0 <= retryCount c ->
  progress r c a k st ->
  progress r c a (S k) (processQueueAll transport st).
Proof.
  intros Hr Hp H0 [[Hq Ha]|(Hq & c' & Hc' & Hpend & _ & Hrc & Ha)].
  - left. destruct (pass_absent transport st r Hq) as (Hq' & _ & ->).
    auto.
  - pose proof (retryCount_reachable st r c' Hr Hq Hc') as Hb.
    pose proof (pass_turn transport st r c' (wf_reachable st Hr) Hp Hq Hc'
                  Hpend) as Ht.
    cbn in Ht. destruct (MAX_RETRIES <=? retryCount c') eqn:Hlim.
    + destruct Ht as (Hq' & _ & Ha'). left. split; [exact Hq'|].
      rewrite Ha', Ha. lia.
    + apply Z.leb_gt in Hlim. destruct Ht as (Hd & Ha' & Hok).
      destruct (decide (r ∈ queue (processQueueAll transport st)))
        as [Hin|Hout].
      * right. split; [exact Hin|].
        exists (delivered (transport r) c'). split; [exact Hd|].
        destruct (transport r) eqn:E; [exfalso; apply Hok; auto|].
        split; [reflexivity|]. split; [right; reflexivity|].
        split; [cbn; lia|]. rewrite Ha', Ha. lia.
      * left. split; [exact Hout|]. rewrite Ha', Ha. lia.
Qed.

Lemma progress_passes transport r c st n :
  reachable st -> processing st = false ->
  r ∈ queue st -> deref st r = Some c -> isPending c = true ->
  progress r c (attempts st r) n (drainPasses transport n st).
Proof.
  intros Hr Hp Hq Hc Hpend.
  pose proof (retryCount_reachable st r c Hr Hq Hc) as Hb.
  induction n as [|n IH]; cbn.
  - right. split; [exact Hq|]. exists c. repeat split; auto; lia.
  - destruct (drainPasses_reachable transport n st Hr Hp) as [Hr' Hp'].
    apply progress_pass; try assumption. lia.
Qed.

(** *** Commands whose id no other queued command shares *)

Definition idOf (st : State) (r : ref) : option string :=
  id <$> deref st r.

Definition uniqueId (st : State) (r : ref) : Prop :=
  forall x, x ∈ queue st -> x <> r -> idOf st x <> idOf st r.

Lemma markSending_idOf cmd st x :
  idOf (markSending cmd st) x = idOf st x.
Proof.
  unfold idOf. destruct (decide (cmd = x)) as [->|Hne].
  - destruct (deref st x) as [c|] eqn:E.
    + rewrite (markSending_deref_eq _ _ _ E). reflexivity.
    + unfold markSending. rewrite saveQueue_deref.
      rewrite (update_deref_None x (with_status sending) st E).
      rewrite (update_deref_None x _ st E). rewrite E. reflexivity.
  - rewrite markSending_deref_ne by exact Hne. reflexivity.
Qed.

Lemma update_idOf r f st x :
  (forall c, id (f c) = id c) -> idOf (update r f st) x = idOf st x.
Proof.
  intros Hf. unfold idOf. destruct (decide (r = x)) as [->|Hne].
  - destruct (deref st x) as [c|] eqn:E.
    + rewrite (update_deref_eq _ _ _ _ E). cbn. rewrite Hf. reflexivity.
    + rewrite (update_deref_None x f st E), E. reflexivity.
  - rewrite update_deref_ne by exact Hne. reflexivity.
Qed.

Lemma deliver_idOf transport cmd st x :
  idOf (deliver transport cmd st) x = idOf st x.
Proof.
  unfold deliver. unfold idOf at 1. rewrite saveQueue_deref.
  destruct (transport cmd).
  - rewrite removeById_deref. apply markSending_idOf.
  - fold (idOf (update cmd (with_status failed)
                  (set_sendLog (sendLog (markSending cmd st) ++ [cmd])
                     (markSending cmd st))) x).
    rewrite update_idOf by reflexivity. apply markSending_idOf.
Qed.

Lemma drainAll_idOf transport cmds : forall st x,
  idOf (drainAll transport cmds st) x = idOf st x.
Proof.
  induction cmds as [|cmd rest IH]; intros st x; cbn.
  - unfold idOf. rewrite saveQueue_deref. reflexivity.
  - destruct (overLimit st cmd); rewrite IH;
      [reflexivity | apply deliver_idOf].
Qed.

Lemma overLimit_deref st st' r :
  deref st' r = deref st r -> overLimit st' r = overLimit st r.
Proof. unfold overLimit. intros ->. reflexivity. Qed.

(** A command that fails below the ceiling, and whose id no command of
    the snapshot shares, is still in the queue when the pass ends. *)
Lemma drainAll_keeps transport cmds : forall st r,
  NoDup cmds -> r ∈ queue st ->
  (forall x, x ∈ cmds -> x <> r -> idOf st x <> idOf st r) ->
  (r ∈ cmds -> transport r = false /\ overLimit st r = false) ->
  r ∈ queue (drainAll transport cmds st).
Proof.
  induction cmds as [|cmd rest IH]; intros st r Hnd Hq Hid Hr; cbn.
  - autorewrite with cq. exact Hq.
  - apply NoDup_cons in Hnd. destruct Hnd as [Hcmd Hnd].
    destruct (decide (cmd = r)) as [->|Hne].
    + destruct Hr as [Ht Hl]; [left|]. rewrite Hl.
      apply IH; auto.
      * rewrite deliver_queue_failed by exact Ht. exact Hq.
      * intros x Hx Hxr. rewrite !deliver_idOf. apply Hid; [right|]; auto.
      * intros H. contradiction.
    + assert (idOf st cmd <> idOf st r) as Hcr by (apply Hid; [left|]; auto).
      destruct (overLimit st cmd).
      * apply IH; auto.
        -- rewrite removeById_queue. apply list_elem_of_filter.
           split; [|exact Hq]. intros E. apply Hcr. symmetry. exact E.
        -- intros x Hx Hxr. apply Hid; [right|]; auto.
        -- intros H. apply Hr. right. exact H.
      * apply IH; auto.
        -- destruct (transport cmd) eqn:Ht.
           ++ rewrite deliver_queue_sent by exact Ht.
              apply list_elem_of_filter. split; [|exact Hq].
              fold (idOf (markSending cmd st) r).
              fold (idOf (markSending cmd st) cmd).
              rewrite !markSending_idOf. congruence.
           ++ rewrite deliver_queue_failed by exact Ht. exact Hq.
        -- intros x Hx Hxr. rewrite !deliver_idOf. apply Hid; [right|]; auto.
        -- intros H. destruct Hr as [Ht Hl]; [right; exact H|].
           split; [exact Ht|]. rewrite <- Hl. apply overLimit_deref.
           apply deliver_deref_ne, Hne.
Qed.

Lemma pass_keeps transport st r :
  wf st -> r ∈ queue st -> uniqueId st r ->
  transport r = false -> overLimit st r = false ->
  r ∈ queue (processQueueAll transport st).
Proof.
  intros [Hnd _] Hq Hu Ht Hl. unfold processQueueAll.
  destruct (processing st || bool_decide (queue st = [])); [exact Hq|].
  apply drainAll_keeps; auto.
  - apply NoDup_ListNoDup, List.NoDup_filter, NoDup_ListNoDup, Hnd.
  - intros x Hx Hxr. apply Hu; [|exact Hxr].
    apply list_elem_of_In, filter_In in Hx. apply list_elem_of_In, Hx.
Qed.

Lemma pass_uniqueId transport st r :
  uniqueId st r -> uniqueId (processQueueAll transport st) r.
Proof.
  intros Hu x Hx Hxr. apply processQueueAll_queue in Hx.
  unfold processQueueAll.
  destruct (processing st || bool_decide (queue st = []));
    [apply Hu; auto|].
  rewrite !drainAll_idOf. apply Hu; auto.
Qed.

Lemma passes_uniqueId transport st r n :
  uniqueId st r -> uniqueId (drainPasses transport n st) r.
Proof.
  intros Hu. induction n as [|n IH]; cbn; [exact Hu|].
  apply pass_uniqueId, IH.
Qed.

(** With a failing transport such a command is retried pass after pass
    until its counter reaches the ceiling. *)
Lemma failing_passes transport st r c n :
  reachable st -> processing st = false ->
  r ∈ queue st -> deref st r = Some c -> isPending c = true ->
  uniqueId st r -> (forall k, transport k r = false) ->
  retryCount c + Z.of_nat n <= MAX_RETRIES ->
  r ∈ queue (drainPasses transport n st) /\
  exists c', deref (drainPasses transport n st) r = Some c' /\
             isPending c' = true /\
             (n = 0%nat \/ status c' = failed) /\
             retryCount c' = retryCount c + Z.of_nat n /\
             attempts (drainPasses transport n st) r
             = (attempts st r + n)%nat.
Proof.
  intros Hr Hp Hq Hc Hpend Hu Hfail.
  induction n as [|n IH]; intros Hn.
  - cbn. split; [exact Hq|]. exists c. repeat split; auto; lia.
  - destruct IH as (Hq' & c' & Hc' & Hpend' & _ & Hrc' & Ha'); [lia|].
    destruct (drainPasses_reachable transport n st Hr Hp) as [Hr' Hp'].
    assert (r ∈ queue (drainPasses transport (S n) st)) as Hin.
    { cbn. apply pass_keeps; auto.
      - apply wf_reachable, Hr'.
      - apply passes_uniqueId, Hu.
      - unfold overLimit. rewrite Hc'. lia. }
    split; [exact Hin|].
    destruct (progress_passes transport r c st (S n) Hr Hp Hq Hc Hpend)
      as [[Hout _]|(_ & H)]; [contradiction | exact H].
Qed.

Lemma absent_passes transport st r n j :
  r ∉ queue (drainPasses transport n st) ->
  (r ∉ queue (drainPasses transport (n + j) st)) /\
  attempts (drainPasses transport (n + j) st) r
  = attempts (drainPasses transport n st) r.
Proof.
  intros Hq. induction j as [|j [IHq IHa]].
  - rewrite Nat.add_0_r. auto.
  - rewrite Nat.add_succ_r. cbn.
    destruct (pass_absent (transport (n + j)%nat)
                (drainPasses transport (n + j) st) r IHq) as (Hq' & _ & Ha').
    split; [exact Hq' | congruence].
Qed.

(** *** A sample run, used to instantiate the statements below *)

Definition sampleRun : list Event :=
  [EvAddCommand 1700000000000 1700000000000 "0.25" "D1" "ARM" None;
   EvProcessQueue;
   EvResume 0%nat; EvSendResult 0%nat false].

Definition sampleState : State := run initial sampleRun.

Definition sampleCommand : QueuedCommand :=
  mkCommand "1700000000000-0.25" "D1" "ARM" None 1700000000000 1 failed.

Lemma sampleState_reachable : reachable sampleState.
Proof. apply reachable_run, reach_initial. Qed.

Lemma sampleCommand_queued : sampleCommand ∈ getQueuedCommands sampleState.
Proof. vm_compute. apply list_elem_of_here. Qed.

(** *** Statements of the design document *)

(** C10. No command held in the queue ever has status [success]: the
    value is declared but never assigned, a delivered command is removed
    instead; [getQueuedCommands] shows only [pending], [sending] and
    [failed]. *)
Theorem success_never_stored st c :
  reachable st -> c ∈ getQueuedCommands st ->
  status c = pending \/ status c = sending \/ status c = failed.
Proof.
  intros Hr Hc.
  assert (status c <> success) as H.
  { apply (everywhere_queued (fun c => status c <> success)) with st;
      try assumption; intros; simpl; congruence. }
  destruct (status c); auto; congruence.
Qed.

Lemma success_never_stored_witness :
  status sampleCommand = pending \/ status sampleCommand = sending \/
  status sampleCommand = failed.
Proof.
  apply (success_never_stored sampleState sampleCommand).
  - apply sampleState_reachable.
  - apply sampleCommand_queued.
Defined.

(** Three passes, each run to its end, in which [ARM] is sent and the
    send fails. *)
Definition limitState : State :=
  run initial
    [EvAddCommand 1700000000000 1700000000000 "0.25" "D1" "ARM" None;
     EvProcessQueue; EvResume 0%nat; EvSendResult 0%nat false; EvResume 0%nat;
     EvProcessQueue; EvResume 0%nat; EvSendResult 0%nat false; EvResume 0%nat;
     EvProcessQueue; EvResume 0%nat; EvSendResult 0%nat false; EvResume 0%nat].

Lemma limitState_reachable : reachable limitState.
Proof. apply reachable_run, reach_initial. Qed.

(** The process stops while [ARM] is being sent for the third time,
    after the debounced write, and is started again. *)
Definition stoppedAtLimit : State :=
  run initial
    [EvAddCommand 1700000000000 1700000000000 "0.25" "D1" "ARM" None;
     EvProcessQueue; EvResume 0%nat; EvSendResult 0%nat false; EvResume 0%nat;
     EvProcessQueue; EvResume 0%nat; EvSendResult 0%nat false; EvResume 0%nat;
     EvProcessQueue; EvResume 0%nat; EvTimer 7%nat true;
     EvRestart; EvInit; EvInitDone 0%nat true].

(** C8, as stated, fails: an entry whose counter has reached the maximum
    is not removed then.  After the third failed attempt the entry is in
    the queue with [retryCount] 3, no pass being active.  And an entry
    that was being sent for the third time when the process stopped is
    loaded again with [retryCount] 3 and status [sending], and is still
    in the queue after fifty further passes. *)
Lemma entry_at_the_maximum_stays_queued :
  processing limitState = false /\ passes limitState = [] /\
  getQueuedCommands limitState
  = [mkCommand "1700000000000-0.25" "D1" "ARM" None 1700000000000 3 failed]
  /\
  getQueuedCommands stoppedAtLimit
  = [mkCommand "1700000000000-0.25" "D1" "ARM" None 1700000000000 3 sending]
  /\
  getQueuedCommands (drainPasses (fun _ _ => true) 50 stoppedAtLimit)
  = [mkCommand "1700000000000-0.25" "D1" "ARM" None 1700000000000 3 sending].
Proof. vm_compute. repeat split. Qed.

(** C8, amended.  In every reachable state the retry counter of a queued
    command is between 0 and [MAX_RETRIES]; a new command starts at 0;
    the counter is incremented before the delivery attempt (the call of
    [sendCommand] is only made when the pass resumes), and only while it
    is below the maximum.  An entry at the maximum is not removed when
    it gets there: a [pending] or [failed] entry at the maximum is
    removed by the next pass, which does not send it. *)
Theorem retryCount_bounded st :
  reachable st ->
  (forall c, c ∈ getQueuedCommands st -> 0 <= retryCount c <= MAX_RETRIES) /\
  (forall now now' rnd d k v,
     let st' := snd (addCommand now now' rnd d k v st) in
     queue st' = queue st ++ [length (heap st)] /\
     exists c, deref st' (length (heap st)) = Some c /\
               retryCount c = 0 /\ status c = pending) /\
  (forall cmd rest c,
     overLimit st cmd = false -> deref st cmd = Some c ->
     let st' := snd (drainLoop (cmd :: rest) st) in
     retryCount c < MAX_RETRIES /\
     fst (drainLoop (cmd :: rest) st) = Some (AwaitSaveSending cmd rest) /\
     sendLog st' = sendLog st /\
     deref st' cmd
     = Some (with_retryCount (retryCount c + 1) (with_status sending c)) /\
     sendLog (resume (length (passes st)) (spawn (drainLoop (cmd :: rest) st)))
     = sendLog st ++ [cmd]) /\
  (forall transport r c,
     processing st = false ->
     r ∈ queue st -> deref st r = Some c -> isPending c = true ->
     retryCount c = MAX_RETRIES ->
     let st' := processQueueAll transport st in
     (r ∉ queue st') /\ attempts st' r = attempts st r /\
     deref st' r = Some c).
Proof.
  intros Hr. split; [|split; [|split]].
  - intros c Hc.
    apply (everywhere_queued (fun c => 0 <= retryCount c <= MAX_RETRIES))
      with st; try assumption; unfold MAX_RETRIES; simpl; intros; lia.
  - intros now now' rnd d k v. cbn.
    destruct (saveQueue_fields
      (set_queue (queue st ++ [length (heap st)])
         (set_heap (heap st ++
            [mkCommand (showZ now ++ "-" ++ rnd) d k v now' 0 pending]) st)))
      as (Hh & Hq & _).
    split; [rewrite Hq; reflexivity|].
    eexists. unfold deref. rewrite Hh. cbn.
    rewrite lookup_app_r by lia. rewrite Nat.sub_diag. cbn. eauto.
  - intros cmd rest c Hlim Hc. cbn. rewrite Hlim. cbn.
    destruct (markSending_fields cmd st) as (_ & _ & _ & Hps & Hlog & _).
    split; [eapply overLimit_false; eauto|].
    split; [reflexivity|]. split; [exact Hlog|].
    split; [apply markSending_deref_eq, Hc|].
    unfold resume. cbn. rewrite Hps.
    rewrite lookup_app_r by lia. rewrite Nat.sub_diag. cbn.
    rewrite Hlog. reflexivity.
  - intros transport r c Hp Hq Hc Hpend Hmax.
    pose proof (pass_turn transport st r c (wf_reachable st Hr) Hp Hq Hc Hpend)
      as H.
    cbn zeta in *. rewrite Hmax in H.
    change (MAX_RETRIES <=? MAX_RETRIES) with true in H.
    destruct H as (H1 & H2 & H3). auto.
Qed.

Lemma retryCount_bounded_witness :
  (0 <= retryCount sampleCommand <= MAX_RETRIES) /\
  (0%nat ∉ queue (processQueueAll (fun _ => true) limitState)).
Proof.
  split.
  - apply (retryCount_bounded sampleState sampleState_reachable).
    apply sampleCommand_queued.
  - destruct (retryCount_bounded limitState limitState_reachable)
      as (_ & _ & _ & H).
    apply (H (fun _ => true) 0%nat
             (mkCommand "1700000000000-0.25" "D1" "ARM" None 1700000000000
                3 failed)); reflexivity || apply list_elem_of_here.
Defined.

(** C9. At most one drain pass is active at a time.  In every reachable
    state at most one invocation of [processQueue] is suspended, and the
    flag [processing] is up exactly while there is one: it is raised in
    the synchronous segment that starts the pass and lowered by the
    segment that ends it.  A call of [processQueue] made while the flag
    is up returns at once and changes nothing. *)
Theorem drain_is_exclusive st :
  reachable st ->
  (length (passes st) <= 1)%nat /\
  (processing st = true <-> passes st <> []) /\
  (processing st = true -> processQueue st = st) /\
  (passes (processQueue st) <> [] -> processing (processQueue st) = true).
Proof.
  intros Hr.
  assert (exclusive (processQueue st)) as Hn
    by (apply (exclusive_step st EvProcessQueue), exclusive_reachable, Hr).
  apply exclusive_reachable in Hr. unfold exclusive in *.
  split; [|split; [|split]].
  - destruct (passes st) as [|pc [|pc' ps]]; simpl; [lia | lia | contradiction].
  - destruct (passes st) as [|pc [|pc' ps]]; [| |contradiction];
      rewrite Hr; split; congruence.
  - intros Hp. unfold processQueue. rewrite Hp. reflexivity.
  - destruct (passes (processQueue st)) as [|pc [|pc' ps]];
      [congruence | auto | contradiction].
Qed.

Lemma drain_is_exclusive_witness :
  (length (passes sampleState) <= 1)%nat /\
  processQueue sampleState = sampleState.
Proof.
  destruct (drain_is_exclusive sampleState sampleState_reachable)
    as (H1 & _ & H3 & _).
  split; [exact H1 | apply H3; reflexivity].
Defined.

(** *** Clearing the queue *)

Definition isTimerEvent (e : Event) : Prop :=
  match e with
  | EvTimer _ _ | EvSaveDone => True
  | _ => False
  end.

Lemma cleared_timer st e :
  isTimerEvent e -> queue st = [] -> storage st = Some [] ->
  queue (step st e) = [] /\ storage (step st e) = Some [].
Proof.
  destruct e; try contradiction; intros _ Hq Hs; simpl.
  - unfold timerFires. destruct (bool_decide (t ∈ timers st)); [|auto].
    unfold setItem, snapshot. destruct writeOk; simpl; rewrite ?Hq; auto.
  - unfold saveDone. destruct (saving st); simpl; auto.
Qed.

Lemma cleared_timers es : forall st,
  Forall isTimerEvent es -> queue st = [] -> storage st = Some [] ->
  queue (run st es) = [] /\ storage (run st es) = Some [].
Proof.
  induction es as [|e es IH]; intros st Hes Hq Hs; simpl; [auto|].
  inversion Hes; subst.
  destruct (cleared_timer st e) as [Hq' Hs']; auto.
Qed.

(** The scenario of the design document: [ARM] is enqueued for [D1] and
    the network is down. *)
Definition armQueued : State :=
  snd (addCommand 1700000000000 1700000000000 "0.25" "D1" "ARM" None initial).

Definition armCommand : QueuedCommand :=
  mkCommand "1700000000000-0.25" "D1" "ARM" None 1700000000000 0 pending.

(** The timer of [ARM] fires and awaits its [setItem]; a second command
    is enqueued meanwhile, which starts timer 1; then the first callback
    goes on after its [await] and sets [saveTimeout] to [null] (line
    131), which by then holds the handle of timer 1. *)
Definition orphan : State :=
  run armQueued
    [EvTimer 0%nat true;
     EvAddCommand 1700000000500 1700000000500 "0.75" "D1" "DISARM" None;
     EvSaveDone].

(** C4, as stated, fails in two ways.  A debounced save can be pending
    that [clearQueue] does not cancel: in [orphan] timer 1 is pending
    and [saveTimeout] is [null], so [clearQueue] has no handle to clear
    and the timer is still pending when it returns.  And the write can
    be rejected: the rejection is caught (line 147), the store keeps the
    queue it held, and a process started right then loads it. *)
Lemma clearQueue_can_leave_a_timer_or_the_store :
  saveTimeout orphan = None /\ timers orphan = [1%nat] /\
  timers (clearQueue true orphan) = [1%nat] /\
  storage (clearQueue false orphan) = Some [armCommand] /\
  getQueuedCommands
    (run (clearQueue false orphan) [EvRestart; EvInit; EvInitDone 0%nat true])
  = [armCommand] /\
  getQueuedCommands
    (run (clearQueue false orphan) [EvRestart; EvInit; EvInitDone 0%nat true])
  <> [].
Proof. vm_compute. repeat split; discriminate. Qed.

(** C4, amended.  When [clearQueue] returns the queue in memory is
    empty, [saveTimeout] is [null] and the timer it held is cancelled.
    [clearQueue] issues the write of the empty queue itself, not through
    the debounce timer.  When the store accepts the write it holds the
    empty queue: a process that is started again right then loads an
    empty queue, and so does one started after timers that were still
    due have fired, since a timer writes the queue as it is when it
    fires.  When the store rejects the write it keeps what it held. *)
Theorem clearQueue_is_durable ok st :
  let st' := clearQueue ok st in
  getQueuedCommands st' = [] /\
  saveTimeout st' = None /\
  (forall t, saveTimeout st = Some t -> t ∉ timers st') /\
  storage st' = (if ok then Some [] else storage st) /\
  (ok = true ->
   getQueuedCommands (run st' [EvRestart; EvInit; EvInitDone 0%nat true])
   = [] /\
   forall es, Forall isTimerEvent es ->
     getQueuedCommands
       (run (run st' es) [EvRestart; EvInit; EvInitDone 0%nat true]) = []).
Proof.
  intros st'.
  destruct (clearQueue_fields ok st)
    as (Hh & Hq & _ & Ht & Hs & _ & _ & Hts).
  fold st' in Hh, Hq, Ht, Hs, Hts.
  assert (forall s, storage s = Some [] ->
            getQueuedCommands (run s [EvRestart; EvInit; EvInitDone 0%nat true])
            = []) as Hre.
  { intros s E.
    change (run s [EvRestart; EvInit; EvInitDone 0%nat true])
      with (init true (restart s)).
    rewrite init_uninterrupted.
    change (storage (restart s)) with (storage s). rewrite E. reflexivity. }
  split; [unfold getQueuedCommands, snapshot; rewrite Hq; reflexivity|].
  split; [exact Ht|]. split; [|split; [exact Hs|]].
  - intros t E Hin. rewrite Hts, E in Hin.
    apply list_elem_of_In, filter_In in Hin. destruct Hin as [_ Hin].
    rewrite Nat.eqb_refl in Hin. discriminate.
  - intros ->. split; [apply Hre, Hs|].
    intros es Hes. apply Hre. apply cleared_timers; assumption.
Qed.

Definition offline : nat -> ref -> bool := fun _ _ => false.

(** C2, as stated, fails: after three failed attempts (three passes, each
    run to its end) the command is still what [getQueuedCommands]
    returns, with status [failed] and [retryCount] 3. *)
Lemma three_failures_still_queued :
  sendLog limitState = [0%nat; 0%nat; 0%nat] /\
  passes limitState = [] /\
  getQueuedCommands limitState
  = [mkCommand "1700000000000-0.25" "D1" "ARM" None 1700000000000 3 failed] /\
  ~ (getQueuedCommands limitState = []).
Proof. vm_compute. repeat split; discriminate. Qed.

(** C2, amended.  Take a command that is queued with status [pending] or
    [failed] while no pass is active, and run [MAX_RETRIES + 1] passes to
    their ends, against any transport.  Then the command has left the
    queue, and [sendCommand] was called for it at most
    [MAX_RETRIES - retryCount] times.  If moreover every attempt fails
    and no other queued command has the same id, then after each of the
    first [MAX_RETRIES - retryCount] passes the command is still queued,
    with status [failed], one more retry and one more attempt; the pass
    that follows removes it without an attempt, so that it is dropped
    after exactly [MAX_RETRIES - retryCount] failed attempts. *)
Theorem drain_retries transport st r c :
  reachable st -> processing st = false ->
  r ∈ queue st -> deref st r = Some c -> isPending c = true ->
  let final := drainPasses transport (S (Z.to_nat MAX_RETRIES)) st in
  (r ∉ queue final) /\
  Z.of_nat (attempts final r)
  <= Z.of_nat (attempts st r) + (MAX_RETRIES - retryCount c) /\
  ((forall k, transport k r = false) -> uniqueId st r ->
   (forall n, (1 <= n)%nat -> retryCount c + Z.of_nat n <= MAX_RETRIES ->
      let st' := drainPasses transport n st in
      r ∈ queue st' /\
      exists c', deref st' r = Some c' /\ status c' = failed /\
                 retryCount c' = retryCount c + Z.of_nat n /\
                 attempts st' r = (attempts st r + n)%nat) /\
   Z.of_nat (attempts final r)
   = Z.of_nat (attempts st r) + (MAX_RETRIES - retryCount c)).
Proof.
  intros Hr Hp Hq Hc Hpend final.
  pose proof (retryCount_reachable st r c Hr Hq Hc) as Hb.
  assert ((r ∉ queue final) /\
          Z.of_nat (attempts final r)
          <= Z.of_nat (attempts st r) + (MAX_RETRIES - retryCount c))
    as [Hout Hle].
  { destruct (progress_passes transport r c st (S (Z.to_nat MAX_RETRIES))
                Hr Hp Hq Hc Hpend)
      as [H|(Hin & c' & Hc' & _ & _ & Hrc' & _)]; [exact H|].
    destruct (drainPasses_reachable transport (S (Z.to_nat MAX_RETRIES)) st
                Hr Hp) as [Hr' _].
    pose proof (retryCount_reachable _ r c' Hr' Hin Hc') as Hb'.
    unfold MAX_RETRIES in *. lia. }
  split; [exact Hout|]. split; [exact Hle|].
  intros Hfail Hu. split.
  - intros n Hn Hrc st'.
    destruct (failing_passes transport st r c n Hr Hp Hq Hc Hpend Hu Hfail
                Hrc) as (Hin & c' & Hc' & _ & [->|Hs] & Hrc' & Ha);
      [lia|].
    split; [exact Hin|]. exists c'. auto.
  - set (m := Z.to_nat (MAX_RETRIES - retryCount c)).
    assert (retryCount c + Z.of_nat m <= MAX_RETRIES) as Hm
      by (unfold m; lia).
    destruct (failing_passes transport st r c m Hr Hp Hq Hc Hpend Hu Hfail
                Hm) as (Hin & c' & Hc' & Hpend' & _ & Hrc' & Ha).
    destruct (drainPasses_reachable transport m st Hr Hp) as [Hr' Hp'].
    pose proof (pass_turn (transport m) _ r c' (wf_reachable _ Hr') Hp' Hin
                  Hc' Hpend') as Ht.
    cbn in Ht.
    assert ((MAX_RETRIES <=? retryCount c') = true) as E
      by (apply Z.leb_le; unfold m in Hrc'; lia).
    rewrite E in Ht. destruct Ht as (Hq' & _ & Ha').
    change (processQueueAll (transport m) (drainPasses transport m st))
      with (drainPasses transport (S m) st) in Hq', Ha'.
    destruct (absent_passes transport st r (S m)
                (Z.to_nat MAX_RETRIES - m) Hq') as [_ Hfin].
    replace (S m + (Z.to_nat MAX_RETRIES - m))%nat
      with (S (Z.to_nat MAX_RETRIES)) in Hfin
      by (unfold m, MAX_RETRIES in *; lia).
    fold final in Hfin. rewrite Hfin, Ha', Ha.
    unfold m. lia.
Qed.

Lemma armQueued_reachable : reachable armQueued.
Proof.
  apply (reach_step initial
           (EvAddCommand 1700000000000 1700000000000 "0.25" "D1" "ARM" None)).
  apply reach_initial.
Qed.

Lemma armQueued_uniqueId : uniqueId armQueued 0%nat.
Proof.
  intros x Hx Hne. apply list_elem_of_singleton in Hx. contradiction.
Qed.

Lemma drain_retries_witness :
  (0%nat ∉ queue (drainPasses offline 4 armQueued)) /\
  (0%nat ∈ queue (drainPasses offline 3 armQueued)) /\
  (0%nat ∈ queue (drainPasses offline 1 armQueued)) /\
  Z.of_nat (attempts (drainPasses offline 4 armQueued) 0%nat) = 3.
Proof.
  destruct (drain_retries offline armQueued 0%nat armCommand) as (H1 & _ & H3).
  - apply armQueued_reachable.
  - reflexivity.
  - apply list_elem_of_here.
  - reflexivity.
  - reflexivity.
  - destruct H3 as [Hn Hx].
    + reflexivity.
    + apply armQueued_uniqueId.
    + split; [exact H1|]. split; [|split; [|exact Hx]].
      * apply (Hn 3%nat); [lia | vm_compute; discriminate].
      * apply (Hn 1%nat); [lia | vm_compute; discriminate].
Defined.

(** *** Further properties of the queue *)

(** A pass does not touch a command that is not in its snapshot. *)
Lemma pass_frame transport st r :
  refPending st r = false ->
  deref (processQueueAll transport st) r = deref st r /\
  attempts (processQueueAll transport st) r = attempts st r.
Proof.
  intros Hr. unfold processQueueAll.
  destruct (processing st || bool_decide (queue st = [])); [auto|].
  apply (drainAll_frame transport _ (set_processing true st) r).
  intros H. apply list_elem_of_In, filter_In in H. destruct H as [_ H].
  change (refPending (set_processing true st) r) with (refPending st r) in H.
  congruence.
Qed.

Lemma pass_keeps_other transport st r :
  wf st -> r ∈ queue st -> uniqueId st r -> refPending st r = false ->
  r ∈ queue (processQueueAll transport st).
Proof.
  intros [Hnd _] Hq Hu Hr. unfold processQueueAll.
  destruct (processing st || bool_decide (queue st = [])); [exact Hq|].
  apply drainAll_keeps; auto.
  - apply NoDup_ListNoDup, List.NoDup_filter, NoDup_ListNoDup, Hnd.
  - intros x Hx Hxr. apply Hu; [|exact Hxr].
    apply list_elem_of_In, filter_In in Hx. apply list_elem_of_In, Hx.
  - intros H. apply list_elem_of_In, filter_In in H. destruct H as [_ H].
    change (refPending (set_processing true st) r) with (refPending st r) in H.
    congruence.
Qed.

(** A command whose status is [sending] while no pass is running (one
    that was being delivered when the process stopped, and that [init]
    has loaded again) is skipped by every later pass: its record stays
    as it is, [sendCommand] is never called for it, and, no other queued
    command sharing its id, it stays in the queue. *)
Theorem sending_is_never_retried transport n st r c :
  reachable st -> processing st = false ->
  r ∈ queue st -> deref st r = Some c -> status c = sending ->
  deref (drainPasses transport n st) r = Some c /\
  attempts (drainPasses transport n st) r = attempts st r /\
  (uniqueId st r -> r ∈ queue (drainPasses transport n st)).
Proof.
  intros Hr Hp Hq Hc Hs.
  assert (forall s, deref s r = Some c -> refPending s r = false) as Hskip.
  { intros s E. unfold refPending, isPending. rewrite E, Hs. reflexivity. }
  induction n as [|n (IHd & IHa & IHq)]; [auto|].
  destruct (drainPasses_reachable transport n st Hr Hp) as [Hr' Hp'].
  destruct (pass_frame (transport n) (drainPasses transport n st) r
              (Hskip _ IHd)) as [Hd Ha].
  cbn [drainPasses]. rewrite Hd, Ha. split; [exact IHd|]. split; [exact IHa|].
  intros Hu. apply pass_keeps_other; auto.
  - apply wf_reachable, Hr'.
  - apply passes_uniqueId, Hu.
Qed.

(** The process stops while [ARM] is being sent, after the debounced
    write, and is started again. *)
Definition interrupted : State :=
  run initial
    [EvAddCommand 1700000000000 1700000000000 "0.25" "D1" "ARM" None;
   EvProcessQueue;
     EvResume 0%nat; EvTimer 1%nat true;
     EvRestart; EvInit; EvInitDone 0%nat true].

Lemma sending_is_never_retried_witness :
  getQueuedCommands (drainPasses offline 5 interrupted)
  = [mkCommand "1700000000000-0.25" "D1" "ARM" None 1700000000000 1 sending]
  /\ attempts (drainPasses offline 5 interrupted) 0%nat = 0%nat.
Proof.
  destruct (sending_is_never_retried offline 5 interrupted 0%nat
              (mkCommand "1700000000000-0.25" "D1" "ARM" None 1700000000000
                 1 sending)) as (_ & Ha & _).
  - apply reachable_run, reach_initial.
  - reflexivity.
  - apply list_elem_of_here.
  - reflexivity.
  - reflexivity.
  - split; [vm_compute; reflexivity | exact Ha].
Defined.

(** *** No command is sent more often than its counter says *)

Definition passRefs (pc : DrainPc) : list ref :=
  match pc with
  | AwaitSaveSending cmd rest => cmd :: rest
  | AwaitSend cmd rest => cmd :: rest
  | AwaitSaveSettled rest => rest
  end.

(** The pass has counted an attempt for [r] that it has not made yet. *)
Definition owes (r : ref) (pc : DrainPc) : bool :=
  match pc with
  | AwaitSaveSending cmd _ => Nat.eqb cmd r
  | _ => false
  end.

Definition owed (st : State) (r : ref) : nat :=
  length (List.filter (owes r) (passes st)).

Definition allocated (st : State) (r : ref) : Prop :=
  (r < length (heap st))%nat.

Definition counted (st : State) : Prop :=
  Forall (allocated st) (queue st) /\
  Forall (fun pc => Forall (allocated st) (passRefs pc)) (passes st) /\
  Forall (allocated st) (sendLog st) /\
  (forall r c, deref st r = Some c ->
     Z.of_nat (attempts st r + owed st r) <= retryCount c).

Lemma attempts_unlogged st r :
  Forall (allocated st) (sendLog st) -> ~ allocated st r -> attempts st r = 0%nat.
Proof.
  intros Hl Hr. unfold attempts. apply count_occ_not_In.
  intros Hin. apply Hr. rewrite Forall_forall in Hl.
  apply Hl, list_elem_of_In, Hin.
Qed.

Lemma owed_unreferenced st r :
  Forall (fun pc => Forall (allocated st) (passRefs pc)) (passes st) ->
  ~ allocated st r -> owed st r = 0%nat.
Proof.
  unfold owed. intros Hp Hr.
  induction Hp as [|pc ps Hpc _ IH]; [reflexivity|].
  cbn [List.filter]. destruct (owes r pc) eqn:E; [|exact IH].
  exfalso. destruct pc as [cmd rest| |]; try discriminate.
  cbn in E. apply Nat.eqb_eq in E. subst cmd.
  cbn in Hpc. inversion Hpc; contradiction.
Qed.

(** What the loop does to the counters, from its head to where it stops. *)
Lemma drainLoop_counts cmds : forall st,
  sendLog (snd (drainLoop cmds st)) = sendLog st /\
  length (heap (snd (drainLoop cmds st))) = length (heap st) /\
  (forall x, x ∈ queue (snd (drainLoop cmds st)) -> x ∈ queue st) /\
  match fst (drainLoop cmds st) with
  | None => forall r, deref (snd (drainLoop cmds st)) r = deref st r
  | Some pc =>
      exists cmd rest,
        pc = AwaitSaveSending cmd rest /\
        (forall x, x ∈ cmd :: rest -> x ∈ cmds) /\
        (forall r, r <> cmd -> deref (snd (drainLoop cmds st)) r = deref st r) /\
        (forall c, deref st cmd = Some c ->
           deref (snd (drainLoop cmds st)) cmd
           = Some (with_retryCount (retryCount c + 1) (with_status sending c)))
  end.
Proof.
  induction cmds as [|cmd rest IH]; intros st; cbn [drainLoop].
  - cbn [fst snd]. autorewrite with cq. cbn. repeat split; auto.
    intros r. rewrite saveQueue_deref. reflexivity.
  - destruct (overLimit st cmd).
    + destruct (IH (removeById cmd st)) as (Hl & Hh & Hq & Hk).
      split; [exact Hl|]. split; [exact Hh|]. split.
      { intros x Hx. apply Hq in Hx. rewrite removeById_queue in Hx.
        apply list_elem_of_filter in Hx. tauto. }
      destruct (fst (drainLoop rest (removeById cmd st))) as [pc|].
      * destruct Hk as (c' & rest' & -> & Hsub & Hne & Heq).
        exists c', rest'. split; [reflexivity|]. split; [|split].
        -- intros x Hx. right. apply Hsub, Hx.
        -- exact Hne.
        -- exact Heq.
      * exact Hk.
    + cbn [fst snd]. destruct (markSending_fields cmd st)
        as (Hq & _ & _ & _ & Hl & Hh).
      split; [exact Hl|]. split; [exact Hh|]. split; [rewrite Hq; auto|].
      exists cmd, rest. split; [reflexivity|]. split; [auto|]. split.
      * intros r Hr. apply markSending_deref_ne. congruence.
      * intros c Hc. apply markSending_deref_eq, Hc.
Qed.

Definition suspended (k : option DrainPc) : list DrainPc :=
  match k with
  | Some pc => [pc]
  | None => []
  end.

Lemma counted_loop cmds st :
  Forall (allocated st) (queue st) ->
  Forall (allocated st) (sendLog st) ->
  Forall (allocated st) cmds ->
  (forall r c, deref st r = Some c -> Z.of_nat (attempts st r) <= retryCount c) ->
  counted (set_passes (suspended (fst (drainLoop cmds st)))
             (snd (drainLoop cmds st))).
Proof.
  intros Hq Hl Hc Hn.
  destruct (drainLoop_counts cmds st) as (El & Eh & Eq & Hk).
  set (k := fst (drainLoop cmds st)) in *.
  set (st' := snd (drainLoop cmds st)) in *.
  assert (forall r, allocated (set_passes (suspended k) st') r <-> allocated st r)
    as Ha by (intros r; unfold allocated; cbn; rewrite Eh; tauto).
  split; [|split; [|split]].
  - apply Forall_forall. intros x Hx. apply Ha.
    rewrite Forall_forall in Hq. apply Hq, Eq, Hx.
  - cbn. destruct k as [pc|]; [|constructor].
    destruct Hk as (cmd & rest & -> & Hsub & _).
    constructor; [|constructor]. apply Forall_forall. intros x Hx.
    apply Ha. rewrite Forall_forall in Hc. apply Hc, Hsub, Hx.
  - cbn. rewrite El. eapply Forall_impl; [exact Hl|]. intros x Hx.
    apply Ha, Hx.
  - intros r c Hr. unfold attempts, owed, deref in *. cbn in *. rewrite El.
    destruct k as [pc|]; cbn.
    + destruct Hk as (cmd & rest & -> & _ & Hne & Heq). cbn.
      destruct (Nat.eqb_spec cmd r) as [->|Hcr]; cbn.
      * assert (is_Some (heap st !! r)) as [c0 Hc0].
        { apply lookup_lt_is_Some. rewrite <- Eh.
          eapply lookup_lt_Some. exact Hr. }
        specialize (Heq c0 Hc0). unfold deref in Heq. rewrite Heq in Hr.
        injection Hr as <-. cbn. specialize (Hn r c0 Hc0). lia.
      * specialize (Hne r ltac:(congruence)). unfold deref in Hne.
        rewrite Hne in Hr. specialize (Hn r c Hr). lia.
    + specialize (Hk r). unfold deref in Hk. rewrite Hk in Hr.
      specialize (Hn r c Hr). lia.
Qed.

Lemma spawn_suspended cmds st :
  passes st = [] ->
  spawn (drainLoop cmds st)
  = set_passes (suspended (fst (drainLoop cmds st))) (snd (drainLoop cmds st)).
Proof.
  intros Hp. destruct (drainLoop_control cmds st) as [Hps _].
  destruct (drainLoop cmds st) as [[pc|] st']; cbn in *.
  - rewrite Hps, Hp. reflexivity.
  - rewrite <- (set_passes_id st') at 1. rewrite Hps, Hp. reflexivity.
Qed.

Lemma install_suspended cmds st pc0 :
  passes st = [pc0] ->
  install 0 (drainLoop cmds st)
  = set_passes (suspended (fst (drainLoop cmds st))) (snd (drainLoop cmds st)).
Proof.
  intros Hp. destruct (drainLoop_control cmds st) as [Hps _].
  destruct (drainLoop cmds st) as [[pc|] st']; cbn in *;
    rewrite Hps, Hp; reflexivity.
Qed.

Lemma counted_frame st st' :
  heap st' = heap st -> sendLog st' = sendLog st -> passes st' = passes st ->
  (forall x, x ∈ queue st' -> x ∈ queue st) ->
  counted st -> counted st'.
Proof.
  intros Eh El Ep Eq (H1 & H2 & H3 & H4).
  unfold counted, allocated, attempts, owed, deref in *.
  rewrite Eh, El, Ep. repeat split; auto.
  apply Forall_forall. intros x Hx. rewrite Forall_forall in H1.
  apply H1, Eq, Hx.
Qed.

Lemma counted_grow st l q :
  (forall c, c ∈ l -> 0 <= retryCount c) ->
  Forall (fun r => (r < length (heap st) + length l)%nat) q ->
  counted st ->
  counted (set_queue q (set_heap (heap st ++ l) st)).
Proof.
  intros Hl Hq (H1 & H2 & H3 & H4).
  assert (forall r, allocated st r ->
            allocated (set_queue q (set_heap (heap st ++ l) st)) r) as Hmono.
  { unfold allocated. cbn. intros r Hr. rewrite length_app. lia. }
  split; [|split; [|split]].
  - cbn. eapply Forall_impl; [exact Hq|]. unfold allocated. cbn.
    intros r Hr. rewrite length_app. exact Hr.
  - cbn. eapply Forall_impl; [exact H2|]. cbn. intros pc Hpc.
    eapply Forall_impl; [exact Hpc|]. exact Hmono.
  - cbn. eapply Forall_impl; [exact H3|]. exact Hmono.
  - intros r c Hr. unfold deref in Hr. cbn in Hr.
    change (attempts (set_queue q (set_heap (heap st ++ l) st)) r)
      with (attempts st r).
    change (owed (set_queue q (set_heap (heap st ++ l) st)) r)
      with (owed st r).
    destruct (decide (r < length (heap st))%nat) as [Hlt|Hge].
    + rewrite lookup_app_l in Hr by exact Hlt. apply H4, Hr.
    + rewrite (attempts_unlogged st r H3 Hge), (owed_unreferenced st r H2 Hge).
      rewrite lookup_app_r in Hr by lia. cbn. apply Hl.
      eapply list_elem_of_lookup_2. exact Hr.
Qed.

Lemma counted_step st e :
  exclusive st -> everywhere (fun c => 0 <= retryCount c) st ->
  counted st -> counted (step st e).
Proof.
  intros Hx (_ & _ & Hld) Hc. destruct e; cbn [step].
  - (* init, the read *)
    eapply counted_frame; [reflexivity | reflexivity | reflexivity | auto |].
    exact Hc.
  - (* init, the assignment *)
    unfold initAssign. destruct (loading st !! i) as [stored|] eqn:E;
      [|exact Hc].
    assert (counted (set_loading (delete i (loading st)) st)) as Hc1
      by (eapply counted_frame;
            [reflexivity | reflexivity | reflexivity | auto | exact Hc]).
    destruct readOk; [|exact Hc1]. destruct stored as [l|]; [|exact Hc1].
    apply (counted_grow (set_loading (delete i (loading st)) st));
      [| |exact Hc1].
    + intros c Hin.
      assert (Forall (fun c => 0 <= retryCount c) l) as Hl
        by (apply Hld; eapply list_elem_of_lookup_2, E).
      rewrite Forall_forall in Hl. apply Hl, Hin.
    + apply Forall_forall. intros r Hr.
      apply list_elem_of_In, in_seq in Hr. cbn in *. lia.
  - (* addCommand *)
    unfold addCommand. cbn [snd].
    eapply counted_frame;
      [apply saveQueue_heap | apply saveQueue_sendLog | apply saveQueue_passes
      | rewrite saveQueue_queue; auto |].
    apply counted_grow; [| |exact Hc].
    + intros c Hin. apply list_elem_of_singleton in Hin. subst c. cbn. lia.
    + destruct Hc as (H1 & _). apply Forall_app. split.
      * eapply Forall_impl; [exact H1|]. unfold allocated. cbn. intros; lia.
      * constructor; [cbn; lia | constructor].
  - (* processQueue *)
    unfold processQueue.
    destruct (processing st) eqn:Hp; cbn [orb]; [exact Hc|].
    destruct (bool_decide (queue st = [])); [exact Hc|].
    assert (passes st = []) as Hps.
    { unfold exclusive in Hx. destruct (passes st) as [|pc [|pc' ps]];
        [reflexivity | congruence | contradiction]. }
    rewrite spawn_suspended by exact Hps.
    destruct Hc as (H1 & H2 & H3 & H4).
    apply counted_loop; try assumption.
    + apply Forall_forall. intros x Hin.
      apply list_elem_of_In, filter_In in Hin. destruct Hin as [Hin _].
      rewrite Forall_forall in H1. apply H1, list_elem_of_In, Hin.
    + intros r c Hr. specialize (H4 r c Hr).
      change (attempts (set_processing true st) r) with (attempts st r). lia.
  - (* resume *)
    unfold resume. unfold exclusive in Hx.
    destruct (passes st) as [|pc [|pc' ps]] eqn:Hps; [| |contradiction].
    + destruct i; exact Hc.
    + destruct i as [|i]; [|destruct i; exact Hc]. cbn [lookup list_lookup].
      destruct Hc as (H1 & H2 & H3 & H4).
      destruct pc as [cmd rest|cmd rest|rest].
      * (* the call of sendCommand is made *)
        rewrite Hps in H2. inversion H2 as [|? ? Hrefs _]; subst.
        split; [exact H1|]. split; [|split].
        -- cbn. constructor; [exact Hrefs | constructor].
        -- cbn. apply Forall_app. split; [exact H3|].
           constructor; [|constructor]. cbn in Hrefs.
           inversion Hrefs; assumption.
        -- intros r c Hr. specialize (H4 r c Hr).
           unfold attempts, owed in *. cbn in *. rewrite Hps in H4. cbn in H4.
           rewrite count_occ_app. cbn.
           destruct (Nat.eq_dec cmd r) as [->|Hne].
           ++ rewrite Nat.eqb_refl in H4. cbn in H4. unfold ref in *. lia.
           ++ destruct (Nat.eqb_spec cmd r); [contradiction|]. cbn in H4.
              unfold ref in *. lia.
      * split; [exact H1|]. split; [exact H2|]. split; [exact H3|]. exact H4.
      * rewrite (install_suspended rest st _ Hps).
        apply counted_loop; try assumption.
        -- rewrite Hps in H2. inversion H2; assumption.
        -- intros r c Hr. specialize (H4 r c Hr). lia.
  - (* sendResult *)
    unfold sendResult. unfold exclusive in Hx.
    destruct (passes st) as [|pc [|pc' ps]] eqn:Hps; [| |contradiction].
    + destruct i; exact Hc.
    + destruct i as [|i]; [|destruct i; exact Hc]. cbn [lookup list_lookup].
      destruct pc as [cmd rest|cmd rest|rest]; try exact Hc.
      destruct Hc as (H1 & H2 & H3 & H4).
      rewrite Hps in H2. inversion H2 as [|? ? Hrefs _]; subst.
      cbn in Hrefs. inversion Hrefs as [|? ? _ Hrest]; subst.
      set (st1 := if ok then removeById cmd st
                  else update cmd (with_status failed) st).
      assert (passes st1 = [AwaitSend cmd rest]) as Ep.
      { subst st1. destruct ok;
          [rewrite removeById_passes | rewrite update_passes]; exact Hps. }
      assert (length (heap st1) = length (heap st) /\
              sendLog st1 = sendLog st /\
              (forall x, x ∈ queue st1 -> x ∈ queue st) /\
              (forall r c, deref st1 r = Some c ->
                 exists c0, deref st r = Some c0 /\ retryCount c0 = retryCount c))
        as (Eh & El & Eq & Ed).
      { subst st1. destruct ok.
        - repeat split; auto.
          + intros x Hin. rewrite removeById_queue in Hin.
            apply list_elem_of_filter in Hin. tauto.
          + intros r c Hr. exists c. auto.
        - split; [apply update_fields|]. split; [apply update_sendLog|].
          split; [rewrite update_queue; auto|].
          intros r c Hr. destruct (decide (cmd = r)) as [->|Hne].
          + destruct (deref st r) as [c0|] eqn:E0.
            * rewrite (update_deref_eq _ _ _ _ E0) in Hr. injection Hr as <-.
              exists c0. auto.
            * rewrite (update_deref_None _ _ _ E0) in Hr. congruence.
          + rewrite update_deref_ne in Hr by exact Hne. exists c. auto. }
      split; [|split; [|split]].
      * cbn. rewrite saveQueue_queue. apply Forall_forall. intros x Hin.
        unfold allocated. cbn. rewrite saveQueue_heap, Eh.
        rewrite Forall_forall in H1. apply H1, Eq, Hin.
      * cbn. rewrite Ep. cbn. constructor; [|constructor]. cbn.
        eapply Forall_impl; [exact Hrest|]. unfold allocated. cbn.
        intros x Hlt. rewrite saveQueue_heap, Eh. exact Hlt.
      * cbn. rewrite saveQueue_sendLog, El.
        eapply Forall_impl; [exact H3|]. unfold allocated. cbn.
        intros x Hlt. rewrite saveQueue_heap, Eh. exact Hlt.
      * intros r c Hr. unfold deref in Hr. cbn in Hr.
        rewrite saveQueue_heap in Hr.
        destruct (Ed r c Hr) as (c0 & Hc0 & <-).
        specialize (H4 r c0 Hc0).
        unfold attempts, owed in *. cbn in *.
        rewrite saveQueue_sendLog, El, Ep. rewrite Hps in H4. cbn in *.
        unfold ref in *. lia.
  - (* clearQueue *)
    destruct (clearQueue_fields writeOk st)
      as (Eh & Eq & _ & _ & _ & Ep & El & _).
    eapply counted_frame; [exact Eh | exact El | exact Ep | | exact Hc].
    rewrite Eq. intros x Hin. inversion Hin.
  - (* timer *)
    unfold timerFires. destruct (bool_decide (t ∈ timers st)); [|exact Hc].
    unfold setItem. destruct writeOk; exact Hc.
  - (* saveDone *)
    unfold saveDone. destruct (saving st); exact Hc.
  - (* restart *)
    repeat split; try constructor. intros r c Hr. destruct r; discriminate.
Qed.

Lemma counted_reachable st : reachable st -> counted st.
Proof.
  induction 1 as [|st e Hr IH].
  - repeat split; try constructor. intros r c Hc. destruct r; discriminate.
  - apply counted_step; [apply exclusive_reachable, Hr | | exact IH].
    apply everywhere_reachable; [| | | |exact Hr];
      unfold MAX_RETRIES; cbn; intros; lia.
Qed.

(** Whatever the interleaving of enqueues, passes, timers, clears and
    restarts: the number of calls of [sendCommand] made for a command
    since the process started never exceeds its [retryCount], and so
    never exceeds [MAX_RETRIES]. *)
Theorem sends_are_bounded st r :
  reachable st ->
  (attempts st r <= Z.to_nat MAX_RETRIES)%nat /\
  (forall c, deref st r = Some c ->
     Z.of_nat (attempts st r) <= retryCount c <= MAX_RETRIES).
Proof.
  intros Hr. destruct (counted_reachable st Hr) as (_ & _ & H3 & H4).
  assert (forall c, deref st r = Some c ->
            Z.of_nat (attempts st r) <= retryCount c <= MAX_RETRIES) as Hb.
  { intros c Hc. split; [specialize (H4 r c Hc); lia|].
    assert (everywhere (fun c => retryCount c <= MAX_RETRIES) st) as [Hh _]
      by (apply everywhere_reachable; [| | | |exact Hr];
          unfold MAX_RETRIES; cbn; intros; lia).
    rewrite Forall_forall in Hh. apply Hh.
    eapply list_elem_of_lookup_2. exact Hc. }
  split; [|exact Hb].
  destruct (deref st r) as [c|] eqn:E.
  - specialize (Hb c eq_refl). unfold MAX_RETRIES in *. lia.
  - rewrite (attempts_unlogged st r H3); [lia|].
    unfold allocated. intros Hlt. unfold deref in E.
    apply lookup_ge_None_1 in E. unfold ref in *. lia.
Qed.

Lemma sends_are_bounded_witness :
  attempts limitState 0%nat = 3%nat /\
  (attempts limitState 0%nat <= Z.to_nat MAX_RETRIES)%nat.
Proof.
  split; [reflexivity|].
  apply (sends_are_bounded limitState 0%nat), limitState_reachable.
Defined.

(** *** What one pass leaves behind *)

(** A pass never leaves a command waiting in status [pending]: whatever
    is still queued and eligible for the next pass has just failed.
    When every send succeeds, nothing is left to retry. *)
Theorem pass_leaves_only_failures transport st :
  reachable st -> processing st = false ->
  let st' := processQueueAll transport st in
  (forall r c,
     r ∈ queue st' -> deref st' r = Some c -> isPending c = true ->
     status c = failed /\ transport r = false) /\
  ((forall r, transport r = true) -> getPendingCount st' = 0%nat).
Proof.
  intros Hr Hp st'.
  assert (forall r c,
            r ∈ queue st' -> deref st' r = Some c -> isPending c = true ->
            status c = failed /\ transport r = false) as Hleft.
  { intros r c Hq Hc Hpend.
    assert (r ∈ queue st) as Hq0 by (eapply processQueueAll_queue, Hq).
    destruct (refPending st r) eqn:E.
    - unfold refPending in E. destruct (deref st r) as [c0|] eqn:E0;
        [|discriminate].
      pose proof (pass_turn transport st r c0 (wf_reachable st Hr) Hp Hq0 E0 E)
        as H. cbn in H. fold st' in H.
      destruct (MAX_RETRIES <=? retryCount c0).
      + destruct H as (Hn & _). contradiction.
      + destruct H as (Hd & _ & Ht).
        destruct (transport r); [exfalso; apply Ht; auto|].
        rewrite Hd in Hc. injection Hc as <-. auto.
    - destruct (pass_frame transport st r E) as [Hd _]. fold st' in Hd.
      unfold refPending in E. rewrite <- Hd, Hc in E. congruence. }
  split; [exact Hleft|].
  intros Hon. unfold getPendingCount.
  destruct (List.filter _ _) as [|r l] eqn:E; [reflexivity|exfalso].
  assert (List.In r (List.filter (refPending st') (queue st'))) as Hin
    by (rewrite E; left; reflexivity).
  apply filter_In in Hin. destruct Hin as [Hq Hpend].
  apply list_elem_of_In in Hq. unfold refPending in Hpend.
  destruct (deref st' r) as [c|] eqn:Hc; [|discriminate].
  destruct (Hleft r c Hq Hc Hpend) as [_ H].
  rewrite Hon in H. discriminate.
Qed.

Lemma pass_leaves_only_failures_witness :
  getPendingCount armQueued = 1%nat /\
  getPendingCount (processQueueAll (fun _ => true) armQueued) = 0%nat.
Proof.
  split; [reflexivity|].
  apply (pass_leaves_only_failures (fun _ => true) armQueued);
    [apply armQueued_reachable | reflexivity | reflexivity].
Defined.

(** *** The order of the sends *)

Lemma overLimit_deliver transport cmd st x :
  cmd <> x -> overLimit (deliver transport cmd st) x = overLimit st x.
Proof.
  intros Hne. unfold overLimit. rewrite deliver_deref_ne by exact Hne.
  reflexivity.
Qed.

Lemma deliver_sendLog transport cmd st :
  sendLog (deliver transport cmd st) = sendLog st ++ [cmd].
Proof.
  unfold deliver. destruct (transport cmd);
    autorewrite with cq; cbn; autorewrite with cq; reflexivity.
Qed.

Lemma drainAll_sendLog transport cmds : forall st,
  NoDup cmds ->
  sendLog (drainAll transport cmds st)
  = sendLog st ++ List.filter (fun r => negb (overLimit st r)) cmds.
Proof.
  induction cmds as [|cmd rest IH]; intros st Hnd; cbn.
  - autorewrite with cq. cbn. rewrite app_nil_r. reflexivity.
  - apply NoDup_cons in Hnd. destruct Hnd as [Hcmd Hnd].
    destruct (overLimit st cmd) eqn:E; cbn; rewrite IH by exact Hnd.
    + autorewrite with cq. reflexivity.
    + rewrite deliver_sendLog, <- app_assoc. cbn. do 2 f_equal.
      apply List.filter_ext_in. intros x Hx. f_equal.
      apply overLimit_deliver. intros ->. apply Hcmd, list_elem_of_In, Hx.
Qed.

(** One uninterrupted pass calls [sendCommand] once for each queued
    command that is [pending] or [failed] and under the retry limit, in
    queue order, and for no other command. *)
Theorem pass_sends_in_queue_order transport st :
  reachable st -> processing st = false ->
  sendLog (processQueueAll transport st)
  = sendLog st
    ++ List.filter (fun r => refPending st r && negb (overLimit st r))
         (queue st).
Proof.
  intros Hr Hp. destruct (wf_reachable st Hr) as [Hnd _].
  unfold processQueueAll. rewrite Hp. cbn.
  destruct (bool_decide (queue st = [])) eqn:E.
  - apply bool_decide_eq_true in E. rewrite E. cbn.
    rewrite app_nil_r. reflexivity.
  - rewrite drainAll_sendLog
      by (apply NoDup_ListNoDup, List.NoDup_filter, NoDup_ListNoDup, Hnd).
    cbn. f_equal.
    change (refPending (set_processing true st)) with (refPending st).
    change (overLimit (set_processing true st)) with (overLimit st).
    clear E Hnd.
    induction (queue st) as [|x l IH]; [reflexivity|]. cbn.
    destruct (refPending st x); cbn; [|exact IH].
    destruct (overLimit st x); cbn; [exact IH|f_equal; exact IH].
Qed.

Lemma pass_sends_in_queue_order_witness :
  sendLog (processQueueAll (offline 0%nat) armQueued) = [0%nat].
Proof.
  rewrite pass_sends_in_queue_order;
    [reflexivity | apply armQueued_reachable | reflexivity].
Defined.

(** *** Where the queue can grow *)

(** The events that put commands into the queue. *)
Definition enqueues (e : Event) : bool :=
  match e with
  | EvInitDone _ _ | EvAddCommand _ _ _ _ _ _ => true
  | _ => false
  end.

Lemma removeById_sublist cmd st : sublist (queue (removeById cmd st)) (queue st).
Proof. rewrite removeById_queue. apply sublist_filter. Qed.

Lemma drainLoop_sublist cmds : forall st,
  sublist (queue (snd (drainLoop cmds st))) (queue st).
Proof.
  induction cmds as [|cmd rest IH]; intros st; cbn.
  - autorewrite with cq. reflexivity.
  - destruct (overLimit st cmd); cbn.
    + etransitivity; [apply IH|apply removeById_sublist].
    + autorewrite with cq. reflexivity.
Qed.

Lemma spawn_queue k : queue (spawn k) = queue (snd k).
Proof. destruct k as [[pc|] st]; reflexivity. Qed.

Lemma install_queue i k : queue (install i k) = queue (snd k).
Proof. destruct k as [[pc|] st]; reflexivity. Qed.

Lemma step_sublist st e :
  enqueues e = false -> sublist (queue (step st e)) (queue st).
Proof.
  destruct e; cbn; try discriminate; intros _.
  - reflexivity.
  - unfold processQueue.
    destruct (processing st || bool_decide (queue st = [])); [reflexivity|].
    rewrite spawn_queue.
    apply (drainLoop_sublist _ (set_processing true st)).
  - unfold resume. destruct (passes st !! i) as [[cmd rest|cmd rest|rest]|];
      try reflexivity.
    rewrite install_queue. apply drainLoop_sublist.
  - unfold sendResult.
    destruct (passes st !! i) as [[cmd rest|cmd rest|rest]|];
      try reflexivity.
    cbn. destruct ok; autorewrite with cq;
      [apply removeById_sublist | reflexivity].
  - destruct (clearQueue_fields writeOk st) as (_ & -> & _).
    apply sublist_nil_l.
  - unfold timerFires. destruct (bool_decide (t ∈ timers st)); [|reflexivity].
    destruct writeOk; reflexivity.
  - unfold saveDone. destruct (saving st); reflexivity.
  - apply sublist_nil_l.
Qed.

(** Only [addCommand] and [init] put anything into the queue: across
    any other activity (passes that start, resume and settle, timers,
    clears, a restart) the queue is a subsequence of what it was.  In
    particular a cleared queue stays empty, also while a pass that was
    suspended when it was cleared runs on. *)
Theorem queue_grows_only_by_add_or_init es : forall st,
  Forall (fun e => enqueues e = false) es ->
  sublist (queue (run st es)) (queue st) /\
  (queue st = [] -> queue (run st es) = []).
Proof.
  assert (forall st, Forall (fun e => enqueues e = false) es ->
            sublist (queue (run st es)) (queue st)) as H.
  { induction es as [|e es IH]; intros st Hes; [reflexivity|].
    apply Forall_cons in Hes. destruct Hes as [He Hes].
    change (sublist (queue (run (step st e) es)) (queue st)).
    etransitivity; [apply IH, Hes | apply step_sublist, He]. }
  intros st Hes. split; [apply H, Hes|].
  intros E. specialize (H st Hes). rewrite E in H.
  apply sublist_nil_r in H. exact H.
Qed.

Lemma queue_grows_only_by_add_or_init_witness :
  queue (run (clearQueue true (run armQueued [EvProcessQueue]))
           [EvResume 0%nat; EvSendResult 0%nat false; EvResume 0%nat]) = [].
Proof.
  apply (queue_grows_only_by_add_or_init
           [EvResume 0%nat; EvSendResult 0%nat false; EvResume 0%nat]).
  - repeat constructor.
  - reflexivity.
Defined.

(** *** What a restart brings back *)

(** The events that change the stored entry. *)
Definition writes (e : Event) : bool :=
  match e with
  | EvTimer _ true | EvClearQueue true => true
  | _ => false
  end.

Lemma drainLoop_storage cmds : forall st,
  storage (snd (drainLoop cmds st)) = storage st.
Proof.
  induction cmds as [|cmd rest IH]; intros st; cbn.
  - autorewrite with cq. reflexivity.
  - destruct (overLimit st cmd); cbn.
    + rewrite IH. autorewrite with cq. reflexivity.
    + autorewrite with cq. reflexivity.
Qed.

Lemma spawn_storage k : storage (spawn k) = storage (snd k).
Proof. destruct k as [[pc|] st]; reflexivity. Qed.

Lemma install_storage i k : storage (install i k) = storage (snd k).
Proof. destruct k as [[pc|] st]; reflexivity. Qed.

Lemma step_storage st e :
  writes e = false -> storage (step st e) = storage st.
Proof.
  destruct e; cbn.
  - reflexivity.
  - intros _. unfold initAssign.
    destruct (loading st !! i) as [[l|]|], readOk; reflexivity.
  - intros _. autorewrite with cq. reflexivity.
  - intros _. unfold processQueue.
    destruct (processing st || bool_decide (queue st = [])); [reflexivity|].
    rewrite spawn_storage.
    apply (drainLoop_storage _ (set_processing true st)).
  - intros _. unfold resume.
    destruct (passes st !! i) as [[cmd rest|cmd rest|rest]|];
      try reflexivity.
    rewrite install_storage. apply drainLoop_storage.
  - intros _. unfold sendResult.
    destruct (passes st !! i) as [[cmd rest|cmd rest|rest]|];
      try reflexivity.
    cbn. destruct ok; autorewrite with cq; reflexivity.
  - destruct writeOk; [discriminate|]. intros _.
    destruct (clearQueue_fields false st) as (_ & _ & _ & _ & -> & _).
    reflexivity.
  - destruct writeOk; [discriminate|]. intros _.
    unfold timerFires. destruct (bool_decide (t ∈ timers st)); reflexivity.
  - intros _. unfold saveDone. destruct (saving st); reflexivity.
  - reflexivity.
Qed.

Lemma run_storage es : forall st,
  Forall (fun e => writes e = false) es -> storage (run st es) = storage st.
Proof.
  induction es as [|e es IH]; intros st Hes; [reflexivity|].
  apply Forall_cons in Hes. destruct Hes as [He Hes].
  change (storage (run (step st e) es) = storage st).
  rewrite IH by exact Hes. apply step_storage, He.
Qed.

Lemma run_app st es es' : run st (es ++ es') = run (run st es) es'.
Proof. apply fold_left_app. Qed.

Lemma omap_lookup_seq (l : list QueuedCommand) : forall p,
  omap (fun r => (p ++ l) !! r) (seq (length p) (length l)) = l.
Proof.
  induction l as [|c l IH]; intros p; [reflexivity|]. cbn.
  rewrite lookup_app_r by lia. rewrite Nat.sub_diag. cbn. f_equal.
  specialize (IH (p ++ [c])). rewrite <- app_assoc, length_app in IH.
  cbn in IH. rewrite Nat.add_1_r in IH. exact IH.
Qed.

Lemma init_restores st l :
  storage st = Some l -> getQueuedCommands (init true st) = l.
Proof.
  intros E. rewrite init_uninterrupted, E.
  unfold getQueuedCommands, snapshot, deref. cbn. apply omap_lookup_seq.
Qed.

(** What [init] loads after a restart is the queue as it was when the
    last write succeeded: everything that happened to the queue after
    that write (commands added, sent, failed or dropped) is forgotten,
    whether or not a later write was scheduled. *)
Theorem restart_restores_last_write st t es :
  t ∈ timers st ->
  Forall (fun e => writes e = false) es ->
  getQueuedCommands
    (run st (EvTimer t true
             :: es ++ [EvRestart; EvInit; EvInitDone 0%nat true]))
  = getQueuedCommands st.
Proof.
  intros Ht Hes.
  change (getQueuedCommands
            (run (timerFires t true st)
               (es ++ [EvRestart; EvInit; EvInitDone 0%nat true]))
          = getQueuedCommands st).
  rewrite run_app.
  change (getQueuedCommands
            (init true (restart (run (timerFires t true st) es)))
          = getQueuedCommands st).
  apply init_restores.
  change (storage (run (timerFires t true st) es)
          = Some (getQueuedCommands st)).
  rewrite run_storage by exact Hes.
  unfold timerFires. rewrite bool_decide_eq_true_2 by exact Ht.
  reflexivity.
Qed.

Lemma restart_restores_last_write_witness :
  getQueuedCommands
    (run armQueued [EvTimer 0%nat true; EvProcessQueue; EvResume 0%nat;
                    EvSendResult 0%nat true;
                    EvRestart; EvInit; EvInitDone 0%nat true])
  = [armCommand].
Proof.
  apply (restart_restores_last_write armQueued 0%nat
           [EvProcessQueue; EvResume 0%nat; EvSendResult 0%nat true]).
  - vm_compute. apply list_elem_of_here.
  - repeat constructor.
Defined.

(** *** Enqueueing *)

Lemma addCommand_deref now now' rnd d c v st r :
  deref (snd (addCommand now now' rnd d c v st)) r
  = (heap st ++ [mkCommand (showZ now ++ "-" ++ rnd)%string d c v now' 0
                   pending]) !! r.
Proof. unfold addCommand. cbn. rewrite saveQueue_deref. reflexivity. Qed.

Lemma addCommand_queue now now' rnd d c v st :
  queue (snd (addCommand now now' rnd d c v st))
  = queue st ++ [length (heap st)].
Proof. unfold addCommand. cbn. rewrite saveQueue_queue. reflexivity. Qed.



(** *** Changes that are not yet stored *)

(** The stored entry says what the queue holds. *)
Definition synced (st : State) : Prop :=
  match storage st with
  | Some l => l = snapshot st
  | None => queue st = []
  end.

(** The events in which nothing goes wrong with the store, the process
    stays alive, and no assignment of [init] arrives: [init] has run to
    its end before the queue is used. *)
Definition faultless (e : Event) : bool :=
  match e with
  | EvTimer _ false | EvClearQueue false | EvRestart | EvInitDone _ _ => false
  | _ => true
  end.

Lemma saveQueue_timers st : timers (saveQueue st) <> [].
Proof.
  unfold saveQueue. destruct (saveTimeout st); cbn;
    intros H; apply app_eq_nil in H; destruct H; discriminate.
Qed.

Lemma drainLoop_timers cmds : forall st,
  timers (snd (drainLoop cmds st)) <> [].
Proof.
  induction cmds as [|cmd rest IH]; intros st; cbn.
  - apply saveQueue_timers.
  - destruct (overLimit st cmd); cbn; [apply IH|].
    unfold markSending. apply saveQueue_timers.
Qed.

Lemma spawn_timers k : timers (spawn k) = timers (snd k).
Proof. destruct k as [[pc|] st]; reflexivity. Qed.

Lemma install_timers i k : timers (install i k) = timers (snd k).
Proof. destruct k as [[pc|] st]; reflexivity. Qed.

Lemma scheduled_step st e :
  faultless e = true ->
  synced st \/ timers st <> [] ->
  synced (step st e) \/ timers (step st e) <> [].
Proof.
  intros He H. destruct e as [|i ok|now now' rnd d c v| |i|i ok|ok|t ok| |]; cbn.
  - exact H.
  - discriminate.
  - right. unfold addCommand. cbn. apply saveQueue_timers.
  - unfold processQueue.
    destruct (processing st || bool_decide (queue st = [])); [exact H|].
    right. rewrite spawn_timers. apply drainLoop_timers.
  - unfold resume.
    destruct (passes st !! i) as [[cmd rest|cmd rest|rest]|]; try exact H.
    right. rewrite install_timers. apply drainLoop_timers.
  - unfold sendResult.
    destruct (passes st !! i) as [[cmd rest|cmd rest|rest]|]; try exact H.
    right. cbn. apply saveQueue_timers.
  - destruct ok; [|discriminate]. left. unfold synced, snapshot.
    destruct (clearQueue_fields true st) as (_ & -> & _ & _ & -> & _).
    reflexivity.
  - destruct ok; [|discriminate]. unfold timerFires.
    destruct (bool_decide (t ∈ timers st)); [|exact H].
    left. reflexivity.
  - unfold saveDone. destruct (saving st); exact H.
  - discriminate.
Qed.

(** A process that has started and whose [init] has loaded the store
    holds what the store holds. *)
Lemma started_synced s : synced (init true (restart s)).
Proof.
  unfold synced. rewrite init_uninterrupted.
  change (storage (restart s)) with (storage s).
  destruct (storage s) as [l|] eqn:E; [|cbn; rewrite E; reflexivity].
  cbn. rewrite E. symmetry.
  pose proof (init_restores (restart s) l E) as Hi.
  rewrite init_uninterrupted in Hi.
  change (storage (restart s)) with (storage s) in Hi. rewrite E in Hi.
  exact Hi.
Qed.

(** Once [init] has loaded the store, while the process stays alive and
    the store accepts what is written, no change of the queue is left
    behind: in every state either the stored entry says what the queue
    holds, or a write is scheduled; and the write of any scheduled timer
    stores the queue as it is when the timer fires. *)
Theorem unsaved_changes_have_a_write_scheduled s es :
  Forall (fun e => faultless e = true) es ->
  let st := run s ([EvRestart; EvInit; EvInitDone 0%nat true] ++ es) in
  (synced st \/ timers st <> []) /\
  (forall t, t ∈ timers st -> synced (timerFires t true st)).
Proof.
  intros Hes. cbn zeta. rewrite run_app.
  change (run s [EvRestart; EvInit; EvInitDone 0%nat true])
    with (init true (restart s)).
  split.
  - assert (forall st, synced st \/ timers st <> [] ->
              synced (run st es) \/ timers (run st es) <> []) as H.
    { induction Hes as [|e es He _ IH]; intros st H; [exact H|].
      apply (IH (step st e)), scheduled_step; assumption. }
    apply H. left. apply started_synced.
  - intros t Ht. unfold timerFires.
    rewrite bool_decide_eq_true_2 by exact Ht. reflexivity.
Qed.

(** [ARM] is queued and stored; the process is started again, loads it
    and starts a pass. *)
Definition reloaded : State :=
  run (run armQueued [EvTimer 0%nat true])
    ([EvRestart; EvInit; EvInitDone 0%nat true] ++ [EvProcessQueue]).

Lemma unsaved_changes_have_a_write_scheduled_witness :
  timers reloaded <> [] /\ synced (timerFires 0%nat true reloaded).
Proof.
  split.
  - discriminate.
  - destruct (unsaved_changes_have_a_write_scheduled
                (run armQueued [EvTimer 0%nat true]) [EvProcessQueue])
      as [_ H].
    + repeat constructor.
    + apply (H 0%nat). vm_compute. apply list_elem_of_here.
Defined.

(** The assignment of an [init] that was reading when the queue was
    cleared puts what it read back into memory: the store holds the
    empty queue, the memory does not, and [clearQueue] has left no
    timer in [saveTimeout]. *)
Lemma init_completing_after_clearQueue st i l :
  loading st !! i = Some (Some l) ->
  let st' := initAssign i true (clearQueue true st) in
  getQueuedCommands st' = l /\ storage st' = Some [] /\
  saveTimeout st' = None.
Proof.
  intros E st'.
  destruct (clearQueue_fields true st) as (Hh & _ & _ & Ht & Hs & _).
  unfold st', initAssign. rewrite clearQueue_loading, E. cbn.
  split; [|split; [exact Hs | exact Ht]].
  unfold getQueuedCommands, snapshot, deref. cbn. apply omap_lookup_seq.
Qed.

End CommandQueue.

(** ** The credential cache ([src/services/api.ts], lines 203-244 and the
       interceptors) *)

Module TokenCache.

(** What a caller of an [async] function holds: a value that is already
    there, or a promise that is still to settle. *)
Inductive Answer :=
| Value (token : option string)
| Await (promise : nat).

#[global] Instance Answer_eq_dec : EqDecision Answer.
Proof. solve_decision. Defined.

(** Operations on [AsyncStorage] that have been issued and have not
    completed. *)
Inductive Task :=
| TRead (promise : nat)       (* getItem(AUTH_TOKEN_KEY) of initializeTokenCache *)
| TRemove                     (* multiRemove of the 401 handler and of logout *)
| TStoreToken (token : string)  (* setItem(AUTH_TOKEN_KEY, ...) of login, register *)
| TStoreUser (token : string).  (* setItem(USER_DATA_KEY, ...) that follows it *)

Record State := mkState {
  cachedAuthToken : option string;
  tokenCachePromise : option nat;
  promises : list (option (option string));  (* None: pending *)
  store : option string;                     (* AsyncStorage entry AUTH_TOKEN_KEY *)
  tasks : list Task;
  reads : nat                                (* calls of getItem(AUTH_TOKEN_KEY) *)
}.

(** The module before its top-level call of [initializeTokenCache]. *)
Definition cold (stored : option string) : State :=
  mkState None None [] stored [] 0.

Definition initializeTokenCache (st : State) : Answer * State :=
  match cachedAuthToken st with
  | Some t => (Value (Some t), st)
  | None =>
      match tokenCachePromise st with
      | Some p => (Await p, st)
      | None =>
          let p := length (promises st) in
          (Await p,
           mkState None (Some p) (promises st ++ [None]) (store st)
             (tasks st ++ [TRead p]) (S (reads st)))
      end
  end.

(** The request interceptor:
    [cachedAuthToken ?? await initializeTokenCache()]. *)
Definition requestToken (st : State) : Answer * State :=
  match cachedAuthToken st with
  | Some t => (Value (Some t), st)
  | None => initializeTokenCache st
  end.

Definition updateCachedToken (token : option string) (st : State) : State :=
  mkState token None (promises st) (store st) (tasks st) (reads st).

Definition issue (t : Task) (st : State) : State :=
  mkState (cachedAuthToken st) (tokenCachePromise st) (promises st)
    (store st) (tasks st ++ [t]) (reads st).

(** The response interceptor sees status 401: it calls [multiRemove] and
    awaits it (line 338). *)
Definition unauthorized (st : State) : State := issue TRemove st.

(** [logout] starts the same way (line 408). *)
Definition logout (st : State) : State := issue TRemove st.

(** [login] and [register], once the server has answered with a token
    (lines 392 and 401). *)
Definition login (token : string) (st : State) : State :=
  issue (TStoreToken token) st.

Definition settle (p : nat) (v : option string) (st : State) : State :=
  mkState (cachedAuthToken st) (tokenCachePromise st)
    (<[p := Some v]> (promises st)) (store st) (tasks st) (reads st).

Definition set_store (v : option string) (st : State) : State :=
  mkState (cachedAuthToken st) (tokenCachePromise st) (promises st)
    v (tasks st) (reads st).

Definition set_cached (v : option string) (st : State) : State :=
  mkState v (tokenCachePromise st) (promises st)
    (store st) (tasks st) (reads st).

Definition set_promise (p : option nat) (st : State) : State :=
  mkState (cachedAuthToken st) p (promises st)
    (store st) (tasks st) (reads st).

Definition drop (i : nat) (st : State) : State :=
  mkState (cachedAuthToken st) (tokenCachePromise st) (promises st)
    (store st) (delete i (tasks st)) (reads st).

(** Task [i] completes, successfully or not, and the code that awaited
    it runs up to its next [await]. *)
Definition complete (i : nat) (ok : bool) (st : State) : State :=
  match tasks st !! i with
  | None => st
  | Some t =>
      let st := drop i st in
      match t with
      | TRead p =>
          if ok
          then (* .then(token => { cachedAuthToken = token; return token }) *)
            settle p (store st) (set_cached (store st) st)
          else (* .catch(err => { tokenCachePromise = null; return null }) *)
            settle p None (set_promise None st)
      | TRemove =>
          if ok
          then updateCachedToken None (set_store None st)
          else st   (* the await throws; line 339 is not reached *)
      | TStoreToken token =>
          if ok
          then issue (TStoreUser token) (set_store (Some token) st)
          else st
      | TStoreUser token =>
          if ok then updateCachedToken (Some token) st else st
      end
  end.

Inductive Event :=
| EvRequest
| EvUnauthorized
| EvLogout
| EvLogin (token : string)
| EvComplete (i : nat) (ok : bool).

Definition step (st : State) (e : Event) : State :=
  match e with
  | EvRequest => snd (requestToken st)
  | EvUnauthorized => unauthorized st
  | EvLogout => logout st
  | EvLogin token => login token st
  | EvComplete i ok => complete i ok st
  end.

Definition run (st : State) (es : list Event) : State :=
  fold_left step es st.

(** [n] callers ask for the token one after the other, nothing else
    happening in between. *)
Fixpoint requests (n : nat) (st : State) : list Answer * State :=
  match n with
  | O => ([], st)
  | S k =>
      let '(a, st1) := requestToken st in
      let '(l, st2) := requests k st1 in
      (a :: l, st2)
  end.

(** What a caller that holds [a] gets once promises have settled. *)
Definition received (st : State) (a : Answer) : option (option string) :=
  match a with
  | Value v => Some v
  | Await p => default None (promises st !! p)
  end.

(** *** Single flight of the start-up read *)

Lemma requests_waiting n : forall st p,
  cachedAuthToken st = None -> tokenCachePromise st = Some p ->
  requests n st = (replicate n (Await p), st).
Proof.
  induction n as [|n IH]; intros st p Hc Hp; simpl; [reflexivity|].
  unfold requestToken, initializeTokenCache. rewrite Hc, Hp.
  rewrite (IH st p Hc Hp). reflexivity.
Qed.

(** C6. From a cold cache, any number of token reads made before the
    store has answered issue one [getItem] between them; every caller
    awaits the same promise, and when the store answers they all receive
    the same token (the stored one, or [null] if the read failed). *)
Theorem cold_start_reads_once (stored : option string) (n : nat) (ok : bool) :
  let answers := fst (requests (S n) (cold stored)) in
  let st := snd (requests (S n) (cold stored)) in
  answers = replicate (S n) (Await 0) /\
  reads st = 1%nat /\
  tasks st = [TRead 0] /\
  Forall (fun a => received (complete 0 ok st) a
                   = Some (if ok then stored else None)) answers.
Proof.
  simpl.
  rewrite (requests_waiting n _ 0%nat) by reflexivity.
  simpl. repeat split.
  apply Forall_forall. intros a Ha.
  apply elem_of_cons in Ha.
  assert (a = Await 0) as ->.
  { destruct Ha as [Ha|Ha]; [exact Ha|].
    apply elem_of_replicate in Ha. tauto. }
  destruct ok; reflexivity.
Qed.

(** *** The 401 handler *)

(** A session: the start-up read has found the token [t]. *)
Definition session (t : string) : State :=
  run (cold (Some t)) [EvRequest; EvComplete 0 true].

(** C3, as stated, fails: the handler awaits the durable removal before
    it touches the cache.  While the removal is pending the store and
    the cache both still hold the token, and a request issued then is
    sent with it. *)
Lemma unauthorized_token_still_cached :
  let st := unauthorized (session "T") in
  tasks st = [TRemove] /\
  store st = Some "T" /\
  cachedAuthToken st = Some "T" /\
  fst (requestToken st) = Value (Some "T") /\
  ~ (cachedAuthToken st = None).
Proof. vm_compute. repeat split; discriminate. Qed.

(** C3, amended.  On a 401 the handler issues the durable removal and
    leaves the cache as it is.  When the removal has succeeded, the same
    segment clears the cached token and the memoized promise; a read
    made after that does not find a cached value, starts a new
    [getItem], and receives [null] from the emptied store. *)
Theorem unauthorized_clears_after_removal st i :
  tasks st !! i = Some TRemove ->
  (cachedAuthToken (unauthorized st) = cachedAuthToken st /\
   store (unauthorized st) = store st /\
   tasks (unauthorized st) = tasks st ++ [TRemove]) /\
  let st' := complete i true st in
  store st' = None /\
  cachedAuthToken st' = None /\
  tokenCachePromise st' = None /\
  let p := length (promises st') in
  fst (requestToken st') = Await p /\
  reads (snd (requestToken st')) = S (reads st) /\
  received (complete (length (tasks st')) true (snd (requestToken st')))
    (Await p) = Some None.
Proof.
  intros Hi. split; [repeat split|].
  unfold complete. rewrite Hi. cbn.
  repeat split.
  rewrite lookup_app_r by lia. rewrite Nat.sub_diag. cbn.
  rewrite list_lookup_insert_eq by (rewrite length_app; cbn; lia).
  reflexivity.
Qed.

Lemma unauthorized_clears_after_removal_witness :
  let st := complete 0 true (unauthorized (session "T")) in
  store st = None /\ cachedAuthToken st = None /\
  fst (requestToken st) = Await 1.
Proof.
  destruct (unauthorized_clears_after_removal
              (unauthorized (session "T")) 0%nat)
    as (_ & H1 & H2 & _ & H4 & _).
  - reflexivity.
  - split; [exact H1 | split; [exact H2 | exact H4]].
Defined.

(** *** What the start-up read leaves behind *)

Lemma requests_reads n : forall st p,
  cachedAuthToken st = None -> tokenCachePromise st = Some p ->
  reads (snd (requests n st)) = reads st.
Proof. intros st p Hc Hp. rewrite (requests_waiting n st p Hc Hp). reflexivity. Qed.

(** A read that finds the store empty is remembered through the settled
    promise: later requests get [null] from it and never go back to the
    store.  A read that fails is not remembered: the next request starts
    a new one. *)
Theorem empty_store_is_read_once st i p n :
  cachedAuthToken st = None -> tokenCachePromise st = Some p ->
  tasks st !! i = Some (TRead p) -> store st = None ->
  (p < length (promises st))%nat ->
  (let st' := complete i true st in
   fst (requests n st') = replicate n (Await p) /\
   reads (snd (requests n st')) = reads st /\
   received st' (Await p) = Some None) /\
  (let st' := complete i false st in
   fst (requestToken st') = Await (length (promises st')) /\
   reads (snd (requestToken st')) = S (reads st) /\
   received st' (Await p) = Some None).
Proof.
  intros Hc Hp Hi Hs Hlt. split.
  - assert (cachedAuthToken (complete i true st) = None) as Hc'.
    { unfold complete. rewrite Hi. cbn. exact Hs. }
    assert (tokenCachePromise (complete i true st) = Some p) as Hp'.
    { unfold complete. rewrite Hi. cbn. exact Hp. }
    cbn zeta. rewrite (requests_waiting n _ p Hc' Hp').
    split; [reflexivity|]. split.
    + unfold complete. rewrite Hi. reflexivity.
    + unfold complete, received. rewrite Hi. cbn.
      rewrite list_lookup_insert_eq by exact Hlt. rewrite Hs. reflexivity.
  - unfold complete. rewrite Hi. cbn.
    unfold requestToken, initializeTokenCache. cbn. rewrite Hc. cbn.
    repeat split.
    unfold received. cbn.
    rewrite list_lookup_insert_eq by exact Hlt. reflexivity.
Qed.

Lemma empty_store_is_read_once_witness :
  reads (snd (requests 5 (run (cold None) [EvRequest; EvComplete 0 true])))
  = 1%nat.
Proof.
  assert (0 < length (promises (run (cold None) [EvRequest])))%nat as Hlt
    by (cbn; lia).
  destruct (empty_store_is_read_once (run (cold None) [EvRequest])
              0%nat 0%nat 5%nat eq_refl eq_refl eq_refl eq_refl Hlt)
    as [(_ & H & _) _].
  exact H.
Defined.

(** *** Signing in *)

(** [login] and [register] write the token, then the user record, and
    only then touch the cache.  Once the first write is through, the
    store holds the new token; the cache follows when the second write
    succeeds, and from then on requests carry the new token without a
    read.  When the second write fails the cache is left as it was:
    the store and the cache disagree. *)
Theorem login_installs_token st i t :
  tasks st !! i = Some (TStoreToken t) ->
  let st1 := complete i true st in
  let j := (length (tasks st) - 1)%nat in
  store st1 = Some t /\
  cachedAuthToken st1 = cachedAuthToken st /\
  tasks st1 !! j = Some (TStoreUser t) /\
  (let st2 := complete j true st1 in
   store st2 = Some t /\ cachedAuthToken st2 = Some t /\
   requestToken st2 = (Value (Some t), st2)) /\
  (let st2 := complete j false st1 in
   store st2 = Some t /\ cachedAuthToken st2 = cachedAuthToken st /\
   tokenCachePromise st2 = tokenCachePromise st).
Proof.
  intros Hi st1 j.
  assert (tasks st1 = delete i (tasks st) ++ [TStoreUser t]) as Ht.
  { unfold st1, complete. rewrite Hi. reflexivity. }
  assert (length (delete i (tasks st)) = j) as Hl.
  { rewrite length_delete by (rewrite Hi; eauto). unfold j. lia. }
  assert (tasks st1 !! j = Some (TStoreUser t)) as Hj.
  { rewrite Ht, lookup_app_r by lia. rewrite Hl, Nat.sub_diag. reflexivity. }
  assert (store st1 = Some t) as Hs
    by (unfold st1, complete; rewrite Hi; reflexivity).
  assert (cachedAuthToken st1 = cachedAuthToken st) as Hc
    by (unfold st1, complete; rewrite Hi; reflexivity).
  assert (tokenCachePromise st1 = tokenCachePromise st) as Hp
    by (unfold st1, complete; rewrite Hi; reflexivity).
  repeat split; try assumption;
    unfold complete; rewrite Hj; cbn; auto.
Qed.

Lemma login_installs_token_witness :
  let st := run (cold None) [EvRequest; EvComplete 0 true; EvLogin "T";
                            EvComplete 0 true; EvComplete 0 true] in
  store st = Some "T"%string /\ cachedAuthToken st = Some "T"%string.
Proof.
  destruct (login_installs_token
              (run (cold None) [EvRequest; EvComplete 0 true; EvLogin "T"])
              0%nat "T" eq_refl) as (_ & _ & _ & (H1 & H2 & _) & _).
  split; [exact H1 | exact H2].
Defined.

End TokenCache.

(** ** Deduplication of reads ([src/services/api.ts], lines 246-282 and
       the four read functions of [deviceAPI]) *)

Module Coordinator.

Record PendingRequest := mkPending {
  promise : nat;
  timestamp : Z
}.

#[global] Instance PendingRequest_eq_dec : EqDecision PendingRequest.
Proof. solve_decision. Defined.

Inductive Outcome :=
| Fulfilled (data : string)
| Rejected (error : string).

Definition REQUEST_CACHE_TTL : Z := 1000.

Record State := mkState {
  pendingRequests : gmap string PendingRequest;
  (* every promise made by a read: the key its [finally] callback
     deletes, and its outcome once settled *)
  promises : list (string * option Outcome);
  (* the calls of [api.get], by url *)
  network : list string
}.

Definition initial : State := mkState ∅ [] [].

Definition getCacheKey (url method : string) : string :=
  (method ++ ":" ++ url)%string.

(** [cleanupCache], reading the clock at [now]. *)
Definition cleanupCache (now : Z) (m : gmap string PendingRequest)
    : gmap string PendingRequest :=
  filter (fun kv => ~ (now - timestamp kv.2 > REQUEST_CACHE_TTL)) m.

(** [cleanupAndCache key promise]; the clock is read once by
    [cleanupCache] and once for the timestamp of the entry. *)
Definition cleanupAndCache (key : string) (p : nat) (now' now'' : Z)
    (st : State) : State :=
  mkState (<[key := mkPending p now'']> (cleanupCache now' (pendingRequests st)))
    (promises st) (network st).

(** The body shared, word for word, by [getMyDevices], [getDeviceStatus],
    [getDeviceCurrentStatus] and [getDeviceAlerts]; [now] is the clock
    read of the test, [now'] and [now''] those of [cleanupAndCache]. *)
Definition coordinatedGet (url : string) (now now' now'' : Z)
    (st : State) : nat * State :=
  let cacheKey := getCacheKey url "GET" in
  let fresh :=
    let p := length (promises st) in
    (p, cleanupAndCache cacheKey p now' now''
          (mkState (pendingRequests st)
             (promises st ++ [(cacheKey, None)])
             (network st ++ [url]))) in
  match pendingRequests st !! cacheKey with
  | Some pending =>
      if bool_decide (now - timestamp pending < REQUEST_CACHE_TTL)
      then (promise pending, st)
      else fresh
  | None => fresh
  end.

Definition getMyDevices := coordinatedGet "/me/devices".
Definition getDeviceStatus (deviceId : string) :=
  coordinatedGet ("/devices/" ++ deviceId ++ "/status").
Definition getDeviceCurrentStatus (deviceId : string) :=
  coordinatedGet ("/devices/" ++ deviceId ++ "/current").
Definition getDeviceAlerts (deviceId : string) :=
  coordinatedGet ("/api/devices/" ++ deviceId ++ "/alerts").

(** Promise [p] settles: its outcome becomes visible to whoever holds
    it, and its [finally] callback deletes the key it was cached under. *)
Definition settle (p : nat) (o : Outcome) (st : State) : State :=
  match promises st !! p with
  | Some (key, None) =>
      mkState (delete key (pendingRequests st))
        (<[p := (key, Some o)]> (promises st)) (network st)
  | _ => st
  end.

Definition outcome (st : State) (p : nat) : option Outcome :=
  match promises st !! p with
  | Some (_, o) => o
  | None => None
  end.

Inductive Event :=
| EvGet (url : string) (now now' now'' : Z)
| EvSettle (p : nat) (o : Outcome).

(** A step, with the promise handed to the caller if it is a read. *)
Definition step (st : State) (e : Event) : option nat * State :=
  match e with
  | EvGet url now now' now'' =>
      let '(p, st') := coordinatedGet url now now' now'' st in (Some p, st')
  | EvSettle p o => (None, settle p o st)
  end.

Fixpoint run (st : State) (es : list Event) : list (option nat) * State :=
  match es with
  | [] => ([], st)
  | e :: es' =>
      let '(a, st1) := step st e in
      let '(l, st2) := run st1 es' in
      (a :: l, st2)
  end.

(** How often [api.get] was called for [url]. *)
Definition calls (st : State) (url : string) : nat :=
  count_occ String.string_dec (network st) url.

(** Events that leave the entry [(p, t0)] of [key] in place: reads of
    [key] before the entry expires, reads of other keys whose sweep does
    not find the entry stale, and the settling of promises that were
    cached under other keys. *)
Definition benign (key : string) (t0 : Z) (st : State) (e : Event) : Prop :=
  match e with
  | EvGet url now now' _ =>
      if decide (getCacheKey url "GET" = key)
      then now - t0 < REQUEST_CACHE_TTL
      else ~ (now' - t0 > REQUEST_CACHE_TTL)
  | EvSettle q _ =>
      forall k o, promises st !! q = Some (k, o) -> k <> key
  end.

Fixpoint benignRun (key : string) (t0 : Z) (st : State) (es : list Event)
    : Prop :=
  match es with
  | [] => True
  | e :: es' => benign key t0 st e /\ benignRun key t0 (snd (step st e)) es'
  end.

(** The answer to a read of [key] is [p]. *)
Definition answered (key : string) (p : nat) (e : Event) (a : option nat)
    : Prop :=
  match e with
  | EvGet url _ _ _ => getCacheKey url "GET" = key -> a = Some p
  | EvSettle _ _ => True
  end.

(** *** Proofs *)

Lemma getCacheKey_inj url url' m :
  getCacheKey url m = getCacheKey url' m -> url = url'.
Proof.
  unfold getCacheKey. induction m as [|c m IH]; simpl.
  - intros [= H]. exact H.
  - intros [= H]. auto.
Qed.

Lemma get_hit url now now' now'' st e :
  pendingRequests st !! getCacheKey url "GET" = Some e ->
  now - timestamp e < REQUEST_CACHE_TTL ->
  coordinatedGet url now now' now'' st = (promise e, st).
Proof.
  intros He Ht. unfold coordinatedGet. rewrite He.
  rewrite bool_decide_eq_true_2 by exact Ht. reflexivity.
Qed.

Lemma get_miss url now now' now'' st :
  (forall e, pendingRequests st !! getCacheKey url "GET" = Some e ->
             ~ (now - timestamp e < REQUEST_CACHE_TTL)) ->
  coordinatedGet url now now' now'' st
  = (length (promises st),
     mkState
       (<[getCacheKey url "GET" := mkPending (length (promises st)) now'']>
          (cleanupCache now' (pendingRequests st)))
       (promises st ++ [(getCacheKey url "GET", None)])
       (network st ++ [url])).
Proof.
  intros H. unfold coordinatedGet.
  destruct (pendingRequests st !! getCacheKey url "GET") as [e|] eqn:He;
    [|reflexivity].
  rewrite bool_decide_eq_false_2 by (apply H; reflexivity). reflexivity.
Qed.

Lemma cleanupCache_keeps now m key e :
  m !! key = Some e -> ~ (now - timestamp e > REQUEST_CACHE_TTL) ->
  cleanupCache now m !! key = Some e.
Proof.
  intros He Ht. unfold cleanupCache.
  apply map_lookup_filter_Some. split; [exact He | exact Ht].
Qed.

Lemma calls_app st url url' :
  count_occ String.string_dec (network st ++ [url']) url
  = (calls st url + (if decide (url' = url) then 1 else 0))%nat.
Proof.
  unfold calls. rewrite count_occ_app. simpl.
  destruct (String.string_dec url' url), (decide (url' = url));
    try contradiction; reflexivity.
Qed.

(** The state of the entry of [url] that the benign events preserve. *)
Definition held (url : string) (p : nat) (t0 : Z) (n : nat) (st : State)
    : Prop :=
  pendingRequests st !! getCacheKey url "GET" = Some (mkPending p t0) /\
  promises st !! p = Some (getCacheKey url "GET", None) /\
  calls st url = n.

Lemma held_step url p t0 n st e :
  held url p t0 n st -> benign (getCacheKey url "GET") t0 st e ->
  held url p t0 n (snd (step st e)) /\
  answered (getCacheKey url "GET") p e (fst (step st e)).
Proof.
  intros (He & Hp & Hn) Hb. destruct e as [url' now now' now''|q o]; simpl.
  - simpl in Hb.
    destruct (decide (getCacheKey url' "GET" = getCacheKey url "GET"))
      as [Hk|Hk].
    + apply getCacheKey_inj in Hk. subst url'.
      rewrite (get_hit url now now' now'' st _ He) by exact Hb.
      simpl. split; [split; auto | auto].
    + destruct (coordinatedGet url' now now' now'' st) as [q st'] eqn:E.
      simpl. split; [|intros; contradiction].
      unfold coordinatedGet in E.
      assert (st' = st \/
              st' = mkState
                (<[getCacheKey url' "GET" := mkPending (length (promises st)) now'']>
                   (cleanupCache now' (pendingRequests st)))
                (promises st ++ [(getCacheKey url' "GET", None)])
                (network st ++ [url'])) as [->| ->].
      { destruct (pendingRequests st !! getCacheKey url' "GET") as [e'|];
          [destruct (bool_decide _)|]; injection E as <- <-; auto. }
      * split; auto.
      * split; [|split]; simpl.
        -- rewrite lookup_insert_ne by exact Hk.
           apply cleanupCache_keeps; [exact He | exact Hb].
        -- rewrite lookup_app_l; [exact Hp|].
           eapply lookup_lt_Some. exact Hp.
        -- unfold calls at 1. simpl. rewrite calls_app.
           destruct (decide (url' = url)); [subst; contradiction|]. lia.
  - split; [|exact I]. simpl in Hb. unfold settle.
    destruct (promises st !! q) as [[k [o'|]]|] eqn:Eq;
      try (split; auto; fail).
    assert (k <> getCacheKey url "GET") as Hk by (eapply Hb; eauto).
    split; [|split]; simpl.
    + rewrite lookup_delete_ne by exact Hk. exact He.
    + rewrite list_lookup_insert_ne; [exact Hp|]. congruence.
    + exact Hn.
Qed.

Lemma held_run url p t0 n es : forall st,
  held url p t0 n st -> benignRun (getCacheKey url "GET") t0 st es ->
  held url p t0 n (snd (run st es)) /\
  Forall2 (answered (getCacheKey url "GET") p) es (fst (run st es)).
Proof.
  induction es as [|e es IH]; intros st Hh Hb; simpl.
  - split; [exact Hh | constructor].
  - destruct Hb as [Hb Hbs].
    destruct (held_step url p t0 n st e Hh Hb) as [Hh1 Ha].
    destruct (step st e) as [a st1]. simpl in *.
    destruct (IH st1 Hh1 Hbs) as [Hh2 Has].
    destruct (run st1 es) as [l st2]. simpl in *.
    split; [exact Hh2 | constructor; assumption].
Qed.

Lemma miss_calls url now now' now'' st :
  (forall e, pendingRequests st !! getCacheKey url "GET" = Some e ->
             ~ (now - timestamp e < REQUEST_CACHE_TTL)) ->
  calls (snd (coordinatedGet url now now' now'' st)) url = S (calls st url).
Proof.
  intros H. rewrite (get_miss url now now' now'' st H). simpl.
  unfold calls at 1. simpl. rewrite calls_app.
  destruct (decide (url = url)); [lia | contradiction].
Qed.

(** C1.  A read of [url] that finds no unexpired entry calls [api.get]
    once and caches its promise [p].  Every read of the same url made
    while that entry is registered and unexpired is handed [p] and
    calls nothing, whatever reads of other keys and settlements of their
    promises come in between: one network call for all of them.  The
    callers hold one promise, so they observe one outcome, fulfilment or
    rejection.  When [p] settles its entry is deleted, whatever the age
    of the entry, and the next read calls [api.get] again; so does a
    read made once the entry is [REQUEST_CACHE_TTL] old. *)
Theorem reads_share_one_call url now now' t0 st es :
  (forall e, pendingRequests st !! getCacheKey url "GET" = Some e ->
             ~ (now - timestamp e < REQUEST_CACHE_TTL)) ->
  let key := getCacheKey url "GET" in
  let p := fst (coordinatedGet url now now' t0 st) in
  let st1 := snd (coordinatedGet url now now' t0 st) in
  benignRun key t0 st1 es ->
  let answers := fst (run st1 es) in
  let st2 := snd (run st1 es) in
  calls st1 url = S (calls st url) /\
  calls st2 url = S (calls st url) /\
  Forall2 (answered key p) es answers /\
  (forall o,
     outcome (settle p o st2) p = Some o /\
     pendingRequests (settle p o st2) !! key = None /\
     forall t t' t'',
       calls (snd (coordinatedGet url t t' t'' (settle p o st2))) url
       = S (S (calls st url))) /\
  (forall t t' t'',
     ~ (t - t0 < REQUEST_CACHE_TTL) ->
     calls (snd (coordinatedGet url t t' t'' st2)) url
     = S (S (calls st url))).
Proof.
  intros Hmiss key p st1 Hb answers st2. subst key.
  assert (held url p t0 (S (calls st url)) st1) as Hh.
  { subst p st1. rewrite (get_miss url now now' t0 st Hmiss). simpl.
    split; [|split]; simpl.
    - apply lookup_insert_eq.
    - rewrite lookup_app_r by lia. rewrite Nat.sub_diag. reflexivity.
    - unfold calls at 1. simpl. rewrite calls_app.
      destruct (decide (url = url)); [lia | contradiction]. }
  destruct (held_run url p t0 _ es st1 Hh Hb) as [(He & Hp & Hn) Has].
  fold st2 in He, Hp, Hn. fold answers in Has.
  split; [apply Hh|]. split; [exact Hn|]. split; [exact Has|]. split.
  - intros o.
    assert (settle p o st2
            = mkState (delete (getCacheKey url "GET") (pendingRequests st2))
                (<[p := (getCacheKey url "GET", Some o)]> (promises st2))
                (network st2))
      as Hs by (unfold settle; rewrite Hp; reflexivity).
    assert (pendingRequests (settle p o st2) !! getCacheKey url "GET" = None)
      as Hgone
      by (rewrite Hs; simpl; apply lookup_delete_eq).
    split; [|split; [exact Hgone|]].
    + rewrite Hs. unfold outcome. simpl.
      rewrite list_lookup_insert_eq; [reflexivity|].
      eapply lookup_lt_Some. exact Hp.
    + intros t t' t''. rewrite miss_calls.
      * rewrite Hs. unfold calls in *. simpl. rewrite Hn. reflexivity.
      * intros e E. rewrite Hgone in E. discriminate.
  - intros t t' t'' Hexp. rewrite miss_calls; [rewrite Hn; reflexivity|].
    intros e E. rewrite He in E. injection E as <-.
    exact Hexp.
Qed.

(** The scenario of the design document: the status of [D1] is read
    twice within 200 ms, and once more 1200 ms later. *)
Lemma reads_share_one_call_witness :
  let st1 := snd (getDeviceStatus "D1" 0 0 0 initial) in
  let st2 := snd (getDeviceStatus "D1" 200 200 200 st1) in
  fst (getDeviceStatus "D1" 200 200 200 st1) = 0%nat /\
  calls st2 "/devices/D1/status" = 1%nat /\
  calls (snd (getDeviceStatus "D1" 1200 1200 1200 st2)) "/devices/D1/status"
  = 2%nat.
Proof.
  destruct (reads_share_one_call "/devices/D1/status" 0 0 0 initial
              [EvGet "/devices/D1/status" 200 200 200])
    as (_ & H2 & H3 & _ & H5).
  - intros e E. cbn in E. rewrite lookup_empty in E. discriminate.
  - simpl. split; [|exact I]. vm_compute. reflexivity.
  - split; [|split].
    + inversion H3 as [|? ? ? ? Ha _]; subst. simpl in Ha.
      vm_compute. reflexivity.
    + exact H2.
    + apply (H5 1200 1200 1200). vm_compute. discriminate.
Defined.

(** *** What the registry holds *)

(** Every entry of the registry names a promise that was made for the
    entry's key and has not settled, and every promise stands for one
    call of [api.get]. *)
Definition registered (st : State) : Prop :=
  (forall k e, pendingRequests st !! k = Some e ->
               promises st !! promise e = Some (k, None)) /\
  map fst (promises st) = map (fun url => getCacheKey url "GET") (network st).

Lemma registered_initial : registered initial.
Proof.
  split; [|reflexivity]. intros k e H. cbn in H.
  rewrite lookup_empty in H. discriminate.
Qed.

Lemma get_cases url now now' now'' st :
  coordinatedGet url now now' now'' st
  = (length (promises st),
     mkState
       (<[getCacheKey url "GET" := mkPending (length (promises st)) now'']>
          (cleanupCache now' (pendingRequests st)))
       (promises st ++ [(getCacheKey url "GET", None)])
       (network st ++ [url])) \/
  exists e, pendingRequests st !! getCacheKey url "GET" = Some e /\
            now - timestamp e < REQUEST_CACHE_TTL /\
            coordinatedGet url now now' now'' st = (promise e, st).
Proof.
  unfold coordinatedGet.
  destruct (pendingRequests st !! getCacheKey url "GET") as [e|] eqn:He;
    [|left; reflexivity].
  destruct (bool_decide (now - timestamp e < REQUEST_CACHE_TTL)) eqn:Ht;
    [|left; reflexivity].
  right. exists e. apply bool_decide_eq_true in Ht. auto.
Qed.

Lemma registered_get url now now' now'' st :
  registered st ->
  registered (snd (coordinatedGet url now now' now'' st)) /\
  promises (snd (coordinatedGet url now now' now'' st))
    !! fst (coordinatedGet url now now' now'' st)
  = Some (getCacheKey url "GET", None).
Proof.
  intros [Hreg Hnet].
  destruct (get_cases url now now' now'' st) as [->|(e & He & _ & ->)]; cbn.
  - split; [split|].
    + intros k e. cbn.
      destruct (decide (getCacheKey url "GET" = k)) as [<-|Hk].
      * rewrite lookup_insert_eq. intros [= <-]. cbn.
        rewrite lookup_app_r by lia. rewrite Nat.sub_diag. reflexivity.
      * rewrite lookup_insert_ne by exact Hk. unfold cleanupCache.
        intros H. apply map_lookup_filter_Some in H. destruct H as [H _].
        apply Hreg in H. rewrite lookup_app_l; [exact H|].
        eapply lookup_lt_Some, H.
    + cbn. rewrite !map_app, Hnet. reflexivity.
    + rewrite lookup_app_r by lia. rewrite Nat.sub_diag. reflexivity.
  - split; [split; assumption|]. apply Hreg, He.
Qed.

Lemma registered_settle p o st : registered st -> registered (settle p o st).
Proof.
  intros [Hreg Hnet]. unfold settle.
  destruct (promises st !! p) as [[key [o'|]]|] eqn:Ep;
    try (split; assumption).
  split; cbn.
  - intros k e H.
    destruct (decide (key = k)) as [<-|Hk];
      [rewrite lookup_delete_eq in H; discriminate|].
    rewrite lookup_delete_ne in H by exact Hk. apply Hreg in H.
    rewrite list_lookup_insert_ne; [exact H|]. congruence.
  - rewrite <- Hnet. apply list_eq. intros i.
    rewrite !list_lookup_fmap.
    destruct (decide (p = i)) as [<-|Hne].
    + rewrite list_lookup_insert_eq by (eapply lookup_lt_Some, Ep).
      rewrite Ep. reflexivity.
    + rewrite list_lookup_insert_ne by exact Hne. reflexivity.
Qed.

Lemma registered_run es : forall st,
  registered st -> registered (snd (run st es)).
Proof.
  induction es as [|e es IH]; intros st H; cbn; [exact H|].
  assert (registered (snd (step st e))) as H1.
  { destruct e as [url now now' now''|p o]; cbn.
    - pose proof (registered_get url now now' now'' st H) as [H1 _].
      destruct (coordinatedGet url now now' now'' st). exact H1.
    - apply registered_settle, H. }
  destruct (step st e) as [a st1]. specialize (IH st1 H1).
  destruct (run st1 es) as [l st2]. exact IH.
Qed.

(** Whatever has happened before, a coordinated read hands out a promise
    that was made by a call for the same url and that has not settled:
    a result is shared while its call is in flight and is never replayed
    once the call has completed, and a read never gets the promise of
    another url.  Every promise ever handed out stands for exactly one
    call of [api.get]. *)
Theorem read_returns_a_call_in_flight es url now now' now'' :
  let st := snd (run initial es) in
  let p := fst (coordinatedGet url now now' now'' st) in
  let st' := snd (coordinatedGet url now now' now'' st) in
  promises st' !! p = Some (getCacheKey url "GET", None) /\
  outcome st' p = None /\
  length (promises st') = length (network st').
Proof.
  intros st p st'.
  pose proof (registered_run es initial registered_initial) as Hst.
  destruct (registered_get url now now' now'' st Hst) as [[_ Hnet] Hp].
  fold st' in Hnet, Hp. fold p in Hp.
  split; [exact Hp|]. split.
  - unfold outcome. rewrite Hp. reflexivity.
  - rewrite <- (length_map fst), Hnet, length_map. reflexivity.
Qed.

(** *** A call that outlives its entry *)

(** The [finally] callback of a promise deletes whatever is registered
    under its key.  When a call is still in flight after its entry has
    expired, the next read of the url starts a second call and registers
    it; the first call, settling, then deletes the entry of the second.
    From there on reads of the url are no longer joined to the second
    call, although it is in flight and its entry would not have expired:
    a read made at once starts a third call. *)
Theorem late_settlement_unregisters_newer_call st url p1 t0 now now' now'' o :
  pendingRequests st !! getCacheKey url "GET" = Some (mkPending p1 t0) ->
  promises st !! p1 = Some (getCacheKey url "GET", None) ->
  ~ (now - t0 < REQUEST_CACHE_TTL) ->
  let p2 := fst (coordinatedGet url now now' now'' st) in
  let st1 := snd (coordinatedGet url now now' now'' st) in
  let st2 := settle p1 o st1 in
  p2 <> p1 /\
  pendingRequests st1 !! getCacheKey url "GET" = Some (mkPending p2 now'') /\
  outcome st2 p2 = None /\
  pendingRequests st2 !! getCacheKey url "GET" = None /\
  forall t t' t'',
    fst (coordinatedGet url t t' t'' st2) <> p2 /\
    calls (snd (coordinatedGet url t t' t'' st2)) url = S (S (calls st url)).
Proof.
  intros He Hp Ht p2 st1 st2.
  assert (p1 < length (promises st))%nat as Hlt by (eapply lookup_lt_Some, Hp).
  assert (coordinatedGet url now now' now'' st
          = (length (promises st),
             mkState
               (<[getCacheKey url "GET" := mkPending (length (promises st)) now'']>
                  (cleanupCache now' (pendingRequests st)))
               (promises st ++ [(getCacheKey url "GET", None)])
               (network st ++ [url]))) as E.
  { apply get_miss. intros e He'. rewrite He in He'. injection He' as <-.
    exact Ht. }
  assert (promises st1 !! p1 = Some (getCacheKey url "GET", None)) as Hp1.
  { unfold st1. rewrite E. cbn. rewrite lookup_app_l by exact Hlt. exact Hp. }
  assert (st2 = mkState (delete (getCacheKey url "GET") (pendingRequests st1))
                  (<[p1 := (getCacheKey url "GET", Some o)]> (promises st1))
                  (network st1)) as E2.
  { unfold st2, settle. rewrite Hp1. reflexivity. }
  assert (p2 = length (promises st)) as Ep2 by (unfold p2; rewrite E; reflexivity).
  assert (pendingRequests st2 !! getCacheKey url "GET" = None) as Hgone.
  { rewrite E2. cbn. apply lookup_delete_eq. }
  split; [lia|]. split; [|split; [|split; [exact Hgone|]]].
  - unfold st1. rewrite E, Ep2. cbn. apply lookup_insert_eq.
  - unfold outcome. rewrite E2. cbn.
    rewrite list_lookup_insert_ne by lia.
    unfold st1. rewrite E, Ep2. cbn.
    rewrite lookup_app_r by lia. rewrite Nat.sub_diag. reflexivity.
  - intros t t' t''.
    assert (forall e, pendingRequests st2 !! getCacheKey url "GET" = Some e ->
                      ~ (t - timestamp e < REQUEST_CACHE_TTL)) as Hmiss
      by (intros e H; rewrite Hgone in H; discriminate).
    split.
    + rewrite (get_miss url t t' t'' st2 Hmiss). cbn.
      rewrite E2. cbn. rewrite length_insert.
      unfold st1. rewrite E, Ep2. cbn. rewrite length_app. cbn. lia.
    + rewrite (miss_calls url t t' t'' st2 Hmiss). f_equal.
      rewrite E2. unfold calls. cbn. fold (calls st1 url).
      unfold st1. apply miss_calls.
      intros e He'. rewrite He in He'. injection He' as <-. exact Ht.
Qed.

Lemma late_settlement_unregisters_newer_call_witness :
  let st := snd (run initial [EvGet "/me/devices" 0 0 0;
                              EvGet "/me/devices" 1000 1000 1000;
                              EvSettle 0 (Fulfilled "[]")]) in
  pendingRequests st !! getCacheKey "/me/devices" "GET" = None /\
  outcome st 1%nat = None.
Proof.
  destruct (late_settlement_unregisters_newer_call
              (snd (run initial [EvGet "/me/devices" 0 0 0]))
              "/me/devices" 0%nat 0 1000 1000 1000 (Fulfilled "[]"))
    as (_ & _ & H1 & H2 & _).
  - reflexivity.
  - reflexivity.
  - unfold REQUEST_CACHE_TTL. lia.
  - split; [exact H2 | exact H1].
Defined.

(** *** The four coordinated endpoints *)

Inductive Read :=
| MyDevices
| DeviceStatus (deviceId : string)
| DeviceCurrentStatus (deviceId : string)
| DeviceAlerts (deviceId : string).

(** The url a read is made for. *)
Definition urlOf (r : Read) : string :=
  match r with
  | MyDevices => "/me/devices"
  | DeviceStatus d => "/devices/" ++ d ++ "/status"
  | DeviceCurrentStatus d => "/devices/" ++ d ++ "/current"
  | DeviceAlerts d => "/api/devices/" ++ d ++ "/alerts"
  end.

Definition perform (r : Read) : Z -> Z -> Z -> State -> nat * State :=
  match r with
  | MyDevices => getMyDevices
  | DeviceStatus d => getDeviceStatus d
  | DeviceCurrentStatus d => getDeviceCurrentStatus d
  | DeviceAlerts d => getDeviceAlerts d
  end.

Lemma perform_urlOf r : perform r = coordinatedGet (urlOf r).
Proof. destruct r; reflexivity. Qed.

Lemma String_app c (x y : string) :
  (String c x ++ y = String c (x ++ y))%string.
Proof. reflexivity. Qed.

Lemma empty_app (y : string) : (EmptyString ++ y = y)%string.
Proof. reflexivity. Qed.

Fixpoint lastChar (s : string) (d : ascii) : ascii :=
  match s with
  | EmptyString => d
  | String c t => lastChar t c
  end.

Lemma lastChar_app (x : string) : forall c t d,
  lastChar (x ++ String c t) d = lastChar t c.
Proof.
  induction x as [|a x IH]; intros c t d.
  - rewrite empty_app. reflexivity.
  - rewrite String_app. cbn [lastChar]. apply IH.
Qed.

Lemma length_app_string (x y : string) :
  String.length (x ++ y) = (String.length x + String.length y)%nat.
Proof.
  induction x as [|a x IH]; [reflexivity|].
  rewrite String_app. cbn [String.length]. rewrite IH. reflexivity.
Qed.

Lemma suffix_cancel (s : string) : forall x y : string,
  (x ++ s = y ++ s)%string -> x = y.
Proof.
  induction x as [|a x IH]; intros [|b y] H.
  - reflexivity.
  - apply (f_equal String.length) in H.
    rewrite String_app, empty_app in H. cbn [String.length] in H.
    rewrite length_app_string in H. lia.
  - apply (f_equal String.length) in H.
    rewrite String_app, empty_app in H. cbn [String.length] in H.
    rewrite length_app_string in H. lia.
  - rewrite !String_app in H. injection H as -> H. f_equal. apply IH, H.
Qed.

Lemma ends_differ (x y : string) c t c' t' :
  lastChar t c <> lastChar t' c' ->
  (x ++ String c t)%string <> (y ++ String c' t')%string.
Proof.
  intros Hne H. apply Hne.
  rewrite <- (lastChar_app x c t "000"), <- (lastChar_app y c' t' "000"), H.
  reflexivity.
Qed.

(** The registry keys of the four endpoints never coincide: two reads
    are joined only if they are calls of the same function for the same
    device, whatever characters the device ids contain. *)
Theorem endpoints_have_their_own_keys r1 r2 :
  getCacheKey (urlOf r1) "GET" = getCacheKey (urlOf r2) "GET" -> r1 = r2.
Proof.
  intros H. apply (getCacheKey_inj _ _ "GET") in H. revert H.
  destruct r1 as [|d1|d1|d1], r2 as [|d2|d2|d2]; unfold urlOf;
    rewrite ?String_app, ?empty_app; intros H;
    try reflexivity; try discriminate.
  - injection H as H. apply suffix_cancel in H. congruence.
  - injection H as H. exfalso. revert H. apply ends_differ. discriminate.
  - injection H as H. exfalso. revert H. apply ends_differ. discriminate.
  - injection H as H. apply suffix_cancel in H. congruence.
  - injection H as H. apply suffix_cancel in H. congruence.
Qed.

Lemma endpoints_have_their_own_keys_witness :
  DeviceStatus "d1" = DeviceStatus "d1".
Proof. apply endpoints_have_their_own_keys. reflexivity. Defined.

End Coordinator.

(** ** Change detection ([src/utils/performance-utils.ts])

    The repository holds two revisions of [hashData]: one that hashes the
    structure itself, with sorted keys ([Structural]), and one that hands
    the value to [JSON.stringify] ([Serialized]). *)

Module Hash.

(** *** JavaScript values

    Objects and arrays are references into a heap, so that a value can
    contain itself.  Strings are sequences of code units below 256,
    numbers are integral. *)

Definition addr := nat.

Inductive value :=
| VUndefined
| VNull
| VBool (b : bool)
| VNum (n : Z)
| VStr (s : string)
| VRef (a : addr).

Inductive object :=
| OArray (elems : list value)
| OObject (props : list (string * value)).  (* in the order of Object.keys *)

Abbreviation heap := (gmap addr object).

(** [typeof data] *)
Definition typeOf (data : value) : string :=
  match data with
  | VUndefined => "undefined"
  | VNull => "object"
  | VBool _ => "boolean"
  | VNum _ => "number"
  | VStr _ => "string"
  | VRef _ => "object"
  end.

(** [data[key]] *)
Fixpoint getProp (props : list (string * value)) (key : string) : value :=
  match props with
  | [] => VUndefined
  | (k, v) :: rest => if String.eqb k key then v else getProp rest key
  end.

(** [keys.sort()]: without a comparator, strings are ordered by code
    units.  The keys of an object are distinct, so the result does not
    depend on the sorting algorithm. *)
Fixpoint insert (x : string) (l : list string) : list string :=
  match l with
  | [] => [x]
  | y :: l' => if String.leb x y then x :: l else y :: insert x l'
  end.

Fixpoint sort (l : list string) : list string :=
  match l with
  | [] => []
  | x :: l' => insert x (sort l')
  end.

Module Structural.

(** [String(data)] for the values that are not objects. *)
Definition primitiveToString (data : value) : string :=
  match data with
  | VUndefined => "undefined"
  | VNull => "null"
  | VBool true => "true"
  | VBool false => "false"
  | VNum n => showZ n
  | VStr s => s
  | VRef _ => ""
  end.

(** The [catch] block. *)
Definition fallback (data : value) (now : Z) : string :=
  ("[hash-error:" ++ typeOf data ++ ":" ++ showZ now ++ "]")%string.

(** [stack] bounds the depth of nested calls: the call of [hashData]
    from a frame that has no room left throws a [RangeError] inside
    that frame's [try].  Nothing else throws. *)
Fixpoint hashData (stack : nat) (h : heap) (now : Z) (data : value)
    : string :=
  let attempt : option string :=
    match data with
    | VRef a =>
        match stack with
        | O => None
        | S stack' =>
            match h !! a with
            | Some (OArray elems) =>
                Some ("[" ++ String.concat "," (map (hashData stack' h now) elems)
                      ++ "]")%string
            | Some (OObject props) =>
                let sortedKeys := sort (map fst props) in
                let pairs :=
                  map (fun key =>
                         (key ++ ":"
                          ++ hashData stack' h now (getProp props key))%string)
                    sortedKeys in
                Some ("{" ++ String.concat "," pairs ++ "}")%string
            | None => None
            end
        end
    | _ => Some (primitiveToString data)
    end in
  match attempt with
  | Some s => s
  | None => fallback data now
  end.

End Structural.

Module Serialized.

Definition dquote : ascii := ascii_of_nat 34.

Definition hexDigit (n : nat) : ascii :=
  ascii_of_nat (if Nat.ltb n 10 then 48 + n else 87 + n).

(** The escapes of [JSON.stringify] for one code unit. *)
Definition escapeChar (c : ascii) : string :=
  let n := nat_of_ascii c in
  if Nat.eqb n 34 then String "\" (String dquote "")
  else if Nat.eqb n 92 then "\\"
  else if Nat.eqb n 8 then "\b"
  else if Nat.eqb n 9 then "\t"
  else if Nat.eqb n 10 then "\n"
  else if Nat.eqb n 12 then "\f"
  else if Nat.eqb n 13 then "\r"
  else if Nat.ltb n 32
       then ("\u00" ++ String (hexDigit (n / 16))
                         (String (hexDigit (n mod 16)) ""))%string
       else String c "".

Fixpoint escape (s : string) : string :=
  match s with
  | EmptyString => EmptyString
  | String c s' => (escapeChar c ++ escape s')%string
  end.

Definition quote (s : string) : string :=
  String dquote (escape s ++ String dquote "")%string.

Inductive jsonResult :=
| JText (s : string)
| JUndefined
| JThrows.

(** Array elements: [undefined] is written [null]. *)
Fixpoint elements (rs : list jsonResult) : option (list string) :=
  match rs with
  | [] => Some []
  | JText s :: rest => cons s <$> elements rest
  | JUndefined :: rest => cons "null"%string <$> elements rest
  | JThrows :: _ => None
  end.

(** Object members: a property whose value is [undefined] is left out. *)
Fixpoint members (rs : list (string * jsonResult)) : option (list string) :=
  match rs with
  | [] => Some []
  | (k, JText s) :: rest =>
      cons (quote k ++ ":" ++ s)%string <$> members rest
  | (_, JUndefined) :: rest => members rest
  | (_, JThrows) :: _ => None
  end.

(** [JSON.stringify(data)].  [ancestors] are the objects being
    serialized; meeting one of them again is the [TypeError]
    "Converting circular structure to JSON".  [stack] is as above. *)
Fixpoint stringify (stack : nat) (h : heap) (ancestors : list addr)
    (data : value) : jsonResult :=
  match data with
  | VUndefined => JUndefined
  | VNull => JText "null"
  | VBool true => JText "true"
  | VBool false => JText "false"
  | VNum n => JText (showZ n)
  | VStr s => JText (quote s)
  | VRef a =>
      if bool_decide (a ∈ ancestors) then JThrows
      else
        match stack with
        | O => JThrows
        | S stack' =>
            match h !! a with
            | Some (OArray elems) =>
                match elements
                        (map (stringify stack' h (a :: ancestors)) elems)
                with
                | Some parts => JText ("[" ++ String.concat "," parts ++ "]")
                | None => JThrows
                end
            | Some (OObject props) =>
                match members
                        (map (fun kv =>
                                (kv.1,
                                 stringify stack' h (a :: ancestors) kv.2))
                           props)
                with
                | Some parts => JText ("{" ++ String.concat "," parts ++ "}")
                | None => JThrows
                end
            | None => JThrows
            end
        end
  end.

(** [String(data)]: a plain object prints as [[object Object]], an
    array as its elements joined by commas, [null] and [undefined]
    elements printing as nothing and an array met again while it is
    being joined as the empty string.  [None] is a [RangeError]. *)
Fixpoint toString (stack : nat) (h : heap) (joining : list addr)
    (data : value) : option string :=
  match data with
  | VUndefined => Some "undefined"%string
  | VNull => Some "null"%string
  | VBool true => Some "true"%string
  | VBool false => Some "false"%string
  | VNum n => Some (showZ n)
  | VStr s => Some s
  | VRef a =>
      match h !! a with
      | Some (OObject _) => Some "[object Object]"%string
      | Some (OArray elems) =>
          if bool_decide (a ∈ joining) then Some ""%string
          else
            match stack with
            | O => None
            | S stack' =>
                String.concat "," <$>
                  mapM (fun e =>
                          match e with
                          | VUndefined | VNull => Some ""%string
                          | _ => toString stack' h (a :: joining) e
                          end) elems
            end
      | None => None
      end
  end.

(** What a call of [hashData] comes to: it returns a string, or
    [undefined] ([Returns None]), or it throws. *)
Inductive result :=
| Returns (r : option string)
| Throws.

Definition hashData (stack : nat) (h : heap) (data : value) : result :=
  match stringify stack h [] data with
  | JText s => Returns (Some s)
  | JUndefined => Returns None
  | JThrows =>
      match toString stack h [] data with
      | Some s => Returns (Some s)
      | None => Throws
      end
  end.

End Serialized.

(** *** Sample values *)

(** [{a: 1, b: 2}], [{b: 2, a: 1}], [[1, 2]], [[2, 1]] and an object
    that contains itself, [o.self = o]. *)
Definition heap_ab : heap := {[ 0%nat := OObject [("a"%string, VNum 1); ("b"%string, VNum 2)] ]}.
Definition heap_ba : heap := {[ 0%nat := OObject [("b"%string, VNum 2); ("a"%string, VNum 1)] ]}.
Definition heap_12 : heap := {[ 0%nat := OArray [VNum 1; VNum 2] ]}.
Definition heap_21 : heap := {[ 0%nat := OArray [VNum 2; VNum 1] ]}.
Definition heap_self : heap := {[ 0%nat := OObject [("self"%string, VRef 0%nat)] ]}.

(** *** Sorting the keys *)

Lemma leb_spec x y :
  String.leb x y = true <-> x = y \/ OrderedTypeEx.String_as_OT.lt x y.
Proof.
  unfold String.leb. split.
  - destruct (String.compare x y) eqn:E; [left|right|discriminate].
    + apply String.compare_eq_iff, E.
    + apply OrderedTypeEx.String_as_OT.cmp_lt, E.
  - intros [->|H].
    + assert (String.compare y y = Eq) as ->; [|reflexivity].
      apply OrderedTypeEx.String_as_OT.cmp_eq. reflexivity.
    + apply OrderedTypeEx.String_as_OT.cmp_lt in H.
      unfold OrderedTypeEx.String_as_OT.cmp in H. rewrite H. reflexivity.
Qed.

Lemma leb_trans x y z :
  String.leb x y = true -> String.leb y z = true -> String.leb x z = true.
Proof.
  rewrite !leb_spec. intros [->|H1] [->|H2]; auto.
  right. eapply OrderedTypeEx.String_as_OT.lt_trans; eauto.
Qed.

Definition ascending (l : list string) : Prop :=
  StronglySorted (fun x y => String.leb x y = true) l.

Lemma insert_perm x l : Permutation (insert x l) (x :: l).
Proof.
  induction l as [|y l IH]; simpl; [reflexivity|].
  destruct (String.leb x y); [reflexivity|].
  rewrite IH. apply perm_swap.
Qed.

Lemma sort_perm l : Permutation (sort l) l.
Proof.
  induction l as [|x l IH]; simpl; [reflexivity|].
  rewrite insert_perm, IH. reflexivity.
Qed.

Lemma insert_ascending x l : ascending l -> ascending (insert x l).
Proof.
  unfold ascending. induction 1 as [|y l Hl IH Hy]; simpl.
  - repeat constructor.
  - destruct (String.leb x y) eqn:E.
    + constructor; [constructor; assumption|].
      constructor; [exact E|].
      eapply Forall_impl; [exact Hy|]. simpl. intros z Hz.
      eapply leb_trans; eauto.
    + constructor; [exact IH|].
      assert (String.leb y x = true) as Hyx
        by (destruct (String.leb_total x y); congruence).
      apply Forall_forall. intros z Hz.
      apply (elem_of_Permutation_proper _ _ _ (insert_perm x l)) in Hz.
      apply elem_of_cons in Hz. destruct Hz as [->|Hz]; [exact Hyx|].
      rewrite Forall_forall in Hy. apply Hy, Hz.
Qed.

Lemma sort_ascending l : ascending (sort l).
Proof.
  induction l as [|x l IH]; simpl; [constructor|].
  apply insert_ascending, IH.
Qed.

Lemma ascending_unique l1 : forall l2,
  ascending l1 -> ascending l2 -> Permutation l1 l2 -> l1 = l2.
Proof.
  unfold ascending.
  induction l1 as [|x l1 IH]; intros l2 H1 H2 Hp.
  - apply Permutation_nil_l in Hp. congruence.
  - destruct l2 as [|y l2];
      [apply Permutation_nil_r in Hp; discriminate|].
    apply StronglySorted_inv in H1. destruct H1 as [H1 Hx].
    apply StronglySorted_inv in H2. destruct H2 as [H2 Hy].
    rewrite Forall_forall in Hx, Hy.
    assert (x = y) as ->.
    { assert (x ∈ y :: l2) as Hin
        by (rewrite <- Hp; apply list_elem_of_here).
      assert (y ∈ x :: l1) as Hin'
        by (rewrite Hp; apply list_elem_of_here).
      apply elem_of_cons in Hin. apply elem_of_cons in Hin'.
      destruct Hin as [?|Hin]; [assumption|].
      destruct Hin' as [?|Hin']; [congruence|].
      apply String.leb_antisym; [apply Hx, Hin' | apply Hy, Hin]. }
    f_equal. apply IH; try assumption.
    eapply Permutation_cons_inv. exact Hp.
Qed.

Lemma sort_permutation l1 l2 : Permutation l1 l2 -> sort l1 = sort l2.
Proof.
  intros Hp. apply ascending_unique; try apply sort_ascending.
  rewrite !sort_perm. exact Hp.
Qed.

(** *** Reading a property *)

Lemma getProp_elem props : forall k v,
  NoDup (map fst props) -> (k, v) ∈ props -> getProp props k = v.
Proof.
  induction props as [|[k' v'] props IH]; intros k v Hnd Hin; simpl.
  - inversion Hin.
  - simpl in Hnd. apply NoDup_cons in Hnd. destruct Hnd as [Hk Hnd].
    apply elem_of_cons in Hin. destruct Hin as [[= -> ->]|Hin].
    + rewrite String.eqb_refl. reflexivity.
    + destruct (String.eqb_spec k' k) as [->|Hne]; [|apply IH; assumption].
      exfalso. apply Hk. apply list_elem_of_fmap. exists (k, v). auto.
Qed.

Lemma getProp_permutation p1 p2 key :
  NoDup (map fst p1) -> Permutation p1 p2 -> key ∈ map fst p1 ->
  getProp p1 key = getProp p2 key.
Proof.
  intros Hnd Hp Hk. apply list_elem_of_fmap in Hk.
  destruct Hk as ([k v] & -> & Hin). simpl.
  rewrite (getProp_elem p1 k v Hnd Hin).
  symmetry. apply getProp_elem.
  - rewrite <- Hp. exact Hnd.
  - rewrite <- Hp. exact Hin.
Qed.

(** *** Independence of the order of keys *)

(** The objects at one address of two heaps are the same up to the order
    of their properties. *)
Definition sameUpToKeyOrder (o1 o2 : option object) : Prop :=
  match o1, o2 with
  | None, None => True
  | Some (OArray l1), Some (OArray l2) => l1 = l2
  | Some (OObject p1), Some (OObject p2) =>
      NoDup (map fst p1) /\ Permutation p1 p2
  | _, _ => False
  end.

Lemma structural_key_order stack : forall (h1 h2 : heap) now data,
  (forall a, sameUpToKeyOrder (h1 !! a) (h2 !! a)) ->
  Structural.hashData stack h1 now data
  = Structural.hashData stack h2 now data.
Proof.
  induction stack as [|stack IH]; intros h1 h2 now data Hh;
    destruct data as [| | | | |a]; try reflexivity.
  simpl. specialize (Hh a) as Ha. unfold sameUpToKeyOrder in Ha.
  destruct (h1 !! a) as [[l1|p1]|], (h2 !! a) as [[l2|p2]|];
    try contradiction; try reflexivity.
  - subst l2. do 3 f_equal. apply map_ext. intros v. apply IH, Hh.
  - destruct Ha as [Hnd Hp].
    rewrite (sort_permutation (map fst p1) (map fst p2))
      by (apply Permutation_map, Hp).
    do 3 f_equal. apply map_ext_in. intros key Hkey.
    rewrite (getProp_permutation p1 p2 key Hnd Hp).
    + f_equal. f_equal. apply IH, Hh.
    + apply list_elem_of_In in Hkey.
      apply (elem_of_Permutation_proper _ _ _ (sort_perm (map fst p2)))
        in Hkey.
      rewrite <- Hp in Hkey. exact Hkey.
Qed.


(** *** Decimal rendering is injective *)

Definition isDigit (c : ascii) : bool :=
  (Nat.leb 48 (nat_of_ascii c) && Nat.leb (nat_of_ascii c) 57)%bool.

Fixpoint allDigits (s : string) : bool :=
  match s with
  | EmptyString => true
  | String c s' => (isDigit c && allDigits s')%bool
  end.

(** The number a string of digits denotes, read after the prefix [acc]. *)
Fixpoint readDigits (acc : Z) (s : string) : Z :=
  match s with
  | EmptyString => acc
  | String c s' => readDigits (acc * 10 + (Z.of_nat (nat_of_ascii c) - 48)) s'
  end.

Lemma digitChar_code d :
  0 <= d < 10 -> nat_of_ascii (digitChar d) = (48 + Z.to_nat d)%nat.
Proof.
  intros Hd. unfold digitChar. apply nat_ascii_embedding. lia.
Qed.

Lemma digitChar_isDigit d : 0 <= d < 10 -> isDigit (digitChar d) = true.
Proof.
  intros Hd. unfold isDigit. rewrite digitChar_code by exact Hd.
  apply andb_true_intro. split; apply Nat.leb_le; lia.
Qed.

Lemma showPos_step fuel n acc :
  showPos (S fuel) n acc
  = if n / 10 =? 0 then String (digitChar (n mod 10)) acc
    else showPos fuel (n / 10) (String (digitChar (n mod 10)) acc).
Proof. reflexivity. Qed.

Lemma showPos_digits fuel : forall n acc,
  0 <= n -> allDigits acc = true -> allDigits (showPos fuel n acc) = true.
Proof.
  induction fuel as [|fuel IH]; intros n acc Hn Hacc; [exact Hacc|].
  rewrite showPos_step.
  assert (allDigits (String (digitChar (n mod 10)) acc) = true) as H.
  { cbn [allDigits]. rewrite Hacc, andb_true_r.
    apply digitChar_isDigit, Z.mod_pos_bound. lia. }
  destruct (n / 10 =? 0); [exact H|].
  apply IH; [apply Z.div_pos; lia | exact H].
Qed.

Lemma readDigits_digit acc d s :
  0 <= d < 10 ->
  readDigits acc (String (digitChar d) s) = readDigits (acc * 10 + d) s.
Proof.
  intros Hd. cbn [readDigits]. rewrite digitChar_code by exact Hd.
  f_equal. lia.
Qed.

Lemma showPos_read fuel : forall n acc,
  0 <= n < 10 ^ Z.of_nat fuel ->
  readDigits 0 (showPos fuel n acc) = readDigits n acc.
Proof.
  induction fuel as [|fuel IH]; intros n acc Hn.
  - change (10 ^ Z.of_nat 0) with 1 in Hn.
    assert (n = 0) as -> by lia. reflexivity.
  - rewrite showPos_step.
    pose proof (Z.mod_pos_bound n 10 ltac:(lia)) as Hm.
    pose proof (Z.div_mod n 10 ltac:(lia)) as Hd.
    destruct (n / 10 =? 0) eqn:E.
    + apply Z.eqb_eq in E. rewrite readDigits_digit by exact Hm.
      f_equal. lia.
    + apply Z.eqb_neq in E. rewrite IH.
      * rewrite readDigits_digit by exact Hm. f_equal. lia.
      * rewrite Nat2Z.inj_succ, Z.pow_succ_r in Hn by lia.
        split; [apply Z.div_pos; lia|].
        apply Z.div_lt_upper_bound; lia.
Qed.

Lemma showZ_nonneg n :
  0 <= n -> showZ n = showPos (S (Z.to_nat (Z.log2 n))) n EmptyString.
Proof.
  intros Hn. unfold showZ.
  destruct (n <? 0) eqn:E; [apply Z.ltb_lt in E; lia | reflexivity].
Qed.

Lemma showZ_read n : 0 <= n -> readDigits 0 (showZ n) = n.
Proof.
  intros Hn. rewrite showZ_nonneg by exact Hn.
  rewrite showPos_read; [reflexivity|].
  split; [exact Hn|].
  rewrite Nat2Z.inj_succ, Z2Nat.id by apply Z.log2_nonneg.
  destruct (Z.eq_dec n 0) as [->|Hz].
  - change (Z.log2 0) with 0. change (10 ^ Z.succ 0) with 10. lia.
  - pose proof (Z.log2_spec n ltac:(lia)) as [_ Hlt].
    eapply Z.lt_le_trans; [exact Hlt|].
    apply Z.pow_le_mono_l. lia.
Qed.

Lemma showZ_digits n : 0 <= n -> allDigits (showZ n) = true.
Proof.
  intros Hn. rewrite showZ_nonneg by exact Hn.
  apply showPos_digits; [exact Hn | reflexivity].
Qed.

Lemma showZ_inj a b : 0 <= a -> 0 <= b -> showZ a = showZ b -> a = b.
Proof.
  intros Ha Hb E. rewrite <- (showZ_read a Ha), <- (showZ_read b Hb), E.
  reflexivity.
Qed.

(** *** Strings *)

Lemma append_nil (y : string) : (EmptyString ++ y = y)%string.
Proof. reflexivity. Qed.

Lemma append_cons c (x y : string) :
  (String c x ++ y = String c (x ++ y))%string.
Proof. reflexivity. Qed.

Lemma append_assoc (x y z : string) :
  ((x ++ y) ++ z = x ++ (y ++ z))%string.
Proof.
  induction x as [|c x IH]; [reflexivity|].
  rewrite !append_cons. f_equal. exact IH.
Qed.

Lemma append_cancel (x y z : string) :
  (x ++ y = x ++ z)%string -> y = z.
Proof.
  induction x as [|c x IH]; [auto|].
  rewrite !append_cons. intros [= H]. auto.
Qed.

(** Two strings of digits, each followed by something that is not a
    digit: if the wholes agree, so do the digits. *)
Lemma digits_stop da : forall db c ta c' tb,
  allDigits da = true -> allDigits db = true ->
  isDigit c = false -> isDigit c' = false ->
  (da ++ String c ta = db ++ String c' tb)%string -> da = db.
Proof.
  induction da as [|x da IH]; intros db c ta c' tb Ha Hb Hc Hc' E;
    destruct db as [|y db];
    rewrite ?append_nil, ?append_cons in E; cbn [allDigits] in *.
  - reflexivity.
  - injection E as -> _. apply andb_prop in Hb. destruct Hb. congruence.
  - injection E as -> _. apply andb_prop in Ha. destruct Ha. congruence.
  - injection E as -> E. f_equal.
    apply andb_prop in Ha. apply andb_prop in Hb.
    eapply IH; [apply Ha | apply Hb | exact Hc | exact Hc' | exact E].
Qed.

(** *** Hashes that went through the [catch] block *)

(** Some frame of the call [hashData data] ran out of stack (or met a
    dangling reference) and returned the fallback. *)
Fixpoint failed (stack : nat) (h : heap) (data : value) : bool :=
  match data with
  | VRef a =>
      match stack with
      | O => true
      | S stack' =>
          match h !! a with
          | Some (OArray elems) => existsb (failed stack' h) elems
          | Some (OObject props) =>
              existsb (fun key => failed stack' h (getProp props key))
                (sort (map fst props))
          | None => true
          end
      end
  | _ => false
  end.

Lemma concat_cons sep (x : string) l :
  l <> [] ->
  String.concat sep (x :: l) = (x ++ sep ++ String.concat sep l)%string.
Proof. destruct l; [contradiction | reflexivity]. Qed.

Section Joined.

(** The parts of an array or of an object: part [x] is written
    [pre x] followed by the hash of [val x]. *)
Context {X : Type} (pre : X -> string) (val : X -> value).
Context (hashA hashB : value -> string) (bad : value -> bool) (Q : Prop).
Context (part : X -> string -> string).
Hypothesis part_pre : forall x s, part x s = (pre x ++ s)%string.
Hypothesis same : forall v, bad v = false -> hashA v = hashB v.
Hypothesis differ : forall v ta tb,
  bad v = true -> (hashA v ++ ta = hashB v ++ tb)%string -> Q.

Lemma joined_same xs :
  existsb (fun x => bad (val x)) xs = false ->
  map (fun x => part x (hashA (val x))) xs
  = map (fun x => part x (hashB (val x))) xs.
Proof.
  induction xs as [|x xs IH]; simpl; [reflexivity|].
  intros H. apply orb_false_elim in H. destruct H as [Hx Hxs].
  rewrite (same _ Hx), (IH Hxs). reflexivity.
Qed.

Lemma joined_differ xs : forall ta tb,
  existsb (fun x => bad (val x)) xs = true ->
  (String.concat "," (map (fun x => part x (hashA (val x))) xs) ++ ta
   = String.concat "," (map (fun x => part x (hashB (val x))) xs) ++ tb)%string ->
  Q.
Proof.
  induction xs as [|x xs IH]; intros ta tb Hbad E; [discriminate|].
  cbn [existsb] in Hbad.
  change (map ?f (x :: xs)) with (f x :: map f xs) in E. cbv beta in E.
  destruct xs as [|y xs].
  - cbn [existsb] in Hbad. rewrite orb_false_r in Hbad.
    cbn [map String.concat] in E. rewrite !part_pre, !append_assoc in E.
    apply append_cancel in E. eapply differ; eauto.
  - rewrite !concat_cons in E by discriminate.
    rewrite !(part_pre x), !append_assoc in E. apply append_cancel in E.
    destruct (bad (val x)) eqn:Hx.
    + eapply differ; eauto.
    + rewrite (same _ Hx) in E. do 2 apply append_cancel in E.
      apply (IH ta tb); [exact Hbad | exact E].
Qed.

End Joined.

Lemma fallback_differ data a b ta tb :
  0 <= a -> 0 <= b ->
  (Structural.fallback data a ++ ta = Structural.fallback data b ++ tb)%string ->
  a = b.
Proof.
  intros Ha Hb E. unfold Structural.fallback in E.
  rewrite !append_assoc in E.
  do 3 apply append_cancel in E.
  rewrite !append_cons, !append_nil in E.
  apply showZ_inj; try assumption.
  eapply digits_stop; [| | | |exact E];
    try (apply showZ_digits; assumption); reflexivity.
Qed.

Lemma structural_same stack : forall (h : heap) a b data,
  failed stack h data = false ->
  Structural.hashData stack h a data = Structural.hashData stack h b data.
Proof.
  induction stack as [|stack IH]; intros h a b data Hf;
    destruct data as [| | | | |r]; try reflexivity; try discriminate.
  cbn [failed] in Hf. cbn [Structural.hashData].
  destruct (h !! r) as [[elems|props]|]; [| |discriminate].
  - do 3 f_equal.
    apply joined_same
      with (val := fun v => v) (bad := failed stack h)
           (part := fun (_ : value) s => s); auto.
  - do 3 f_equal.
    apply joined_same
      with (val := getProp props) (bad := failed stack h)
           (part := fun key s => (key ++ ":" ++ s)%string); auto.
Qed.

Lemma structural_differ stack : forall (h : heap) a b data ta tb,
  failed stack h data = true -> 0 <= a -> 0 <= b ->
  (Structural.hashData stack h a data ++ ta
   = Structural.hashData stack h b data ++ tb)%string ->
  a = b.
Proof.
  induction stack as [|stack IH]; intros h a b data ta tb Hf Ha Hb E;
    destruct data as [| | | | |r]; try discriminate.
  - eapply fallback_differ; eauto.
  - cbn [failed] in Hf. cbn [Structural.hashData] in E.
    destruct (h !! r) as [[elems|props]|].
    + rewrite !append_cons, !append_nil in E. injection E as E.
      rewrite !append_assoc in E.
      eapply joined_differ
        with (pre := fun _ : value => EmptyString)
             (val := fun v => v) (bad := failed stack h)
             (part := fun (_ : value) s => s);
        [reflexivity | | | exact Hf | exact E].
      * intros v Hv. apply structural_same, Hv.
      * intros v ta' tb' Hv E'. eapply IH; eauto.
    + rewrite !append_cons, !append_nil in E. injection E as E.
      rewrite !append_assoc in E.
      eapply joined_differ
        with (pre := fun key => (key ++ ":")%string)
             (val := getProp props) (bad := failed stack h)
             (part := fun key s => (key ++ ":" ++ s)%string);
        [ | | | exact Hf | exact E].
      * intros key s. symmetry. apply append_assoc.
      * intros v Hv. apply structural_same, Hv.
      * intros v ta' tb' Hv E'. eapply IH; eauto.
    + eapply fallback_differ; eauto.
Qed.

(** *** Arrays of numbers *)

Lemma showPos_nonempty fuel : forall n acc,
  acc <> EmptyString -> showPos fuel n acc <> EmptyString.
Proof.
  induction fuel as [|fuel IH]; intros n acc Hacc; [exact Hacc|].
  rewrite showPos_step. destruct (n / 10 =? 0); [discriminate|].
  apply IH. discriminate.
Qed.

Lemma showZ_head n :
  0 <= n -> exists d s, showZ n = String d s /\ isDigit d = true.
Proof.
  intros Hn. pose proof (showZ_digits n Hn) as Hd.
  destruct (showZ n) as [|d s] eqn:E.
  - exfalso. rewrite showZ_nonneg in E by exact Hn.
    rewrite showPos_step in E. destruct (n / 10 =? 0); [discriminate|].
    revert E. apply showPos_nonempty. discriminate.
  - cbn [allDigits] in Hd. apply andb_prop in Hd. exists d, s. tauto.
Qed.

Lemma joined_shape x l e (t : string) :
  (String.concat "," (map showZ (x :: l)) ++ String e t
   = showZ x ++ match l with
                | [] => String e t
                | _ => String "," (String.concat "," (map showZ l)
                                   ++ String e t)
                end)%string.
Proof.
  destruct l as [|y l]; [reflexivity|].
  change (map showZ (x :: y :: l)) with (showZ x :: map showZ (y :: l)).
  rewrite concat_cons by discriminate.
  rewrite !append_assoc, append_cons, append_nil. reflexivity.
Qed.

Lemma isDigit_comma : isDigit ","%char = false.
Proof. reflexivity. Qed.

(** The characters of a printed integer: digits and the sign. *)
Definition isNumChar (c : ascii) : bool :=
  (isDigit c || Ascii.eqb c "-")%bool.

Fixpoint allNumChars (s : string) : bool :=
  match s with
  | EmptyString => true
  | String c s' => (isNumChar c && allNumChars s')%bool
  end.

Lemma allDigits_allNumChars s : allDigits s = true -> allNumChars s = true.
Proof.
  induction s as [|c s IH]; [reflexivity|]. cbn [allDigits allNumChars].
  intros H. apply andb_prop in H. destruct H as [Hc Hs].
  unfold isNumChar. rewrite Hc, (IH Hs). reflexivity.
Qed.

Lemma showZ_negative n : n < 0 -> showZ n = String "-" (showZ (- n)).
Proof.
  intros Hn. unfold showZ at 1.
  destruct (n <? 0) eqn:E; [|apply Z.ltb_ge in E; lia].
  rewrite (showZ_nonneg (- n)) by lia. reflexivity.
Qed.

Lemma showZ_numChars n : allNumChars (showZ n) = true.
Proof.
  destruct (Z_lt_le_dec n 0) as [Hn|Hn].
  - rewrite showZ_negative by exact Hn. cbn [allNumChars].
    rewrite allDigits_allNumChars by (apply showZ_digits; lia). reflexivity.
  - apply allDigits_allNumChars, showZ_digits, Hn.
Qed.

Lemma showZ_first n :
  exists d s, showZ n = String d s /\ isNumChar d = true /\
              (isDigit d = true <-> 0 <= n).
Proof.
  destruct (Z_lt_le_dec n 0) as [Hn|Hn].
  - rewrite showZ_negative by exact Hn. eexists _, _.
    split; [reflexivity|]. split; [reflexivity|].
    split; [discriminate | lia].
  - destruct (showZ_head n Hn) as (d & s & E & Hd). exists d, s.
    split; [exact E|]. unfold isNumChar. rewrite Hd. tauto.
Qed.

(** Printing is injective on all integers. *)
Lemma showZ_injective a b : showZ a = showZ b -> a = b.
Proof.
  intros E.
  destruct (showZ_first a) as (da & sa & Ea & _ & Ha).
  destruct (showZ_first b) as (db & sb & Eb & _ & Hb).
  assert (da = db) as <- by congruence.
  destruct (Z_lt_le_dec a 0) as [Hna|Hna].
  - assert (b < 0) as Hnb.
    { destruct (Z_lt_le_dec b 0) as [|Hb0]; [assumption|].
      apply Hb, Ha in Hb0. lia. }
    rewrite (showZ_negative a), (showZ_negative b) in E by assumption.
    injection E as E. apply showZ_inj in E; lia.
  - apply showZ_inj; [exact Hna | apply Hb, Ha, Hna | exact E].
Qed.

(** Two printed integers, each followed by something that is neither a
    digit nor a sign: if the wholes agree, so do the integers' texts. *)
Lemma numChars_stop da : forall db c ta c' tb,
  allNumChars da = true -> allNumChars db = true ->
  isNumChar c = false -> isNumChar c' = false ->
  (da ++ String c ta = db ++ String c' tb)%string -> da = db.
Proof.
  induction da as [|x da IH]; intros db c ta c' tb Ha Hb Hc Hc' E;
    destruct db as [|y db];
    rewrite ?append_nil, ?append_cons in E; cbn [allNumChars] in *.
  - reflexivity.
  - injection E as -> _. apply andb_prop in Hb. destruct Hb. congruence.
  - injection E as -> _. apply andb_prop in Ha. destruct Ha. congruence.
  - injection E as -> E. f_equal.
    apply andb_prop in Ha. apply andb_prop in Hb.
    eapply IH; [apply Ha | apply Hb | exact Hc | exact Hc' | exact E].
Qed.

(** The text between the brackets determines the numbers. *)
Lemma numbers_joined l1 : forall l2 c ta c' tb,
  isNumChar c = false -> c <> ","%char ->
  isNumChar c' = false -> c' <> ","%char ->
  (String.concat "," (map showZ l1) ++ String c ta
   = String.concat "," (map showZ l2) ++ String c' tb)%string ->
  l1 = l2.
Proof.
  induction l1 as [|x l1 IH]; intros l2 c ta c' tb Hc Hc1 Hc' Hc1' E.
  - destruct l2 as [|y l2]; [reflexivity|]. exfalso.
    destruct (showZ_first y) as (d & s & Ey & Hd & _).
    rewrite joined_shape, Ey, append_cons in E.
    change (String.concat "," (map showZ [])) with EmptyString in E.
    rewrite append_nil in E. injection E as -> _. congruence.
  - destruct l2 as [|y l2].
    + exfalso.
      destruct (showZ_first x) as (d & s & Ex & Hd & _).
      rewrite joined_shape, Ex, append_cons in E.
      change (String.concat "," (map showZ [])) with EmptyString in E.
      rewrite append_nil in E. injection E as <- _. congruence.
    + rewrite !joined_shape in E.
      assert (showZ x = showZ y) as Exy.
      { destruct l1, l2;
          (eapply numChars_stop; [| | | |exact E]);
          auto using showZ_numChars. }
      rewrite Exy in E. apply append_cancel in E.
      apply showZ_injective in Exy. subst y.
      destruct l1 as [|x1 l1], l2 as [|y1 l2].
      * reflexivity.
      * injection E as -> _. congruence.
      * injection E as <- _. congruence.
      * injection E as E. f_equal.
        eapply IH; [exact Hc | exact Hc1 | exact Hc' | exact Hc1' | exact E].
Qed.

Lemma structural_numbers stack (h : heap) now a l :
  h !! a = Some (OArray (map VNum l)) ->
  Structural.hashData (S stack) h now (VRef a)
  = ("[" ++ String.concat "," (map showZ l) ++ "]")%string.
Proof.
  intros Ha. cbn [Structural.hashData]. rewrite Ha.
  rewrite map_map. do 3 f_equal. apply map_ext.
  intros n. destruct stack; reflexivity.
Qed.

Lemma serialized_elements stack (h : heap) anc l :
  Serialized.elements (map (Serialized.stringify stack h anc) (map VNum l))
  = Some (map showZ l).
Proof.
  induction l as [|n l IH]; [reflexivity|].
  cbn [map].
  assert (Serialized.stringify stack h anc (VNum n)
          = Serialized.JText (showZ n)) as ->
    by (destruct stack; reflexivity).
  cbn [Serialized.elements]. rewrite IH. reflexivity.
Qed.

Lemma serialized_numbers stack (h : heap) a l :
  h !! a = Some (OArray (map VNum l)) ->
  Serialized.hashData (S stack) h (VRef a)
  = Serialized.Returns
      (Some ("[" ++ String.concat "," (map showZ l) ++ "]")%string).
Proof.
  intros Ha. unfold Serialized.hashData. cbn [Serialized.stringify].
  rewrite bool_decide_eq_false_2 by (intros H; inversion H).
  rewrite Ha, serialized_elements. reflexivity.
Qed.

Lemma bracketed_numbers l1 l2 :
  ("[" ++ String.concat "," (map showZ l1) ++ "]"
   = "[" ++ String.concat "," (map showZ l2) ++ "]")%string ->
  l1 = l2.
Proof.
  intros E. apply append_cancel in E.
  eapply numbers_joined; [| | | | exact E];
    first [reflexivity | discriminate].
Qed.

Lemma samples_sameUpToKeyOrder a :
  sameUpToKeyOrder (heap_ab !! a) (heap_ba !! a).
Proof.
  unfold heap_ab, heap_ba. destruct (decide (a = 0%nat)) as [->|Hne].
  - rewrite !lookup_singleton_eq. split.
    + cbn. apply NoDup_cons. split; [|apply NoDup_singleton].
      intros H. apply list_elem_of_singleton in H. discriminate.
    + apply perm_swap.
  - rewrite !lookup_singleton_ne by congruence. exact I.
Qed.

(** *** Statements of the design document *)

(** [["a", "a,a"]] and [["a,a", "a"]]; [[undefined, null]] and
    [[null, undefined]]. *)
Definition heap_strings : heap :=
  {[ 0%nat := OArray [VStr "a"; VStr "a,a"];
     1%nat := OArray [VStr "a,a"; VStr "a"] ]}.

Definition heap_gaps : heap :=
  {[ 0%nat := OArray [VUndefined; VNull];
     1%nat := OArray [VNull; VUndefined] ]}.

(** C5, as stated, fails.  The revision that hands the value to
    [JSON.stringify] gives different hashes to [{a: 1, b: 2}] and
    [{b: 2, a: 1}], which differ only in the order of their keys.  The
    structural revision gives different hashes to one and the same
    value when a frame falls back and the two calls read the clock a
    millisecond apart.  And the order of the elements of a sequence is
    not always seen: the structural revision gives [["a", "a,a"]] and
    [["a,a", "a"]] the same hash, the other revision gives
    [[undefined, null]] and [[null, undefined]] the same hash. *)
Lemma hash_order_is_not_always_seen :
  (forall a, sameUpToKeyOrder (heap_ab !! a) (heap_ba !! a)) /\
  Serialized.hashData 8 heap_ab (VRef 0%nat)
  <> Serialized.hashData 8 heap_ba (VRef 0%nat) /\
  Structural.hashData 8 heap_self 1700000000000 (VRef 0%nat)
  <> Structural.hashData 8 heap_self 1700000000001 (VRef 0%nat) /\
  Structural.hashData 8 heap_strings 0 (VRef 0%nat)
  = Structural.hashData 8 heap_strings 0 (VRef 1%nat) /\
  Serialized.hashData 8 heap_gaps (VRef 0%nat)
  = Serialized.hashData 8 heap_gaps (VRef 1%nat).
Proof.
  split; [exact samples_sameUpToKeyOrder|].
  vm_compute. repeat split; discriminate.
Qed.

(** C5, amended.  The structural [hashData] gives the same hash to two
    values that differ only in the order of the keys of their objects,
    at any depth, when both calls read the same time; and whatever
    times they read when no frame of the call falls back.  Both
    revisions tell apart two arrays of integers (numbers that the
    runtime prints in plain decimal, as [showZ] does) unless they hold
    the same integers in the same order, so [[1, 2]] and [[2, 1]] get
    different hashes. *)
Theorem hash_key_order stack (h1 h2 : heap) data :
  (forall a, sameUpToKeyOrder (h1 !! a) (h2 !! a)) ->
  (forall now,
     Structural.hashData stack h1 now data
     = Structural.hashData stack h2 now data) /\
  (failed stack h1 data = false ->
   forall now1 now2,
     Structural.hashData stack h1 now1 data
     = Structural.hashData stack h2 now2 data) /\
  (forall a1 a2 l1 l2 now1 now2,
     h1 !! a1 = Some (OArray (map VNum l1)) ->
     h1 !! a2 = Some (OArray (map VNum l2)) ->
     (Structural.hashData (S stack) h1 now1 (VRef a1)
      = Structural.hashData (S stack) h1 now2 (VRef a2) -> l1 = l2) /\
     (Serialized.hashData (S stack) h1 (VRef a1)
      = Serialized.hashData (S stack) h1 (VRef a2) -> l1 = l2)).
Proof.
  intros Hh. split; [|split].
  - intros now. apply structural_key_order, Hh.
  - intros Hf now1 now2.
    rewrite (structural_same stack h1 now1 now2 data Hf).
    apply structural_key_order, Hh.
  - intros a1 a2 l1 l2 now1 now2 E1 E2. split.
    + rewrite (structural_numbers _ _ _ _ _ E1),
        (structural_numbers _ _ _ _ _ E2).
      apply bracketed_numbers.
    + rewrite (serialized_numbers _ _ _ _ E1), (serialized_numbers _ _ _ _ E2).
      intros E. apply bracketed_numbers. congruence.
Qed.

(** [[1, 2]] and [[2, 1]] in one heap. *)
Definition heap_arrays : heap :=
  {[ 0%nat := OArray [VNum 1; VNum 2]; 1%nat := OArray [VNum 2; VNum 1] ]}.

Lemma hash_key_order_witness :
  Structural.hashData 8 heap_ab 1700000000000 (VRef 0%nat)
  = Structural.hashData 8 heap_ba 1700000000001 (VRef 0%nat) /\
  Structural.hashData 1 heap_arrays 0 (VRef 0%nat)
  <> Structural.hashData 1 heap_arrays 1 (VRef 1%nat) /\
  Serialized.hashData 1 heap_arrays (VRef 0%nat)
  <> Serialized.hashData 1 heap_arrays (VRef 1%nat).
Proof.
  split.
  - destruct (hash_key_order 8 heap_ab heap_ba (VRef 0%nat)
                samples_sameUpToKeyOrder) as (_ & H & _).
    apply H. reflexivity.
  - destruct (hash_key_order 0 heap_arrays heap_arrays VNull) as (_ & _ & H).
    + intros a. unfold sameUpToKeyOrder.
      destruct (heap_arrays !! a) as [[l|p]|] eqn:E; auto.
      unfold heap_arrays in E.
      destruct (decide (a = 0%nat)) as [->|H0];
        [rewrite lookup_insert_eq in E; discriminate|].
      rewrite lookup_insert_ne in E by congruence.
      destruct (decide (a = 1%nat)) as [->|H1];
        [rewrite lookup_singleton_eq in E; discriminate|].
      rewrite lookup_singleton_ne in E by congruence. discriminate.
    + destruct (H 0%nat 1%nat [1; 2] [2; 1] 0 1) as [Hs Hj];
        try reflexivity.
      split; intros E; [apply Hs in E | apply Hj in E]; discriminate.
Defined.

(** C7, as stated, fails for the revision that hands the value to
    [JSON.stringify]: on an object that contains itself its fallback is
    [String(data)], the constant text [[object Object]], with no type
    tag and no timestamp (the function does not read the clock, so a
    second failed attempt yields the same hash); and on [undefined] it
    returns [undefined], not a string. *)
Lemma serialized_fallback_is_constant :
  Serialized.stringify 8 heap_self [] (VRef 0%nat) = Serialized.JThrows /\
  Serialized.hashData 8 heap_self (VRef 0%nat)
  = Serialized.Returns (Some "[object Object]"%string) /\
  Serialized.hashData 8 heap_self VUndefined = Serialized.Returns None.
Proof. vm_compute. repeat split. Qed.

(** C7, amended.  The structural [hashData] is a function to strings:
    it returns at every input, a frame that cannot go on returning
    [[hash-error:<type>:<timestamp>]].  When that happened anywhere in
    a call, two calls on the same input at different times (clock reads
    [a] and [b]) return different hashes; when it did not, the hash
    does not depend on the time.  The revision built on
    [JSON.stringify] falls back to [String(data)] instead, which for a
    plain object is [[object Object]]. *)
Theorem structural_fallback stack (h : heap) a b data :
  0 <= a -> 0 <= b ->
  (failed stack h data = true ->
   Structural.hashData stack h a data = Structural.hashData stack h b data ->
   a = b) /\
  (failed stack h data = false ->
   Structural.hashData stack h a data = Structural.hashData stack h b data) /\
  (forall r, Structural.hashData 0 h a (VRef r)
             = ("[hash-error:object:" ++ showZ a ++ "]")%string) /\
  (forall r props,
     h !! r = Some (OObject props) ->
     Serialized.stringify stack h [] (VRef r) = Serialized.JThrows ->
     Serialized.hashData stack h (VRef r)
     = Serialized.Returns (Some "[object Object]"%string)).
Proof.
  intros Ha Hb. split; [|split; [|split]].
  - intros Hf E.
    apply (structural_differ stack h a b data EmptyString EmptyString);
      try assumption.
    rewrite E. reflexivity.
  - apply structural_same.
  - reflexivity.
  - intros r props Hr Hthrow. unfold Serialized.hashData. rewrite Hthrow.
    destruct stack; cbn [Serialized.toString]; rewrite Hr; reflexivity.
Qed.

Lemma structural_fallback_witness :
  failed 3 heap_self (VRef 0%nat) = true /\
  Structural.hashData 3 heap_self 1700000000000 (VRef 0%nat)
  <> Structural.hashData 3 heap_self 1700000010000 (VRef 0%nat) /\
  Serialized.hashData 3 heap_self (VRef 0%nat)
  = Serialized.Returns (Some "[object Object]"%string).
Proof.
  destruct (structural_fallback 3 heap_self 1700000000000 1700000010000
              (VRef 0%nat)) as (H1 & _ & _ & H4); [lia | lia |].
  split; [reflexivity|]. split.
  - intros E. apply H1 in E; [discriminate | reflexivity].
  - apply (H4 0%nat [("self"%string, VRef 0%nat)]); reflexivity.
Defined.

(** *** What the structural hash cannot see *)

(** A primitive replaced by the string [String] prints for it. *)
Definition printed (v : value) : value :=
  match v with
  | VRef a => VRef a
  | _ => VStr (Structural.primitiveToString v)
  end.

Definition printedObject (o : object) : object :=
  match o with
  | OArray elems => OArray (map printed elems)
  | OObject props => OObject (map (fun kv => (kv.1, printed kv.2)) props)
  end.

Lemma getProp_printed props key :
  getProp (map (fun kv => (kv.1, printed kv.2)) props) key
  = match getProp props key with
    | VUndefined =>
        if existsb (fun kv => String.eqb kv.1 key) props
        then VStr "undefined" else VUndefined
    | v => printed v
    end.
Proof.
  induction props as [|[k v] props IH]; [reflexivity|]. cbn.
  destruct (String.eqb k key); cbn; [destruct v; reflexivity | exact IH].
Qed.

(** The structural hash sees a primitive only through its printed form:
    replacing, anywhere in a value, numbers, booleans, [null] or
    [undefined] by the strings that print the same leaves the hash as it
    is.  A status whose field changes from the number [1] to the string
    ["1"], or from [null] to ["null"], is taken for unchanged. *)
Theorem structural_hash_ignores_primitive_types stack (h : heap) now data :
  Structural.hashData stack (printedObject <$> h) now (printed data)
  = Structural.hashData stack h now data /\
  (forall n, Structural.hashData stack h now (VNum n)
             = Structural.hashData stack h now (VStr (showZ n))) /\
  Structural.hashData stack h now VNull
  = Structural.hashData stack h now (VStr "null").
Proof.
  split; [|split; [intros n|]; destruct stack; reflexivity].
  revert h now data.
  induction stack as [|stack IH]; intros h now data.
  - destruct data as [| |[|]| | |a]; reflexivity.
  - destruct data as [| |[|]| | |a]; try reflexivity.
    cbn [printed Structural.hashData]. rewrite lookup_fmap.
    destruct (h !! a) as [[elems|props]|];
      cbn [fmap option_fmap option_map printedObject]; [| |reflexivity].
    + do 3 f_equal. rewrite map_map. apply map_ext. intros v. apply IH.
    + rewrite map_map. cbn [fst]. do 3 f_equal.
      apply map_ext. intros key. do 2 f_equal.
      rewrite getProp_printed.
      destruct (getProp props key) as [| |[|]| | |r] eqn:E;
        try apply IH.
      destruct (existsb _ props); destruct stack; reflexivity.
Qed.

(** *** What the serialized hash cannot see *)

Definition isPrimitive (v : value) : bool :=
  match v with
  | VRef _ => false
  | _ => true
  end.

(** [JSON.stringify] of a value that is not an object. *)
Definition leaf (v : value) : Serialized.jsonResult :=
  match v with
  | VUndefined => Serialized.JUndefined
  | VNull => Serialized.JText "null"
  | VBool true => Serialized.JText "true"
  | VBool false => Serialized.JText "false"
  | VNum n => Serialized.JText (showZ n)
  | VStr s => Serialized.JText (Serialized.quote s)
  | VRef _ => Serialized.JThrows
  end.

Lemma stringify_leaf stack (h : heap) anc v :
  isPrimitive v = true -> Serialized.stringify stack h anc v = leaf v.
Proof. destruct v as [| |[|]| | |a], stack; try discriminate; reflexivity. Qed.

Lemma stringify_leaves stack (h : heap) anc (props : list (string * value)) :
  Forall (fun kv => isPrimitive kv.2 = true) props ->
  map (fun kv => (kv.1, Serialized.stringify stack h anc kv.2)) props
  = map (fun kv => (kv.1, leaf kv.2)) props.
Proof.
  induction 1 as [|[k v] props Hv _ IH]; [reflexivity|]. cbn [map fst snd].
  rewrite IH, (stringify_leaf stack h anc v Hv). reflexivity.
Qed.

Lemma members_leaves (props : list (string * value)) :
  Forall (fun kv => isPrimitive kv.2 = true) props ->
  exists parts,
    Serialized.members (map (fun kv => (kv.1, leaf kv.2)) props) = Some parts.
Proof.
  induction 1 as [|[k v] props Hv _ (parts & E)]; cbn.
  - exists []. reflexivity.
  - destruct v as [| |[|]| | |a]; try discriminate; cbn; rewrite E; cbn; eauto.
Qed.

Lemma members_undefined k (p1 p2 : list (string * value)) :
  Serialized.members
    (map (fun kv => (kv.1, leaf kv.2)) (p1 ++ (k, VUndefined) :: p2))
  = Serialized.members (map (fun kv => (kv.1, leaf kv.2)) (p1 ++ p2)).
Proof.
  induction p1 as [|[k1 v] p1 IH]; cbn; [reflexivity|].
  destruct (leaf v); cbn; rewrite ?IH; reflexivity.
Qed.

(** [JSON.stringify] leaves out a property whose value is [undefined]:
    a flat record and the same record with such a property added, at any
    position, get the same serialized hash. *)
Theorem serialized_hash_ignores_undefined_properties
    stack (h : heap) a1 a2 k p1 p2 :
  h !! a1 = Some (OObject (p1 ++ p2)) ->
  h !! a2 = Some (OObject (p1 ++ (k, VUndefined) :: p2)) ->
  Forall (fun kv => isPrimitive kv.2 = true) (p1 ++ p2) ->
  Serialized.hashData (S stack) h (VRef a1)
  = Serialized.hashData (S stack) h (VRef a2) /\
  exists s, Serialized.hashData (S stack) h (VRef a1)
            = Serialized.Returns (Some s).
Proof.
  intros H1 H2 Hflat.
  destruct (members_leaves (p1 ++ p2) Hflat) as (parts & E).
  assert (Forall (fun kv : string * value => isPrimitive kv.2 = true)
            (p1 ++ (k, VUndefined) :: p2)) as Hflat'.
  { apply Forall_app in Hflat. destruct Hflat as [Hp1 Hp2].
    apply Forall_app. split; [exact Hp1|]. constructor; [reflexivity|exact Hp2]. }
  unfold Serialized.hashData. cbn [Serialized.stringify].
  rewrite !bool_decide_eq_false_2 by (apply not_elem_of_nil).
  rewrite H1, H2, !stringify_leaves by assumption.
  rewrite members_undefined, E. split; [reflexivity|]. eauto.
Qed.

Definition heap_flat : heap :=
  {[ 0%nat := OObject [("online"%string, VBool true)];
     1%nat := OObject [("online"%string, VBool true);
                       ("lat"%string, VUndefined)] ]}.

Lemma serialized_hash_ignores_undefined_properties_witness :
  Serialized.hashData 1 heap_flat (VRef 0%nat)
  = Serialized.hashData 1 heap_flat (VRef 1%nat).
Proof.
  apply (serialized_hash_ignores_undefined_properties 0 heap_flat 0%nat 1%nat
           "lat" [("online"%string, VBool true)] []).
  - reflexivity.
  - reflexivity.
  - repeat constructor.
Defined.

End Hash.

(** ** The ids of queued commands ([src/utils/command-queue.ts], lines
    36-47, 70 and 84)

    [processQueue] removes a command with
    [this.queue.filter(c => c.id !== cmd.id)]: it removes every queued
    command that has the id of [cmd].  The id is made by [addCommand]
    from [Date.now()] and [Math.random()]. *)

Module CommandIds.

Import CommandQueue.

Arguments saveQueue : simpl never.
Arguments markSending : simpl never.
Arguments removeById : simpl never.
Arguments update : simpl never.
Arguments clearQueue : simpl never.

(** The clock reading and the random number that each [addCommand]
    puts into the id. *)
Definition stamps (es : list Event) : list (Z * string) :=
  omap (fun e => match e with
                 | EvAddCommand now _ rnd _ _ _ => Some (now, rnd)
                 | _ => None
                 end) es.

(** [`${Date.now()}-${Math.random()}`] *)
Definition idFor (s : Z * string) : string :=
  (showZ s.1 ++ "-" ++ s.2)%string.

Lemma idFor_inj s s' : 0 <= s.1 -> 0 <= s'.1 -> idFor s = idFor s' -> s = s'.
Proof.
  destruct s as [a r], s' as [b r']. unfold idFor. cbn [fst snd].
  intros Ha Hb E.
  change ("-" ++ r)%string with (String "-" r) in E.
  change ("-" ++ r')%string with (String "-" r') in E.
  pose proof (Hash.digits_stop (showZ a) (showZ b) "-" r "-" r'
                (Hash.showZ_digits a Ha) (Hash.showZ_digits b Hb)
                eq_refl eq_refl E) as Hd.
  apply Hash.showZ_inj in Hd; [|exact Ha|exact Hb]. subst b.
  apply Hash.append_cancel in E. congruence.
Qed.

(** The id was made from one of the stamps [U]. *)
Definition stamped (U : list (Z * string)) (i : string) : Prop :=
  exists s, s ∈ U /\ i = idFor s.

Definition distinct (st : State) : Prop :=
  forall x y, x ∈ queue st -> y ∈ queue st -> x <> y ->
              idOf st x <> idOf st y.

Definition labelled (U : list (Z * string)) (st : State) : Prop :=
  wf st /\
  Forall (fun s => 0 <= s.1) U /\
  (forall r c, deref st r = Some c -> stamped U (id c)) /\
  (forall l, storage st = Some l \/ Some l ∈ loading st ->
             Forall (fun c => stamped U (id c)) l /\ NoDup (map id l)) /\
  distinct st.

Lemma drainLoop_idOf cmds : forall st x,
  idOf (snd (drainLoop cmds st)) x = idOf st x.
Proof.
  induction cmds as [|cmd rest IH]; intros st x; cbn.
  - unfold idOf. rewrite saveQueue_deref. reflexivity.
  - destruct (overLimit st cmd); cbn.
    + rewrite IH. unfold idOf. rewrite removeById_deref. reflexivity.
    + apply markSending_idOf.
Qed.

Lemma spawn_idOf k x : idOf (spawn k) x = idOf (snd k) x.
Proof. destruct k as [[pc|] st]; reflexivity. Qed.

Lemma install_idOf i k x : idOf (install i k) x = idOf (snd k) x.
Proof. destruct k as [[pc|] st]; reflexivity. Qed.

(** The events that neither enqueue nor restart leave the ids alone. *)
Lemma step_idOf st e x :
  enqueues e = false -> e <> EvRestart ->
  idOf (step st e) x = idOf st x.
Proof.
  destruct e; cbn; try discriminate; intros _ Hr.
  - reflexivity.
  - unfold processQueue.
    destruct (processing st || bool_decide (queue st = [])); [reflexivity|].
    rewrite spawn_idOf.
    apply (drainLoop_idOf _ (set_processing true st)).
  - unfold resume. destruct (passes st !! i) as [[cmd rest|cmd rest|rest]|];
      try reflexivity.
    rewrite install_idOf. apply drainLoop_idOf.
  - unfold sendResult.
    destruct (passes st !! i) as [[cmd rest|cmd rest|rest]|];
      try reflexivity.
    destruct ok.
    + change (idOf (saveQueue (removeById cmd st)) x = idOf st x).
      unfold idOf. rewrite saveQueue_deref, removeById_deref. reflexivity.
    + change (idOf (saveQueue (update cmd (with_status CommandQueue.failed) st)) x
              = idOf st x).
      unfold idOf at 1. rewrite saveQueue_deref.
      apply (update_idOf cmd (with_status CommandQueue.failed) st x).
      reflexivity.
  - unfold idOf, deref.
    destruct (clearQueue_fields writeOk st) as (-> & _). reflexivity.
  - unfold timerFires. destruct (bool_decide (t ∈ timers st)); [|reflexivity].
    destruct writeOk; reflexivity.
  - unfold saveDone. destruct (saving st); reflexivity.
  - contradiction.
Qed.

Lemma idOf_Some st r i :
  idOf st r = Some i <-> exists c, deref st r = Some c /\ id c = i.
Proof.
  unfold idOf. destruct (deref st r) as [c|]; cbn; split.
  - intros [= <-]. eauto.
  - intros (c' & [= <-] & <-). reflexivity.
  - discriminate.
  - intros (c' & H & _). discriminate.
Qed.

Lemma snapshot_ids (st : State) : forall q,
  NoDup q ->
  (forall x y, x ∈ q -> y ∈ q -> x <> y -> idOf st x <> idOf st y) ->
  NoDup (map id (omap (deref st) q)).
Proof.
  induction q as [|x q IH]; intros Hnd Hd; cbn; [constructor|].
  apply NoDup_cons in Hnd. destruct Hnd as [Hx Hnd].
  assert (NoDup (map id (omap (deref st) q))) as Hq.
  { apply IH; [exact Hnd|]. intros a b Ha Hb. apply Hd; right; assumption. }
  destruct (deref st x) as [c|] eqn:Ec; [|exact Hq]. cbn.
  apply NoDup_cons. split; [|exact Hq].
  intros Hin. apply list_elem_of_fmap in Hin. destruct Hin as (c' & Eid & Hin).
  apply list_elem_of_omap in Hin. destruct Hin as (y & Hy & Ey).
  apply (Hd x y); [left | right; exact Hy | intros ->; contradiction |].
  unfold idOf. rewrite Ec, Ey. cbn. congruence.
Qed.

Lemma stamped_mono U U' i : U ⊆ U' -> stamped U i -> stamped U' i.
Proof. intros H (s & Hs & E). exists s. auto. Qed.

Lemma drainLoop_loading cmds : forall st,
  loading (snd (drainLoop cmds st)) = loading st.
Proof.
  induction cmds as [|cmd rest IH]; intros st; cbn.
  - rewrite saveQueue_loading. reflexivity.
  - destruct (overLimit st cmd); cbn; [rewrite IH; reflexivity|].
    unfold markSending. rewrite saveQueue_loading, !update_loading.
    reflexivity.
Qed.

Lemma spawn_loading k : loading (spawn k) = loading (snd k).
Proof. destruct k as [[pc|] st]; reflexivity. Qed.

Lemma install_loading i k : loading (install i k) = loading (snd k).
Proof. destruct k as [[pc|] st]; reflexivity. Qed.

(** Only [init] and a restart touch the pending reads. *)
Lemma step_loading st e :
  enqueues e = false -> e <> EvRestart ->
  loading (step st e)
  = match e with
    | EvInit => loading st ++ [storage st]
    | _ => loading st
    end.
Proof.
  destruct e; cbn; try discriminate; intros _ Hr.
  - reflexivity.
  - unfold processQueue.
    destruct (processing st || bool_decide (queue st = [])); [reflexivity|].
    rewrite spawn_loading.
    apply (drainLoop_loading _ (set_processing true st)).
  - unfold resume. destruct (passes st !! i) as [[cmd rest|cmd rest|rest]|];
      try reflexivity.
    rewrite install_loading. apply drainLoop_loading.
  - unfold sendResult.
    destruct (passes st !! i) as [[cmd rest|cmd rest|rest]|];
      try reflexivity.
    destruct ok.
    + change (loading (saveQueue (removeById cmd st)) = loading st).
      rewrite saveQueue_loading. reflexivity.
    + change (loading (saveQueue
                         (update cmd (with_status CommandQueue.failed) st))
              = loading st).
      rewrite saveQueue_loading. apply update_loading.
  - apply clearQueue_loading.
  - unfold timerFires. destruct (bool_decide (t ∈ timers st)); [|reflexivity].
    destruct writeOk; reflexivity.
  - unfold saveDone. destruct (saving st); reflexivity.
  - contradiction.
Qed.

Lemma labelled_quiet U st e :
  enqueues e = false -> e <> EvRestart ->
  labelled U st -> labelled U (step st e).
Proof.
  intros He Hr (Hwf & Hnn & Hheap & Hsto & Hd).
  assert (forall r c, deref (step st e) r = Some c -> stamped U (id c)) as Hheap'.
  { intros r c Hc.
    assert (idOf (step st e) r = Some (id c)) as Hi
      by (apply idOf_Some; eauto).
    rewrite step_idOf in Hi by assumption.
    apply idOf_Some in Hi. destruct Hi as (c0 & Hc0 & <-).
    eapply Hheap, Hc0. }
  assert (distinct (step st e)) as Hd'.
  { intros x y Hx Hy Hxy. rewrite !step_idOf by assumption.
    pose proof (step_sublist st e He) as Hsub.
    apply Hd; [| |exact Hxy]; eapply elem_of_sublist; eauto. }
  assert (forall l, Some l ∈ loading (step st e) ->
            storage st = Some l \/ Some l ∈ loading st) as Hld.
  { intros l Hin. rewrite step_loading in Hin by assumption.
    destruct e; auto. apply elem_of_app in Hin.
    destruct Hin as [Hin|Hin]; [auto|].
    apply list_elem_of_singleton in Hin. auto. }
  split; [apply wf_step, Hwf|]. split; [exact Hnn|].
  split; [exact Hheap'|]. split; [|exact Hd'].
  intros l [Hl|Hl]; [|apply Hsto, Hld, Hl].
  revert l Hl.
  destruct (writes e) eqn:Hw;
    [|rewrite (step_storage st e Hw); intros l Hl; apply Hsto; auto].
  destruct e as [| | | | | |[|]|t [|]| |]; try discriminate; cbn.
  - destruct (clearQueue_fields true st) as (_ & _ & _ & _ & -> & _).
    intros l [= <-]. split; constructor.
  - unfold timerFires.
    destruct (bool_decide (t ∈ timers st));
      [|intros l Hl; apply Hsto; auto].
    intros l [= <-]. change (snapshot (clearTimeout t st)) with (snapshot st).
    split.
    + apply Forall_forall. intros c Hc. unfold snapshot in Hc.
      apply list_elem_of_omap in Hc. destruct Hc as (r & _ & Hc).
      eapply Hheap, Hc.
    + apply snapshot_ids; [apply Hwf | exact Hd].
Qed.

Lemma labelled_restart U st : labelled U st -> labelled U (restart st).
Proof.
  intros (Hwf & Hnn & Hheap & Hsto & Hd).
  split; [apply (wf_step st EvRestart), Hwf|]. split; [exact Hnn|].
  split; [|split].
  - intros r c Hc. destruct r; discriminate.
  - intros l [Hl|Hl]; [apply Hsto; left; exact Hl|].
    apply elem_of_nil in Hl. contradiction.
  - intros x y Hx. apply elem_of_nil in Hx. contradiction.
Qed.

Lemma labelled_assign U st i ok :
  labelled U st -> labelled U (initAssign i ok st).
Proof.
  intros Hall. pose proof Hall as (Hwf & Hnn & Hheap & Hsto & Hd).
  pose proof (wf_step st (EvInitDone i ok) Hwf) as Hwf'. cbn in Hwf'.
  unfold initAssign in *.
  destruct (loading st !! i) as [stored|] eqn:Ei; [|exact Hall].
  assert (forall l, storage st = Some l \/ Some l ∈ delete i (loading st) ->
            Forall (fun c => stamped U (id c)) l /\ NoDup (map id l))
    as Hsto'.
  { intros l [Hl|Hl]; apply Hsto; [left; exact Hl|right].
    eapply elem_of_sublist; [exact Hl | apply sublist_delete]. }
  assert (labelled U (set_loading (delete i (loading st)) st)) as Hall1.
  { split; [exact Hwf|]. split; [exact Hnn|]. split; [exact Hheap|].
    split; [exact Hsto' | exact Hd]. }
  destruct ok; [|exact Hall1]. destruct stored as [l|]; [|exact Hall1].
  destruct (Hsto l) as [Hl Hnd];
    [right; eapply list_elem_of_lookup_2, Ei|].
  split; [exact Hwf'|]. split; [exact Hnn|].
  split; [|split].
  - intros r c. unfold deref. cbn. intros Hc.
    apply lookup_app_Some in Hc. destruct Hc as [Hc|[_ Hc]].
    + eapply Hheap, Hc.
    + rewrite Forall_forall in Hl. eapply Hl, list_elem_of_lookup_2, Hc.
  - exact Hsto'.
  - intros x y Hx Hy Hxy. cbn in Hx, Hy.
    apply list_elem_of_In, in_seq in Hx. apply list_elem_of_In, in_seq in Hy.
    unfold idOf, deref. cbn.
    rewrite !lookup_app_r by lia.
    destruct (lookup_lt_is_Some_2 l (x - length (heap st))) as [cx Ex]; [lia|].
    destruct (lookup_lt_is_Some_2 l (y - length (heap st))) as [cy Ey]; [lia|].
    rewrite Ex, Ey. cbn. intros [= E].
    assert (x - length (heap st) = y - length (heap st))%nat; [|lia].
    eapply (NoDup_lookup (map id l)); [exact Hnd| |];
      rewrite list_lookup_fmap; [rewrite Ex|rewrite Ey]; cbn;
      [reflexivity | congruence].
Qed.

Lemma labelled_add U st now now' rnd d c v :
  0 <= now -> (now, rnd) ∉ U ->
  labelled U st ->
  labelled ((now, rnd) :: U) (snd (addCommand now now' rnd d c v st)).
Proof.
  intros Hnow Hfresh (Hwf & Hnn & Hheap & Hsto & Hd).
  pose proof (wf_step st (EvAddCommand now now' rnd d c v) Hwf) as Hwf'.
  cbn in Hwf'. destruct Hwf as [_ Hb]. rewrite Forall_forall in Hb.
  assert (forall r, deref (snd (addCommand now now' rnd d c v st)) r
                    = (heap st ++ [mkCommand (idFor (now, rnd)) d c v now' 0
                                     pending]) !! r) as Hderef
    by (intros r; apply addCommand_deref).
  assert (forall r, r ∈ queue st ->
            idOf (snd (addCommand now now' rnd d c v st)) r = idOf st r) as Hold.
  { intros r Hr. unfold idOf. rewrite Hderef.
    rewrite lookup_app_l by (apply Hb, Hr). reflexivity. }
  assert (idOf (snd (addCommand now now' rnd d c v st)) (length (heap st))
          = Some (idFor (now, rnd))) as Hnew.
  { unfold idOf. rewrite Hderef, lookup_app_r by lia.
    rewrite Nat.sub_diag. reflexivity. }
  assert (forall r, r ∈ queue st -> idOf st r <> Some (idFor (now, rnd)))
    as Hne.
  { intros r Hr E. apply idOf_Some in E. destruct E as (c0 & Hc0 & E).
    destruct (Hheap r c0 Hc0) as (s & Hs & Es).
    rewrite E in Es. apply idFor_inj in Es; [|exact Hnow|].
    - subst s. contradiction.
    - rewrite Forall_forall in Hnn. apply (Hnn s Hs). }
  split; [exact Hwf'|]. split; [constructor; assumption|].
  split; [|split].
  - intros r c0 Hc0. rewrite Hderef in Hc0.
    apply lookup_app_Some in Hc0. destruct Hc0 as [Hc0|[_ Hc0]].
    + eapply stamped_mono; [|eapply Hheap, Hc0].
      intros s Hs. right. exact Hs.
    + destruct (r - length (heap st))%nat; [|discriminate].
      injection Hc0 as <-. exists (now, rnd). split; [left|reflexivity].
  - change (storage (snd (addCommand now now' rnd d c v st)))
      with (storage (saveQueue
              (set_queue (queue st ++ [length (heap st)])
                 (set_heap (heap st ++ [mkCommand (idFor (now, rnd)) d c v
                                          now' 0 pending]) st)))).
    change (loading (snd (addCommand now now' rnd d c v st)))
      with (loading (saveQueue
              (set_queue (queue st ++ [length (heap st)])
                 (set_heap (heap st ++ [mkCommand (idFor (now, rnd)) d c v
                                          now' 0 pending]) st)))).
    rewrite saveQueue_storage, saveQueue_loading. cbn. intros l El.
    destruct (Hsto l El) as [Hl Hnd]. split; [|exact Hnd].
    eapply Forall_impl; [exact Hl|]. intros c0. apply stamped_mono.
    intros s Hs. right. exact Hs.
  - intros x y Hx Hy Hxy. rewrite addCommand_queue in Hx, Hy.
    apply elem_of_app in Hx. apply elem_of_app in Hy.
    rewrite !list_elem_of_singleton in Hx, Hy.
    destruct Hx as [Hx| ->], Hy as [Hy| ->].
    + rewrite !Hold by assumption. apply Hd; assumption.
    + rewrite (Hold x Hx), Hnew. apply Hne, Hx.
    + rewrite (Hold y Hy), Hnew. intros E. symmetry in E.
      revert E. apply Hne, Hy.
    + contradiction.
Qed.

Lemma labelled_initial : labelled [] initial.
Proof.
  split; [split; constructor|]. split; [constructor|]. split; [|split].
  - intros r c Hc. destruct r; discriminate.
  - intros l [Hl|Hl]; [discriminate|].
    apply elem_of_nil in Hl. contradiction.
  - intros x y Hx. apply elem_of_nil in Hx. contradiction.
Qed.

Lemma labelled_run es : forall U st,
  labelled U st ->
  NoDup (stamps es ++ U) -> Forall (fun s => 0 <= s.1) (stamps es) ->
  exists U', labelled U' (run st es).
Proof.
  induction es as [|e es IH]; intros U st Hl Hnd Hnn; [eauto|].
  change (run st (e :: es)) with (run (step st e) es).
  destruct (enqueues e) eqn:He.
  - destruct e as [|i ok|now now' rnd d c v| | | | | | |]; try discriminate.
    + apply (IH U); [apply labelled_assign, Hl | exact Hnd | exact Hnn].
    + cbn in Hnd, Hnn. apply NoDup_cons in Hnd. destruct Hnd as [Hfresh Hnd].
      apply Forall_cons in Hnn. destruct Hnn as [Hnow Hnn].
      apply (IH ((now, rnd) :: U)).
      * apply labelled_add; [exact Hnow| |exact Hl].
        intros H. apply Hfresh, elem_of_app. right. exact H.
      * rewrite <- Permutation_middle. apply NoDup_cons.
        split; [exact Hfresh|exact Hnd].
      * exact Hnn.
  - assert (e = EvRestart \/ e <> EvRestart) as [->|Hr]
      by (destruct e; try (right; discriminate); left; reflexivity).
    + apply (IH U); [apply labelled_restart, Hl | exact Hnd | exact Hnn].
    + assert (stamps (e :: es) = stamps es) as Es
        by (destruct e; try discriminate; reflexivity).
      rewrite Es in Hnd, Hnn.
      apply (IH U); [apply labelled_quiet; assumption | exact Hnd | exact Hnn].
Qed.

Lemma filter_agree {A} (P Q : A -> Prop) `{!forall x, Decision (P x)}
    `{!forall x, Decision (Q x)} (l : list A) :
  (forall x, x ∈ l -> (P x <-> Q x)) -> filter P l = filter Q l.
Proof.
  induction l as [|a l IH]; intros Hl; [reflexivity|].
  rewrite !filter_cons.
  rewrite IH by (intros x Hx; apply Hl; right; exact Hx).
  pose proof (Hl a (list_elem_of_here a l)) as Ha.
  destruct (decide (P a)) as [Hp|Hp], (decide (Q a)) as [Hq|Hq];
    try reflexivity; tauto.
Qed.

(** When no two calls of [addCommand] get the same clock reading
    together with the same random number, the queued commands always
    have different ids: removing a command by its id removes that
    command and no other. *)
Theorem queued_ids_are_distinct es r :
  NoDup (stamps es) -> Forall (fun s => 0 <= s.1) (stamps es) ->
  r ∈ queue (run initial es) ->
  uniqueId (run initial es) r /\
  (queue (removeById r (run initial es))
   = filter (fun x : ref => x <> r) (queue (run initial es))).
Proof.
  intros Hnd Hnn Hr.
  destruct (labelled_run es [] initial labelled_initial) as (U & H).
  - rewrite app_nil_r. exact Hnd.
  - exact Hnn.
  - destruct H as (_ & _ & _ & _ & Hd). split.
    + intros x Hx Hxr. apply Hd; assumption.
    + rewrite removeById_queue. apply filter_agree. intros x Hx.
      split.
      * intros Hx' ->. apply Hx'. reflexivity.
      * intros Hxr. apply (Hd x r Hx Hr Hxr).
Qed.

Lemma queued_ids_are_distinct_witness :
  uniqueId
    (run initial
       [EvAddCommand 1700000000000 1700000000000 "0.25" "D1" "ARM" None;
        EvAddCommand 1700000000000 1700000000000 "0.75" "D1" "DISARM" None])
    1%nat.
Proof.
  apply (queued_ids_are_distinct
           [EvAddCommand 1700000000000 1700000000000 "0.25" "D1" "ARM" None;
            EvAddCommand 1700000000000 1700000000000 "0.75" "D1" "DISARM"
              None] 1%nat).
  - cbn. apply NoDup_cons. split.
    + rewrite list_elem_of_singleton. discriminate.
    + apply NoDup_singleton.
  - cbn. repeat constructor; cbn; lia.
  - cbn. right. left.
Defined.

End CommandIds.

(** ** The dashboard ([src/screens/DashboardScreen.tsx], lines 58-122
    and 186-187)

    [loadData] stores the device list, asks for the current status of
    every device of the list, a failed request giving [null], and files
    the answers in a [Map] under the device ids, which it stores in
    turn; the screen splits the list it holds in two by the map it
    holds.  The list and the map are stored in different segments of
    [loadData], and the offline branch stores a list alone. *)

Module Dashboard.

Record Device := mkDevice {
  id : string;
  name : string;
  user_id : option Z
}.

(** Of a [DeviceCurrentStatus] the screen reads [online] only. *)
Record DeviceCurrentStatus := mkStatus {
  device_id : string;
  online : bool;
  armed_state : option string
}.

(** [devicesData[index]] with [statuses[index]]: the answer, or [null]
    from [.catch(() => null)]. *)
Definition Loaded := list (Device * option DeviceCurrentStatus).

(** Lines 114-119: [statuses.forEach((status, index) => { if (status)
    statusMap.set(devicesData[index].id, status) })]. *)
Definition record (statusMap : gmap string DeviceCurrentStatus)
    (ds : Device * option DeviceCurrentStatus)
    : gmap string DeviceCurrentStatus :=
  match ds.2 with
  | Some status => <[id ds.1 := status]> statusMap
  | None => statusMap
  end.

Definition statusMap (loaded : Loaded) : gmap string DeviceCurrentStatus :=
  fold_left record loaded ∅.

(** [deviceStatuses.get(d.id)?.online] *)
Definition statusOnline (deviceStatuses : gmap string DeviceCurrentStatus)
    (d : Device) : bool :=
  match deviceStatuses !! id d with
  | Some status => online status
  | None => false
  end.

Definition onlineDevices (devices : list Device)
    (deviceStatuses : gmap string DeviceCurrentStatus) : list Device :=
  List.filter (statusOnline deviceStatuses) devices.

Definition offlineDevices (devices : list Device)
    (deviceStatuses : gmap string DeviceCurrentStatus) : list Device :=
  List.filter (fun d => negb (statusOnline deviceStatuses d)) devices.

(** The state the two lists are computed from. *)
Record State := mkState {
  devices : list Device;                                (* line 34 *)
  deviceStatuses : gmap string DeviceCurrentStatus;     (* line 35 *)
  isUnmounting : bool                                   (* line 56 *)
}.

Definition initial : State := mkState [] ∅ false.

(** Line 72, in the offline branch:
    [if (cachedDevices) setDevices(JSON.parse(cachedDevices))]. *)
Definition cachedShown (cachedDevices : option (list Device)) (st : State)
    : State :=
  match cachedDevices with
  | Some l => mkState l (deviceStatuses st) (isUnmounting st)
  | None => st
  end.

(** Lines 98-101, after the first [await] of the online branch. *)
Definition devicesLoaded (devicesData : list Device) (st : State) : State :=
  if isUnmounting st then st
  else mkState devicesData (deviceStatuses st) (isUnmounting st).

(** Lines 114-122, after [await Promise.all(statusPromises)]. *)
Definition statusesLoaded (loaded : Loaded) (st : State) : State :=
  if isUnmounting st then st
  else mkState (devices st) (statusMap loaded) (isUnmounting st).

(** Line 245, in [handleLogout]. *)
Definition unmounting (st : State) : State :=
  mkState (devices st) (deviceStatuses st) true.

Inductive Event :=
| EvCached (cachedDevices : option (list Device))
| EvDevices (devicesData : list Device)
| EvStatuses (loaded : Loaded)
| EvLogout.

Definition step (st : State) (e : Event) : State :=
  match e with
  | EvCached cachedDevices => cachedShown cachedDevices st
  | EvDevices devicesData => devicesLoaded devicesData st
  | EvStatuses loaded => statusesLoaded loaded st
  | EvLogout => unmounting st
  end.

Definition run (st : State) (es : list Event) : State :=
  fold_left step es st.

Lemma statusMap_lookup (loaded : Loaded) : forall m d r,
  NoDup (map (fun ds => id ds.1) loaded) -> (d, r) ∈ loaded ->
  fold_left record loaded m !! id d
  = match r with
    | Some status => Some status
    | None => m !! id d
    end.
Proof.
  induction loaded as [|[d0 r0] loaded IH]; intros m d r Hnd Hin.
  - apply elem_of_nil in Hin. contradiction.
  - cbn in Hnd. apply NoDup_cons in Hnd. destruct Hnd as [Hd0 Hnd].
    apply elem_of_cons in Hin. destruct Hin as [[= -> ->]|Hin]; cbn.
    + assert (forall m', fold_left record loaded m' !! id d0 = m' !! id d0)
        as Hkeep.
      { clear IH Hnd. induction loaded as [|[d1 r1] loaded IH]; intros m';
          [reflexivity|]. cbn.
        rewrite IH by (intros H; apply Hd0; cbn; right; exact H).
        destruct r1 as [s1|]; [|reflexivity].
        apply lookup_insert_ne. intros E. apply Hd0. cbn in *.
        rewrite E. left. }
      rewrite Hkeep. destruct r0 as [s0|]; [apply lookup_insert_eq|reflexivity].
    + rewrite (IH _ d r Hnd Hin). destruct r as [s|]; [reflexivity|].
      destruct r0 as [s0|]; [|reflexivity].
      apply lookup_insert_ne. intros E. apply Hd0.
      apply list_elem_of_fmap. exists (d, None).
      split; [cbn in *; congruence | exact Hin].
Qed.

(** In every state of the screen each listed device is in exactly one
    of the two lists.  When the two updates of one run of [loadData]
    have been applied one after the other, the screen not being left,
    and the ids of the listed devices are distinct, a device is shown
    online exactly when its own status request was answered and the
    answer says [online]; a device whose request failed is shown
    offline. *)
Theorem device_is_online_iff_its_status_says_so st (loaded : Loaded) d r :
  isUnmounting st = false ->
  NoDup (map (fun ds => id ds.1) loaded) -> (d, r) ∈ loaded ->
  let st' := run st [EvDevices (map fst loaded); EvStatuses loaded] in
  (d ∈ onlineDevices (devices st') (deviceStatuses st')
   <-> exists status, r = Some status /\ online status = true) /\
  (forall es x,
     let st'' := run st es in
     x ∈ offlineDevices (devices st'') (deviceStatuses st'')
     <-> x ∈ devices st'' /\
         ~ x ∈ onlineDevices (devices st'') (deviceStatuses st'')) /\
  (forall es,
     let st'' := run st es in
     Permutation (onlineDevices (devices st'') (deviceStatuses st'')
                  ++ offlineDevices (devices st'') (deviceStatuses st''))
       (devices st'')).
Proof.
  intros Hu Hnd Hin st'.
  assert (devices st' = map fst loaded /\ deviceStatuses st' = statusMap loaded)
    as [Ed Es].
  { unfold st', run, fold_left, step, statusesLoaded, devicesLoaded.
    rewrite Hu. cbn. auto. }
  rewrite Ed, Es.
  assert (d ∈ map fst loaded) as Hd.
  { apply list_elem_of_fmap. exists (d, r). split; [reflexivity|exact Hin]. }
  assert (statusOnline (statusMap loaded) d
          = match r with Some status => online status | None => false end)
    as Hon.
  { unfold statusOnline, statusMap.
    rewrite (statusMap_lookup loaded ∅ d r Hnd Hin).
    destruct r; [reflexivity|]. rewrite lookup_empty. reflexivity. }
  split; [|split].
  - unfold onlineDevices. rewrite list_elem_of_In, filter_In, Hon.
    rewrite <- list_elem_of_In. split.
    + intros [_ H]. destruct r as [s|]; [eauto|discriminate].
    + intros (s & -> & H). auto.
  - intros es x. cbn zeta. unfold onlineDevices, offlineDevices.
    rewrite !list_elem_of_In, !filter_In, <- !list_elem_of_In.
    destruct (statusOnline (deviceStatuses (run st es)) x); cbn; split.
    + intros [_ H]. discriminate.
    + intros [H1 H]. exfalso. apply H. auto.
    + intros [H _]. split; [exact H|]. intros [_ H']. discriminate.
    + intros [H _]. auto.
  - intros es. cbn zeta. unfold onlineDevices, offlineDevices.
    generalize (deviceStatuses (run st es)). intros m.
    induction (devices (run st es)) as [|x l IH]; [reflexivity|]. cbn.
    destruct (statusOnline m x); cbn.
    + constructor. exact IH.
    + rewrite <- Permutation_middle. constructor. exact IH.
Qed.

Definition sampleLoaded : Loaded :=
  [(mkDevice "d1" "Gate" None, Some (mkStatus "d1" true (Some "armed"%string)));
   (mkDevice "d2" "Shed" None, None)].

Lemma device_is_online_iff_its_status_says_so_witness :
  ~ mkDevice "d2" "Shed" None
    ∈ onlineDevices (map fst sampleLoaded) (statusMap sampleLoaded).
Proof.
  destruct (device_is_online_iff_its_status_says_so initial sampleLoaded
              (mkDevice "d2" "Shed" None) None) as ([H _] & _).
  - reflexivity.
  - cbn. repeat constructor; rewrite ?elem_of_cons, ?elem_of_nil;
      intros H; intuition discriminate.
  - right. left.
  - intros Hin. destruct (H Hin) as (s & Hs & _). discriminate.
Defined.

(** Between the two updates, and after the offline branch, the map is
    the one of an earlier run: here the second run has stored the list
    and its status request for [d1] fails, and [d1] is shown online
    until the map of the second run is stored. *)
Lemma status_of_an_earlier_run_is_shown :
  let first := [(mkDevice "d1" "Gate" None,
                 Some (mkStatus "d1" true None))] in
  let second := [(mkDevice "d1" "Gate" None, None)] in
  let between := run initial [EvDevices (map fst first); EvStatuses first;
                              EvDevices (map fst second)] in
  onlineDevices (devices between) (deviceStatuses between)
  = [mkDevice "d1" "Gate" None] /\
  onlineDevices (devices (step between (EvStatuses second)))
    (deviceStatuses (step between (EvStatuses second))) = [].
Proof. vm_compute. split; reflexivity. Qed.

End Dashboard.

(** ** The device screen (the device detail screen of
    [src/unnamed/part_004], lines 494-521, 568-598 and 639-648)

    [loadData] stores the status it receives and remembers the last
    coordinates that were valid; the map shows the current coordinates
    when they are valid and the remembered ones otherwise. *)

Module DeviceDetail.

Section Location.

(** JavaScript numbers: of a coordinate the code only asks whether it is
    [null] and whether it is [=== 0]. *)
Variable number : Type.
Variable isZero : number -> bool.

Record DeviceCurrentStatus := mkStatus {
  online : bool;
  armed_state : option string;
  lat : option number;
  lon : option number
}.

Record LastValidLocation := mkLast {
  last_lat : number;
  last_lon : number;
  last_timestamp : Z
}.

Record State := mkState {
  deviceStatus : option DeviceCurrentStatus;
  lastValidLocation : option LastValidLocation;
  isToggling : bool                          (* isTogglingRef.current *)
}.

Definition initial : State := mkState None None false.

(** [s.lat != null && s.lon != null && !(s.lat === 0 && s.lon === 0)] *)
Definition validCoordinates (s : DeviceCurrentStatus)
    : option (number * number) :=
  match lat s, lon s with
  | Some la, Some lo => if isZero la && isZero lo then None else Some (la, lo)
  | _, _ => None
  end.

(** [loadData], lines 509-521, once both requests are answered. *)
Definition loaded (statusData : option DeviceCurrentStatus) (now : Z)
    (st : State) : State :=
  match statusData with
  | Some s =>
      if isToggling st then st
      else
        mkState (Some s)
          (match validCoordinates s with
           | Some (la, lo) => Some (mkLast la lo now)
           | None => lastValidLocation st
           end)
          (isToggling st)
  | None => st
  end.

(** [handleArmToggle], lines 572-580: the optimistic update. *)
Definition armToggle (shouldArm : bool) (st : State) : State :=
  mkState
    (match deviceStatus st with
     | Some s =>
         Some (mkStatus (online s)
                 (Some (if shouldArm then "armed" else "disarmed")%string)
                 (lat s) (lon s))
     | None => None
     end)
    (lastValidLocation st) true.

(** [isTogglingRef.current = false], lines 588 and 593. *)
Definition toggleEnds (st : State) : State :=
  mkState (deviceStatus st) (lastValidLocation st) false.

Record Display := mkDisplay {
  shown_lat : number;
  shown_lon : number;
  isCurrent : bool;
  shown_timestamp : option Z
}.

(** Lines 640-648. *)
Definition displayLocation (st : State) : option Display :=
  let remembered :=
    match lastValidLocation st with
    | Some l =>
        Some (mkDisplay (last_lat l) (last_lon l) false
                (Some (last_timestamp l)))
    | None => None
    end in
  match deviceStatus st with
  | Some s =>
      match validCoordinates s with
      | Some (la, lo) => Some (mkDisplay la lo true None)
      | None => remembered
      end
  | None => remembered
  end.

Inductive Event :=
| EvLoaded (statusData : option DeviceCurrentStatus) (now : Z)
| EvArmToggle (shouldArm : bool)
| EvToggleEnds.

Definition step (st : State) (e : Event) : State :=
  match e with
  | EvLoaded statusData now => loaded statusData now st
  | EvArmToggle shouldArm => armToggle shouldArm st
  | EvToggleEnds => toggleEnds st
  end.

Definition run (st : State) (es : list Event) : State :=
  fold_left step es st.

(** What is remembered is valid, and valid current coordinates have
    been remembered. *)
Definition remembers (st : State) : Prop :=
  (forall l, lastValidLocation st = Some l ->
             isZero (last_lat l) && isZero (last_lon l) = false) /\
  (forall s, deviceStatus st = Some s -> validCoordinates s <> None ->
             lastValidLocation st <> None).

Lemma validCoordinates_nonzero s la lo :
  validCoordinates s = Some (la, lo) -> isZero la && isZero lo = false.
Proof.
  unfold validCoordinates. destruct (lat s), (lon s); try discriminate.
  destruct (isZero n && isZero n0) eqn:E; [discriminate|].
  intros [= <- <-]. exact E.
Qed.

Lemma remembers_step st e : remembers st -> remembers (step st e).
Proof.
  intros [H1 H2]. destruct e as [[s|] now|shouldArm|]; cbn.
  - unfold loaded. destruct (isToggling st); [split; assumption|].
    split; cbn.
    + destruct (validCoordinates s) as [[la lo]|] eqn:E; [|exact H1].
      intros l [= <-]. cbn. eapply validCoordinates_nonzero, E.
    + intros s' [= <-] Hv.
      destruct (validCoordinates s) as [[la lo]|]; [discriminate|].
      contradiction.
  - split; assumption.
  - split; cbn; [exact H1|].
    destruct (deviceStatus st) as [s|]; [|discriminate].
    intros s' [= <-] Hv. apply (H2 s eq_refl). exact Hv.
  - split; assumption.
Qed.

Lemma remembers_run es : forall st, remembers st -> remembers (run st es).
Proof.
  induction es as [|e es IH]; intros st H; [exact H|].
  apply (IH (step st e)), remembers_step, H.
Qed.

Lemma remembers_initial : remembers initial.
Proof. split; intros x H; discriminate. Qed.

Lemma lastValidLocation_step st e :
  lastValidLocation st <> None -> lastValidLocation (step st e) <> None.
Proof.
  destruct e as [[s|] now|shouldArm|]; cbn; auto.
  unfold loaded. destruct (isToggling st); [auto|]. cbn.
  destruct (validCoordinates s) as [[la lo]|]; [discriminate|auto].
Qed.

Lemma lastValidLocation_run es : forall st,
  lastValidLocation st <> None -> lastValidLocation (run st es) <> None.
Proof.
  induction es as [|e es IH]; intros st H; [exact H|].
  apply (IH (step st e)), lastValidLocation_step, H.
Qed.

Lemma displayLocation_None st :
  remembers st ->
  (displayLocation st = None <-> lastValidLocation st = None).
Proof.
  intros [_ H2]. unfold displayLocation. split.
  - destruct (deviceStatus st) as [s|] eqn:Es.
    + destruct (validCoordinates s) as [[la lo]|] eqn:Ev; [discriminate|].
      destruct (lastValidLocation st); [discriminate|reflexivity].
    + destruct (lastValidLocation st); [discriminate|reflexivity].
  - intros E. destruct (deviceStatus st) as [s|] eqn:Es.
    + destruct (validCoordinates s) as [[la lo]|] eqn:Ev.
      * exfalso. apply (H2 s eq_refl); [congruence|exact E].
      * rewrite E. reflexivity.
    + rewrite E. reflexivity.
Qed.

(** Whatever statuses arrive and whenever the arm toggle is used, the
    map is never given the point (0, 0). *)
Theorem displayed_location_is_never_the_origin es d :
  displayLocation (run initial es) = Some d ->
  isZero (shown_lat d) && isZero (shown_lon d) = false.
Proof.
  destruct (remembers_run es initial remembers_initial) as [H1 _].
  unfold displayLocation.
  destruct (deviceStatus (run initial es)) as [s|].
  - destruct (validCoordinates s) as [[la lo]|] eqn:Ev.
    + intros [= <-]. cbn. eapply validCoordinates_nonzero, Ev.
    + destruct (lastValidLocation (run initial es)) as [l|]; [|discriminate].
      intros [= <-]. cbn. apply H1. reflexivity.
  - destruct (lastValidLocation (run initial es)) as [l|]; [|discriminate].
    intros [= <-]. cbn. apply H1. reflexivity.
Qed.

(** Once the map has had a location to show it always has one: later
    statuses without coordinates, or with the coordinates (0, 0), fall
    back on the last valid ones. *)
Theorem location_once_shown_stays es es' :
  displayLocation (run initial es) <> None ->
  displayLocation (run initial (es ++ es')) <> None.
Proof.
  intros H.
  rewrite (displayLocation_None _ (remembers_run es initial remembers_initial))
    in H.
  rewrite (displayLocation_None _
             (remembers_run (es ++ es') initial remembers_initial)).
  unfold run. rewrite fold_left_app. apply lastValidLocation_run, H.
Qed.

End Location.

Definition fix1 : DeviceCurrentStatus Z :=
  mkStatus Z true None (Some 52) (Some 13).

Definition nofix : DeviceCurrentStatus Z :=
  mkStatus Z true None (Some 0) (Some 0).

Lemma displayed_location_is_never_the_origin_witness :
  (0 =? 52) && (0 =? 13) = false.
Proof.
  apply (displayed_location_is_never_the_origin Z (Z.eqb 0)
           [EvLoaded Z (Some fix1) 1000; EvLoaded Z (Some nofix) 2000]
           (mkDisplay Z 52 13 false (Some 1000))).
  reflexivity.
Defined.

Lemma location_once_shown_stays_witness :
  displayLocation Z (Z.eqb 0)
    (run Z (Z.eqb 0) (initial Z)
       ([EvLoaded Z (Some fix1) 1000] ++ [EvLoaded Z (Some nofix) 2000]))
  <> None.
Proof.
  apply (location_once_shown_stays Z (Z.eqb 0)). discriminate.
Defined.

End DeviceDetail.
